(** * Longest substring of a word inside a regular language (solution.cpp)

    A shallow embedding of [Operand], [Expression] and [Solver] of
    solution.cpp, with the properties of the language algebra, of the
    postfix evaluator and of the outer search.

    Conventions of the embedding.
    - [unsigned long] values are word lengths and indices into tables of
      [(L+1) * (L+1)] cells; they are modelled by [nat].  Every subtraction
      of the source is guarded by its loop bound, so truncated subtraction
      on [nat] never differs from the machine subtraction.
    - [std::vector<int>] cells only ever receive [true], [0], or the result
      of [|=] with a boolean expression or with another cell, so a cell is
      a [bool] and [x |= e] is [x || e].
    - [std::vector] is a [list]; reading is [nth] and writing is [upd].  The
      source never reads or writes outside a vector when its operands are
      built for the same non-empty word; outside, [nth] yields [false] and
      [upd] leaves the list alone.
    - The two [assert]s of the source are the predicates [multiply_assert]
      and [operator_plus_assert]; they hold wherever the evaluator reaches
      them ([multiply_assert_holds], [operator_plus_assert_holds],
      [kleeneStarLoop_assert]).
    - [std::stack] is a [list] whose head is the top.
    - [throw ParseException(m)] is the [Throw] outcome of [Result]. *)

From Stdlib Require Import String Ascii List Arith Bool Lia.
Import ListNotations.

Set Implicit Arguments.

(** ** Vectors and counted loops *)

Section VectorOps.
Variable A : Type.

(** [v[i] = x] *)
Fixpoint upd (v : list A) (i : nat) (x : A) : list A :=
  match v, i with
  | [], _ => []
  | _ :: t, 0 => x :: t
  | h :: t, S j => h :: upd t j x
  end.

End VectorOps.

(** [for (i = lo; i < hi; ++i) body] on a state of type [S]. *)
Definition forRange (S : Type) (lo hi : nat) (body : nat -> S -> S) (s : S) : S :=
  fold_left (fun st i => body i st) (seq lo (hi - lo)) s.

(** [exists k in [lo, hi)] as a boolean. *)
Definition existsIn (lo hi : nat) (p : nat -> bool) : bool :=
  existsb p (seq lo (hi - lo)).

(** Cells of the one- and two-dimensional tables. *)
Definition get1 (v : list bool) (i : nat) : bool := nth i v false.
Definition set1 (v : list bool) (i : nat) (x : bool) : list bool := upd v i x.
Definition get2 (t : list (list bool)) (i j : nat) : bool :=
  nth j (nth i t []) false.
Definition set2 (t : list (list bool)) (i j : nat) (x : bool) : list (list bool) :=
  upd t i (upd (nth i t []) j x).

(** Whether an index lies inside a table as allocated. *)
Definition inShape1 (v : list bool) (i : nat) : bool := i <? length v.

Definition inShape2 (t : list (list bool)) (i j : nat) : bool :=
  (i <? length t) && (j <? length (nth i t [])).

(** Two tables with the same dimensions. *)
Definition sameShape (t w : list (list bool)) : Prop :=
  length w = length t /\ forall a, length (nth a w []) = length (nth a t []).

(** ** Operand: a language as seen from one reference word *)

Definition EPSILON : ascii := "1"%char.

(** [word[i]]; past the end [std::string] yields the terminating zero. *)
Definition charAt (word : string) (i : nat) : ascii :=
  match String.get i word with
  | Some c => c
  | None => Ascii.zero
  end.

(** [word.back()] *)
Definition back (word : string) : ascii :=
  charAt word (String.length word - 1).

Record Operand : Type := mkOperand {
  (* containsSubstring[i][j]: the subword of length j starting at i is in
     the language *)
  containsSubstring : list (list bool);
  (* the empty word is in the language *)
  containsEpsilon : bool;
  (* the word is a subword of some word of the language *)
  containsWordAsSubstring : bool;
  (* containsSuffixEqualsToPrefix[n]: some word of the language ends with
     the prefix of length n of the word *)
  containsSuffixEqualsToPrefix : list bool;
  (* containsPrefixEqualsToSuffix[n]: some word of the language starts
     with the suffix of length n of the word *)
  containsPrefixEqualsToSuffix : list bool;
  wordLength : nat
}.

(** [Operand(ulong wordLength)]: the empty language. *)
Definition Operand_of_length (wordLength : nat) : Operand :=
  {| containsSubstring := repeat (repeat false (wordLength + 1)) (wordLength + 1);
     containsEpsilon := false;
     containsWordAsSubstring := false;
     containsSuffixEqualsToPrefix := repeat false (wordLength + 1);
     containsPrefixEqualsToSuffix := repeat false (wordLength + 1);
     wordLength := wordLength |}.

(** [Operand(char character, const string &word)]: the language of one
    symbol, or of the empty word for [EPSILON]. *)
Definition Operand_of_char (character : ascii) (word : string) : Operand :=
  let L := String.length word in
  let table0 := repeat (repeat false (L + 1)) (L + 1) in
  let vector0 := repeat false (L + 1) in
  if Ascii.eqb character EPSILON then
    {| containsSubstring := table0;
       containsEpsilon := true;
       containsWordAsSubstring := false;
       containsSuffixEqualsToPrefix := vector0;
       containsPrefixEqualsToSuffix := vector0;
       wordLength := L |}
  else
    {| containsSubstring :=
         forRange 0 L
           (fun startPosition t =>
              if Ascii.eqb character (charAt word startPosition)
              then set2 t startPosition 1 true
              else t)
           table0;
       containsEpsilon := false;
       containsWordAsSubstring :=
         if L =? 1 then Ascii.eqb (charAt word 0) character else false;
       containsSuffixEqualsToPrefix :=
         if Ascii.eqb (charAt word 0) character
         then set1 vector0 1 true else vector0;
       containsPrefixEqualsToSuffix :=
         if Ascii.eqb (back word) character
         then set1 vector0 1 true else vector0;
       wordLength := L |}.

(** [isWordEqualToSomeSubstringInLanguage] *)
Definition isWordEqualToSomeSubstringInLanguage (this : Operand) : bool :=
  containsWordAsSubstring this.


(** The three loops of [updateContainsWordAsSubstringForMultiply], each on
    the field of [result] it writes. *)
Definition multiplyWordAsSubstring (this left right : Operand) : bool :=
  forRange 1 (wordLength this)
    (fun prefixLength acc =>
       let suffixLength := wordLength this - prefixLength in
       acc || (get1 (containsSuffixEqualsToPrefix left) prefixLength
               && get1 (containsPrefixEqualsToSuffix right) suffixLength))
    (containsWordAsSubstring left || containsWordAsSubstring right).

Definition multiplySuffixEqualsToPrefix
    (this left right : Operand) (resultVector : list bool) : list bool :=
  forRange 1 (wordLength this)
    (fun prefixLength v =>
       let v := set1 v prefixLength
                  (get1 (containsSuffixEqualsToPrefix right) prefixLength) in
       let v := set1 v prefixLength
                  (get1 v prefixLength
                   || (get1 (containsSuffixEqualsToPrefix left) prefixLength
                       && containsEpsilon right)) in
       forRange 1 prefixLength
         (fun subPrefixLength v =>
            let suffixOfPrefixLength := prefixLength - subPrefixLength in
            set1 v prefixLength
              (get1 v prefixLength
               || (get2 (containsSubstring right) subPrefixLength suffixOfPrefixLength
                   && get1 (containsSuffixEqualsToPrefix left) subPrefixLength)))
         v)
    resultVector.

Definition multiplyPrefixEqualsToSuffix
    (this left right : Operand) (resultVector : list bool) : list bool :=
  forRange 1 (wordLength this)
    (fun suffixLength v =>
       let v := set1 v suffixLength
                  (get1 (containsPrefixEqualsToSuffix left) suffixLength) in
       let v := set1 v suffixLength
                  (get1 v suffixLength
                   || (containsEpsilon left
                       && get1 (containsPrefixEqualsToSuffix right) suffixLength)) in
       forRange 1 suffixLength
         (fun subSuffixLength v =>
            let prefixOfSuffixLength := suffixLength - subSuffixLength in
            set1 v suffixLength
              (get1 v suffixLength
               || (get2 (containsSubstring left)
                     (wordLength this - suffixLength) prefixOfSuffixLength
                   && get1 (containsPrefixEqualsToSuffix right) subSuffixLength)))
         v)
    resultVector.

(** [updateContainsWordAsSubstringForMultiply(result, left, right)] *)
Definition updateContainsWordAsSubstringForMultiply
    (this result left right : Operand) : Operand :=
  {| containsSubstring := containsSubstring result;
     containsEpsilon := containsEpsilon result;
     containsWordAsSubstring := multiplyWordAsSubstring this left right;
     containsSuffixEqualsToPrefix :=
       multiplySuffixEqualsToPrefix this left right
         (containsSuffixEqualsToPrefix result);
     containsPrefixEqualsToSuffix :=
       multiplyPrefixEqualsToSuffix this left right
         (containsPrefixEqualsToSuffix result);
     wordLength := wordLength result |}.

(** The body of the innermost loop of [updateContainsSubstringForMultiply]
    with its two [continue] branches. *)
Definition multiplySubstringStep
    (left right : Operand) (startPosition length prefixLength : nat)
    (t : list (list bool)) : list (list bool) :=
  let suffixLength := length - prefixLength in
  if prefixLength =? 0 then
    if containsEpsilon left then
      set2 t startPosition length
        (get2 t startPosition length
         || get2 (containsSubstring right) startPosition length)
    else t
  else if suffixLength =? 0 then
    if containsEpsilon right then
      set2 t startPosition length
        (get2 t startPosition length
         || get2 (containsSubstring left) startPosition length)
    else t
  else
    set2 t startPosition length
      (get2 t startPosition length
       || (get2 (containsSubstring left) startPosition prefixLength
           && get2 (containsSubstring right)
                (startPosition + prefixLength) suffixLength)).

Definition multiplySubstring
    (this left right : Operand) (resultTable : list (list bool))
    : list (list bool) :=
  forRange 0 (wordLength this)
    (fun startPosition t =>
       forRange 1 (wordLength this - startPosition + 1)
         (fun length t =>
            forRange 0 (length + 1)
              (fun prefixLength t =>
                 multiplySubstringStep left right
                   startPosition length prefixLength t)
              t)
         t)
    resultTable.

(** [updateContainsSubstringForMultiply(result, left, right)] *)
Definition updateContainsSubstringForMultiply
    (this result left right : Operand) : Operand :=
  {| containsSubstring :=
       multiplySubstring this left right (containsSubstring result);
     containsEpsilon := containsEpsilon left && containsEpsilon right;
     containsWordAsSubstring := containsWordAsSubstring result;
     containsSuffixEqualsToPrefix := containsSuffixEqualsToPrefix result;
     containsPrefixEqualsToSuffix := containsPrefixEqualsToSuffix result;
     wordLength := wordLength result |}.

(** [operator+]: the union. *)
Definition operator_plus (this right : Operand) : Operand :=
  let left := this in
  let table :=
    forRange 0 (wordLength this)
      (fun startPosition t =>
         forRange 0 (wordLength this - startPosition + 1)
           (fun length t =>
              set2 t startPosition length
                (get2 t startPosition length
                 || get2 (containsSubstring right) startPosition length))
           t)
      (containsSubstring left) in
  let vectors :=
    forRange 1 (wordLength this + 1)
      (fun length (sp : list bool * list bool) =>
         (set1 (fst sp) length
            (get1 (fst sp) length
             || get1 (containsSuffixEqualsToPrefix right) length),
          set1 (snd sp) length
            (get1 (snd sp) length
             || get1 (containsPrefixEqualsToSuffix right) length)))
      (containsSuffixEqualsToPrefix left, containsPrefixEqualsToSuffix left) in
  {| containsSubstring := table;
     containsEpsilon := containsEpsilon left || containsEpsilon right;
     containsWordAsSubstring :=
       containsWordAsSubstring left || containsWordAsSubstring right;
     containsSuffixEqualsToPrefix := fst vectors;
     containsPrefixEqualsToSuffix := snd vectors;
     wordLength := wordLength left |}.


(** [operator*]: the concatenation. *)
Definition operator_multiply (this right : Operand) : Operand :=
  let left := this in
  let result := Operand_of_length (wordLength this) in
  let result := updateContainsSubstringForMultiply this result left right in
  let result := updateContainsWordAsSubstringForMultiply this result left right in
  result.

(** ** Reading an Operand

    The cells of the three tables, and the value that [operator*] leaves in
    a cell as a closed formula; the formulas are related to the loops of
    the source by the lemmas [get2_multiplySubstring],
    [get1_multiplySuffixEqualsToPrefix] and
    [get1_multiplyPrefixEqualsToSuffix]. *)

Definition subCell (o : Operand) (i len : nat) : bool :=
  get2 (containsSubstring o) i len.

Definition sufCell (o : Operand) (n : nat) : bool :=
  get1 (containsSuffixEqualsToPrefix o) n.

Definition prefCell (o : Operand) (n : nat) : bool :=
  get1 (containsPrefixEqualsToSuffix o) n.

(** What one turn of the innermost loop of
    [updateContainsSubstringForMultiply] ors into the cell. *)
Definition concatSplit (left right : Operand) (i len k : nat) : bool :=
  if k =? 0 then containsEpsilon left && subCell right i len
  else if len - k =? 0 then containsEpsilon right && subCell left i len
  else subCell left i k && subCell right (i + k) (len - k).

Definition sufValue (left right : Operand) (p : nat) : bool :=
  sufCell right p
  || (sufCell left p && containsEpsilon right)
  || existsIn 1 p (fun q => subCell right q (p - q) && sufCell left q).

Definition prefValue (L : nat) (left right : Operand) (s : nat) : bool :=
  prefCell left s
  || (containsEpsilon left && prefCell right s)
  || existsIn 1 s (fun r => subCell left (L - s) (s - r) && prefCell right r).

(** The dimensions every Operand built by the source has. *)
Definition wellShaped (L : nat) (o : Operand) : Prop :=
  wordLength o = L /\
  length (containsSubstring o) = L + 1 /\
  (forall a, a <= L -> length (nth a (containsSubstring o) []) = L + 1) /\
  length (containsSuffixEqualsToPrefix o) = L + 1 /\
  length (containsPrefixEqualsToSuffix o) = L + 1.

(** The Operands that the source can build for a reference word: the two
    constructors, closed under [operator+] and [operator*]. *)
Inductive builtFor (W : string) : Operand -> Prop :=
| built_of_char (c : ascii) : builtFor W (Operand_of_char c W)
| built_of_length : builtFor W (Operand_of_length (String.length W))
| built_plus (a b : Operand) :
    builtFor W a -> builtFor W b -> builtFor W (operator_plus a b)
| built_multiply (a b : Operand) :
    builtFor W a -> builtFor W b -> builtFor W (operator_multiply a b).

(** Whether the window of length [len] at [i] is a word of the language;
    the empty window is the empty word, answered by [containsEpsilon] and
    not by the table. *)
Definition windowIn (o : Operand) (i len : nat) : bool :=
  if len =? 0 then containsEpsilon o else subCell o i len.

(** ** Errors *)

(** [struct ParseException : std::logic_error], carrying its message. *)
Inductive ParseException : Type :=
| ParseError (message : string).

Inductive Result (A : Type) : Type :=
| Ok (value : A)
| Throw (e : ParseException).

Arguments Ok {A} value.
Arguments Throw {A} e.

Definition bind (A B : Type) (r : Result A) (k : A -> Result B) : Result B :=
  match r with
  | Ok a => k a
  | Throw e => Throw e
  end.

Notation "x <- r ;; k" := (bind r (fun x => k))
  (at level 61, r at next level, right associativity).

(** A counted loop whose body may throw; the first exception leaves the
    loop. *)
Fixpoint foldM (S : Type) (body : nat -> S -> Result S) (l : list nat) (s : S)
  : Result S :=
  match l with
  | [] => Ok s
  | i :: l' =>
      match body i s with
      | Ok s' => foldM body l' s'
      | Throw e => Throw e
      end
  end.

Definition forRangeM (S : Type) (lo hi : nat) (body : nat -> S -> Result S) (s : S)
  : Result S :=
  foldM body (seq lo (hi - lo)) s.

(** [string(1, c)] *)
Definition string1 (c : ascii) : string := String c EmptyString.

(** ** Expression: the postfix evaluator *)

Inductive OperatorType : Type := PLUS | MULTIPLY | KLEENE_STAR.

Record Expression : Type := mkExpression {
  operands : list Operand;      (* std::stack<Operand>, top first *)
  expression : string
}.

Definition isOperator (character : ascii) : bool :=
  Ascii.eqb character "+" || Ascii.eqb character "."
  || Ascii.eqb character "*".

Definition isSymbolOfAlphabet (character : ascii) : bool :=
  Ascii.eqb character "a" || Ascii.eqb character "b"
  || Ascii.eqb character "c" || Ascii.eqb character EPSILON.

(** The [for (char element : word)] loop of [checkWord]. *)
Fixpoint checkSymbols (word : string) : Result unit :=
  match word with
  | EmptyString => Ok tt
  | String element rest =>
      if Ascii.eqb element EPSILON || negb (isSymbolOfAlphabet element)
      then Throw (ParseError ("Unknown symbol in word: " ++ string1 element))
      else checkSymbols rest
  end.

Definition checkWord (word : string) : Result unit :=
  if String.length word =? 0
  then Throw (ParseError "Word is empty")
  else checkSymbols word.

Definition operatorCode (character : ascii) : Result OperatorType :=
  if Ascii.eqb character "+" then Ok PLUS
  else if Ascii.eqb character "." then Ok MULTIPLY
  else if Ascii.eqb character "*" then Ok KLEENE_STAR
  else Throw (ParseError ("Unknown operator symbol: " ++ string1 character)).

(** One turn of the loop of [calculateKleeneStar] on the pair
    [(currentPow, currentOperand)]. *)
Definition kleeneStarStep (startOperand : Operand) (state : Operand * Operand)
  : Operand * Operand :=
  let currentPow := fst state in
  let currentOperand := snd state in
  let nextPow := operator_multiply currentPow startOperand in
  let nextOperand := operator_plus currentOperand nextPow in
  (nextPow, nextOperand).

(** The loop of [calculateKleeneStar] run for [iterations] turns. *)
Definition kleeneStarLoop (word : string) (startOperand : Operand)
    (iterations : nat) : Operand * Operand :=
  forRange 0 iterations
    (fun _ state => kleeneStarStep startOperand state)
    (Operand_of_char EPSILON word, Operand_of_char EPSILON word).

Definition calculateKleeneStar (word : string) (operands : list Operand)
  : Result (list Operand) :=
  match operands with
  | [] => Throw (ParseError "Missing operands")
  | startOperand :: rest =>
      let state :=
        kleeneStarLoop word startOperand (2 * String.length word + 2) in
      Ok (snd state :: rest)
  end.

Definition calculateOperator (word : string) (currentOperator : OperatorType)
    (operands : list Operand) : Result (list Operand) :=
  match currentOperator with
  | KLEENE_STAR => calculateKleeneStar word operands
  | _ =>
      match operands with
      | rightOperand :: leftOperand :: rest =>
          Ok ((match currentOperator with
               | PLUS => operator_plus leftOperand rightOperand
               | _ => operator_multiply leftOperand rightOperand
               end) :: rest)
      | _ => Throw (ParseError "Missing operands")
      end
  end.

(** The token loop of [calculateValueOfExpression] on the stack. *)
Fixpoint evaluateTokens (tokens : string) (word : string)
    (operands : list Operand) : Result (list Operand) :=
  match tokens with
  | EmptyString => Ok operands
  | String token rest =>
      if isOperator token then
        currentOperator <- operatorCode token ;;
        operands' <- calculateOperator word currentOperator operands ;;
        evaluateTokens rest word operands'
      else if isSymbolOfAlphabet token then
        evaluateTokens rest word (Operand_of_char token word :: operands)
      else
        Throw (ParseError ("Unknown symbol in expression: " ++ string1 token))
  end.

(** [calculateValueOfExpression]; the stack it leaves behind belongs to a
    copy of the Expression that its caller drops. *)
Definition calculateValueOfExpression (this : Expression) (word : string)
  : Result Operand :=
  _ <- checkWord word ;;
  stack <- evaluateTokens (expression this) word (operands this) ;;
  match stack with
  | [] => Throw (ParseError "Missing operands")
  | top :: [] => Ok top
  | _ :: _ :: _ => Throw (ParseError "Too much operands")
  end.

(** [readExpression] as far as it concerns the value read. *)
Definition readExpression (input : string) : Result Expression :=
  if String.length input =? 0
  then Throw (ParseError "Expression is empty")
  else Ok {| operands := []; expression := input |}.

(** ** Solver: the outer search *)

Record Solver : Type := mkSolver {
  Solver_expression : Expression;
  Solver_word : string
}.

(** The body of the inner loop of [solve]. *)
Definition solveTrial (this : Solver) (startPosition length answer : nat)
  : Result nat :=
  let toCheck := substring startPosition length (Solver_word this) in
  let bufferExpression := Solver_expression this in
  result <- calculateValueOfExpression bufferExpression toCheck ;;
  Ok (if isWordEqualToSomeSubstringInLanguage result
      then Nat.max answer length
      else answer).

Definition solve (this : Solver) : Result nat :=
  forRangeM 0 (String.length (Solver_word this))
    (fun startPosition answer =>
       forRangeM 1 (String.length (Solver_word this) - startPosition + 1)
         (fun length answer => solveTrial this startPosition length answer)
         answer)
    0.

(** [main] after the two reads: the expression token, the word token. *)
Definition run (expressionInput wordInput : string) : Result nat :=
  e <- readExpression expressionInput ;;
  solve {| Solver_expression := e; Solver_word := wordInput |}.

(** ** The search with the trace of its trials

    [solveTraced] is [solve] with one ghost component: the candidate
    strings whose evaluation returned, in the order of the trials.  The
    source has no such list; it records which calls of
    [calculateValueOfExpression] ran to their end before [solve] returned
    or threw.  [snd_solveTraced] relates the two. *)

Definition Traced (A : Type) : Type := (list string * Result A)%type.

Fixpoint foldT (S : Type) (body : nat -> S -> Traced S) (l : list nat) (s : S)
  : Traced S :=
  match l with
  | [] => ([], Ok s)
  | i :: l' =>
      match body i s with
      | (done, Ok s') =>
          let rest := foldT body l' s' in (done ++ fst rest, snd rest)
      | (done, Throw e) => (done, Throw e)
      end
  end.

Definition forRangeT (S : Type) (lo hi : nat) (body : nat -> S -> Traced S) (s : S)
  : Traced S :=
  foldT body (seq lo (hi - lo)) s.

Definition solveTrialTraced (this : Solver) (startPosition length answer : nat)
  : Traced nat :=
  let toCheck := substring startPosition length (Solver_word this) in
  match solveTrial this startPosition length answer with
  | Ok answer' => ([toCheck], Ok answer')
  | Throw e => ([], Throw e)
  end.

Definition solveTraced (this : Solver) : Traced nat :=
  forRangeT 0 (String.length (Solver_word this))
    (fun startPosition answer =>
       forRangeT 1 (String.length (Solver_word this) - startPosition + 1)
         (fun length answer => solveTrialTraced this startPosition length answer)
         answer)
    0.

(** ** Vocabulary of the statements *)

(** A Solver as [main] builds it: the expression read, an empty stack. *)
Definition solverFor (expressionTokens word : string) : Solver :=
  {| Solver_expression := {| operands := []; expression := expressionTokens |};
     Solver_word := word |}.

(** Well-formed postfix expressions over [a], [b], [c], the epsilon symbol
    and the operators [+], [.], [*]. *)
Inductive Postfix : string -> Prop :=
| Postfix_symbol (c : ascii) :
    isSymbolOfAlphabet c = true -> Postfix (string1 c)
| Postfix_plus (l r : string) :
    Postfix l -> Postfix r -> Postfix (l ++ r ++ "+")
| Postfix_multiply (l r : string) :
    Postfix l -> Postfix r -> Postfix (l ++ r ++ ".")
| Postfix_star (e : string) :
    Postfix e -> Postfix (e ++ "*").

Definition inABC (c : ascii) : Prop :=
  c = "a"%char \/ c = "b"%char \/ c = "c"%char.

(** Non-empty words over [a], [b], [c]. *)
Definition wordOverABC (word : string) : Prop :=
  word <> EmptyString /\
  forall i c, String.get i word = Some c -> inABC c.

(** Words with a character outside [a], [b], [c]. *)
Definition hasSymbolOutsideABC (word : string) : Prop :=
  exists i c, String.get i word = Some c /\ ~ inABC c.

(** Evaluating the expression with [W] as the reference word returns an
    Operand whose [containsWordAsSubstring] is true. *)
Definition matchesWholeW (e : Expression) (W : string) : Prop :=
  exists result,
    calculateValueOfExpression e W = Ok result
    /\ isWordEqualToSomeSubstringInLanguage result = true.

(** The candidates of the search: the non-empty contiguous substrings. *)
Definition isTrial (word : string) (startPosition length : nat) : Prop :=
  startPosition < String.length word
  /\ 1 <= length <= String.length word - startPosition.

(** [answer] is the greatest length of a matching candidate, and [0] when
    there is none. *)
Definition isLongestMatch (e : Expression) (word : string) (answer : nat) : Prop :=
  (forall startPosition length,
      isTrial word startPosition length ->
      matchesWholeW e (substring startPosition length word) ->
      length <= answer)
  /\ (answer = 0
      \/ exists startPosition,
           isTrial word startPosition answer
           /\ matchesWholeW e (substring startPosition answer word)).

(** The powers and the partial sums of the star, as the prose has them:
    [e^0] is the epsilon leaf, [e^(n+1) = e^n . e], and the sum adds the
    powers one by one from the left. *)
Fixpoint power (word : string) (e : Operand) (n : nat) : Operand :=
  match n with
  | 0 => Operand_of_char EPSILON word
  | S k => operator_multiply (power word e k) e
  end.

Fixpoint sumOfPowers (word : string) (e : Operand) (n : nat) : Operand :=
  match n with
  | 0 => power word e 0
  | S k => operator_plus (sumOfPowers word e k) (power word e (S k))
  end.

(** Two Operands for a word of length [L] that agree on the two flags and
    on the cells that the data model gives a meaning:
    [containsSubstring[i][len]] for [0 <= i < L], [1 <= len <= L - i], and
    the two boundary vectors at [1 <= n < L]. *)
Definition agreeOnDataModel (L : nat) (x a : Operand) : Prop :=
  containsEpsilon x = containsEpsilon a
  /\ containsWordAsSubstring x = containsWordAsSubstring a
  /\ (forall i len, i < L -> 1 <= len <= L - i ->
                    subCell x i len = subCell a i len)
  /\ (forall n, 1 <= n < L ->
                sufCell x n = sufCell a n /\ prefCell x n = prefCell a n).

(** The cells outside the data model are all false. *)
Definition zeroOutside (L : nat) (o : Operand) : Prop :=
  (forall i j, (i <? L) && (1 <=? j) && (j <=? L - i) = false ->
               subCell o i j = false)
  /\ (forall n, (1 <=? n) && (n <? L) = false ->
                sufCell o n = false /\ prefCell o n = false).

(** ** Further vocabulary *)

(** The tokens consumed so far, read off a stack of sub-expressions (top
    first): the bottom expression comes first in the text. *)
Fixpoint joined (done : list string) : string :=
  match done with
  | [] => EmptyString
  | top :: rest => joined rest ++ top
  end.

(** The cells that no loop of [operator+] visits are all false. *)
Definition zeroOutsideUnion (L : nat) (o : Operand) : Prop :=
  (forall i j, (i <? L) && (j <? L - i + 1) = false -> subCell o i j = false)
  /\ (forall n, (1 <=? n) && (n <? L + 1) = false ->
                sufCell o n = false /\ prefCell o n = false).

(** ** Regular expressions and their languages

    The meaning that the comments of [struct Operand] give to its fields,
    stated over the language of a regular expression.  Words of a language
    are lists of characters; [wordChars] reads the reference word as one. *)

Definition Language : Type := list ascii -> Prop.

Inductive Letter : Type := La | Lb | Lc.

Definition letterChar (x : Letter) : ascii :=
  match x with
  | La => "a"%char
  | Lb => "b"%char
  | Lc => "c"%char
  end.

Inductive Regex : Type :=
| RLetter (x : Letter)
| REpsilon
| RPlus (l r : Regex)
| RMultiply (l r : Regex)
| RStar (e : Regex).

(** The postfix text of a regular expression, as [readExpression] reads
    it. *)
Fixpoint postfix (r : Regex) : string :=
  match r with
  | RLetter x => string1 (letterChar x)
  | REpsilon => string1 EPSILON
  | RPlus l r => postfix l ++ postfix r ++ "+"
  | RMultiply l r => postfix l ++ postfix r ++ "."
  | RStar e => postfix e ++ "*"
  end.

Definition langConcat (A B : Language) : Language :=
  fun w => exists u v, w = u ++ v /\ A u /\ B v.

Fixpoint langPower (A : Language) (n : nat) : Language :=
  match n with
  | 0 => fun w => w = []
  | S k => langConcat (langPower A k) A
  end.

Definition langStar (A : Language) : Language :=
  fun w => exists n, langPower A n w.

Fixpoint language (r : Regex) : Language :=
  match r with
  | RLetter x => fun w => w = [letterChar x]
  | REpsilon => fun w => w = []
  | RPlus l r => fun w => language l w \/ language r w
  | RMultiply l r => langConcat (language l) (language r)
  | RStar e => langStar (language e)
  end.

Definition nonEmptyLanguage (A : Language) : Prop := exists v, A v.

Definition wordChars (W : string) : list ascii := list_ascii_of_string W.

(** The subword of length [len] starting at position [i]. *)
Definition window (w : list ascii) (i len : nat) : list ascii :=
  firstn len (skipn i w).

Definition occursIn (w v : list ascii) : Prop := exists x y, v = x ++ w ++ y.
Definition endsWith (v s : list ascii) : Prop := exists x, v = x ++ s.
Definition startsWith (v p : list ascii) : Prop := exists y, v = p ++ y.

(** [represents W A o]: the Operand [o] says of the language [A], relative
    to the word [W] of length [L], what the comments of the source say a
    field means, on the index ranges that the loops of [operator*] use. *)
Record represents (W : string) (A : Language) (o : Operand) : Prop := {
  rep_wordLength : wordLength o = String.length W;
  rep_shape : wellShaped (String.length W) o;
  rep_epsilon : containsEpsilon o = true <-> A [];
  rep_substring :
    forall i len,
      i < String.length W -> 1 <= len <= String.length W - i ->
      (subCell o i len = true <-> A (window (wordChars W) i len));
  rep_whole :
    containsWordAsSubstring o = true
    <-> exists v, A v /\ occursIn (wordChars W) v;
  rep_suffix :
    forall n, 1 <= n < String.length W ->
      (sufCell o n = true
       <-> exists v, A v /\ endsWith v (window (wordChars W) 0 n));
  rep_prefix :
    forall n, 1 <= n < String.length W ->
      (prefCell o n = true
       <-> exists v, A v
                     /\ startsWith v
                          (window (wordChars W) (String.length W - n) n))
}.

(** [answer] is the greatest length of a candidate of the search that
    occurs inside some word of the language [A], and [0] when there is
    none. *)
Definition isLongestOccurrence (A : Language) (word : string) (answer : nat)
  : Prop :=
  (forall startPosition length,
      isTrial word startPosition length ->
      (exists v, A v
                 /\ occursIn (wordChars (substring startPosition length word)) v) ->
      length <= answer)
  /\ (answer = 0
      \/ exists startPosition,
           isTrial word startPosition answer
           /\ exists v, A v
                        /\ occursIn
                             (wordChars (substring startPosition answer word)) v).

(** * Properties *)

(** ** Vectors and loops *)

Section VectorFacts.
Variable A : Type.

Lemma length_upd (v : list A) i x : length (upd v i x) = length v.
Proof.
  revert i; induction v as [|h t IH]; intros [|j]; simpl; auto.
Qed.

Lemma nth_upd_eq (v : list A) i x d :
  i < length v -> nth i (upd v i x) d = x.
Proof.
  revert i; induction v as [|h t IH]; intros [|j] Hlt; simpl in *;
    try lia; auto.
  apply IH; lia.
Qed.

Lemma nth_upd_ne (v : list A) i j x d :
  i <> j -> nth j (upd v i x) d = nth j v d.
Proof.
  revert i j; induction v as [|h t IH]; intros [|i] [|j] Hne; simpl;
    auto; try congruence.
Qed.

Lemma upd_ge (v : list A) i x : length v <= i -> upd v i x = v.
Proof.
  revert i; induction v as [|h t IH]; intros [|j] Hle; simpl in *;
    auto; try lia.
  f_equal; apply IH; lia.
Qed.

Lemma upd_upd (v : list A) i x y : upd (upd v i x) i y = upd v i y.
Proof.
  revert i; induction v as [|h t IH]; intros [|j]; simpl; auto.
  f_equal; apply IH.
Qed.

Lemma upd_same (v : list A) i d : upd v i (nth i v d) = v.
Proof.
  revert i; induction v as [|h t IH]; intros [|j]; simpl; auto.
  f_equal; apply IH.
Qed.

End VectorFacts.

Lemma forRange_empty (S : Type) lo hi (body : nat -> S -> S) s :
  hi <= lo -> forRange lo hi body s = s.
Proof.
  intros H; unfold forRange.
  replace (hi - lo) with 0 by lia; reflexivity.
Qed.

Lemma forRange_snoc (S : Type) lo hi (body : nat -> S -> S) s :
  lo <= hi ->
  forRange lo (Datatypes.S hi) body s = body hi (forRange lo hi body s).
Proof.
  intros H; unfold forRange.
  replace (Datatypes.S hi - lo) with (Datatypes.S (hi - lo)) by lia.
  rewrite seq_S, fold_left_app; simpl.
  replace (lo + (hi - lo)) with hi by lia; reflexivity.
Qed.

Lemma forRange_ext (S : Type) lo hi (f g : nat -> S -> S) s :
  (forall i st, lo <= i < hi -> f i st = g i st) ->
  forRange lo hi f s = forRange lo hi g s.
Proof.
  intros Hfg.
  destruct (le_lt_dec hi lo) as [Hle|Hlt].
  - rewrite !forRange_empty; auto.
  - assert (Hlo : lo <= hi) by lia; clear Hlt.
    induction Hlo as [|hi' Hlo IH].
    + rewrite !forRange_empty; auto.
    + rewrite !forRange_snoc by assumption.
      rewrite IH by (intros; apply Hfg; lia).
      apply Hfg; lia.
Qed.

(** An invariant of the state carries through a counted loop. *)
Lemma forRange_ind (S : Type) (P : S -> Prop) lo hi (body : nat -> S -> S) s :
  P s ->
  (forall i st, lo <= i < hi -> P st -> P (body i st)) ->
  P (forRange lo hi body s).
Proof.
  intros H0 Hstep.
  destruct (le_lt_dec hi lo) as [Hle|Hlt].
  - rewrite forRange_empty; auto.
  - assert (Hlo : lo <= hi) by lia; clear Hlt.
    induction Hlo as [|hi' Hlo IH].
    + rewrite forRange_empty; auto.
    + rewrite forRange_snoc by assumption.
      apply Hstep; [lia|]. apply IH. intros; apply Hstep; auto; lia.
Qed.

Lemma existsIn_true lo hi p :
  existsIn lo hi p = true <-> exists k, lo <= k < hi /\ p k = true.
Proof.
  unfold existsIn; rewrite existsb_exists; split.
  - intros [k [Hin Hp]]. apply in_seq in Hin. exists k; split; [lia|auto].
  - intros [k [Hr Hp]]. exists k; split; auto. apply in_seq; lia.
Qed.

Lemma existsIn_ext lo hi p q :
  (forall k, lo <= k < hi -> p k = q k) -> existsIn lo hi p = existsIn lo hi q.
Proof.
  intros H. apply eq_true_iff_eq. rewrite !existsIn_true.
  split; intros [k [Hr Hk]]; exists k; split; auto.
  - rewrite <- H; auto.
  - rewrite H; auto.
Qed.

Lemma existsIn_snoc lo hi p :
  lo <= hi -> existsIn lo (S hi) p = existsIn lo hi p || p hi.
Proof.
  intros H; unfold existsIn.
  replace (S hi - lo) with (S (hi - lo)) by lia.
  rewrite seq_S, existsb_app; simpl.
  replace (lo + (hi - lo)) with hi by lia.
  now rewrite orb_false_r.
Qed.

Lemma existsIn_empty lo hi p : hi <= lo -> existsIn lo hi p = false.
Proof.
  intros H; unfold existsIn. replace (hi - lo) with 0 by lia; reflexivity.
Qed.

(** A loop invariant indexed by the loop counter. *)
Lemma forRange_inv (S : Type) (Inv : nat -> S -> Prop) lo hi
      (body : nat -> S -> S) s :
  Inv lo s ->
  (forall i st, lo <= i < hi -> Inv i st -> Inv (Datatypes.S i) (body i st)) ->
  Inv (Nat.max lo hi) (forRange lo hi body s).
Proof.
  intros H0 Hstep.
  destruct (le_lt_dec hi lo) as [Hle|Hlt].
  - rewrite forRange_empty by assumption.
    replace (Nat.max lo hi) with lo by lia; assumption.
  - replace (Nat.max lo hi) with hi by lia.
    assert (Hlo : lo <= hi) by lia; clear Hlt.
    induction Hlo as [|hi' Hlo IH].
    + rewrite forRange_empty; auto.
    + rewrite forRange_snoc by assumption.
      apply Hstep; [lia|]. apply IH. intros; apply Hstep; auto; lia.
Qed.

(** ** Cells *)

Lemma length_set1 v i x : length (set1 v i x) = length v.
Proof. apply length_upd. Qed.

Lemma get1_set1 v i x q :
  get1 (set1 v i x) q = if (q =? i) && inShape1 v i then x else get1 v q.
Proof.
  unfold get1, set1, inShape1.
  destruct (Nat.eqb_spec q i) as [->|Hne]; simpl.
  - destruct (Nat.ltb_spec i (length v)).
    + now apply nth_upd_eq.
    + now rewrite upd_ge.
  - apply nth_upd_ne; congruence.
Qed.

Lemma set1_set1 v i x y : set1 (set1 v i x) i y = set1 v i y.
Proof. apply upd_upd. Qed.

Lemma set1_same v i : set1 v i (get1 v i) = v.
Proof. apply upd_same. Qed.

Lemma set1_outside v i x : inShape1 v i = false -> set1 v i x = v.
Proof.
  unfold inShape1, set1; intros H.
  apply Nat.ltb_ge in H. now apply upd_ge.
Qed.

Lemma length_set2 t i j x : length (set2 t i j x) = length t.
Proof. apply length_upd. Qed.

Lemma row_length_set2 t i j x a :
  length (nth a (set2 t i j x) []) = length (nth a t []).
Proof.
  unfold set2.
  destruct (Nat.eq_dec i a) as [->|Hne].
  - destruct (Nat.lt_ge_cases a (length t)).
    + rewrite nth_upd_eq by assumption. apply length_upd.
    + now rewrite upd_ge.
  - now rewrite nth_upd_ne.
Qed.


Lemma get2_set2 t i j x a b :
  get2 (set2 t i j x) a b =
  if (a =? i) && (b =? j) && inShape2 t i j then x else get2 t a b.
Proof.
  unfold get2, set2, inShape2.
  destruct (Nat.eqb_spec a i) as [->|Hne]; simpl.
  - destruct (Nat.ltb_spec i (length t)); simpl.
    + rewrite nth_upd_eq by assumption.
      destruct (Nat.eqb_spec b j) as [->|Hb]; simpl.
      * destruct (Nat.ltb_spec j (length (nth i t []))).
        -- now apply nth_upd_eq.
        -- now rewrite upd_ge.
      * apply nth_upd_ne; congruence.
    + rewrite upd_ge by assumption. now rewrite andb_false_r.
  - now rewrite nth_upd_ne by congruence.
Qed.

Lemma set2_set2 t i j x y : set2 (set2 t i j x) i j y = set2 t i j y.
Proof.
  unfold set2.
  destruct (Nat.lt_ge_cases i (length t)).
  - rewrite nth_upd_eq by assumption. now rewrite upd_upd, upd_upd.
  - now rewrite !(upd_ge t) by assumption.
Qed.

Lemma set2_same t i j : set2 t i j (get2 t i j) = t.
Proof.
  unfold set2, get2. now rewrite upd_same, upd_same.
Qed.

Lemma set2_outside t i j x : inShape2 t i j = false -> set2 t i j x = t.
Proof.
  unfold inShape2, set2; intros H.
  destruct (Nat.ltb_spec i (length t)); simpl in H.
  - apply Nat.ltb_ge in H. rewrite (upd_ge (nth i t [])) by assumption.
    apply upd_same.
  - now apply upd_ge.
Qed.

(** A run of [cell |= g k] leaves the disjunction of the [g k] in the cell. *)
Lemma orLoop1 v p lo hi g :
  forRange lo hi (fun k v => set1 v p (get1 v p || g k)) v
  = set1 v p (get1 v p || existsIn lo hi g).
Proof.
  pose (Inv := fun n (w : list bool) =>
                 w = set1 v p (get1 v p || existsIn lo n g)).
  destruct (le_lt_dec hi lo) as [Hle|Hlt].
  - rewrite forRange_empty, existsIn_empty by assumption.
    now rewrite orb_false_r, set1_same.
  - replace hi with (Nat.max lo hi) at 2 by lia.
    apply (forRange_inv Inv); unfold Inv.
    + rewrite existsIn_empty by lia. now rewrite orb_false_r, set1_same.
    + intros i st Hi ->. rewrite set1_set1, get1_set1, Nat.eqb_refl; simpl.
      rewrite existsIn_snoc by lia.
      destruct (inShape1 v p) eqn:Hs.
      * now rewrite orb_assoc.
      * now rewrite !set1_outside.
Qed.

Lemma orLoop2 t i j lo hi g :
  forRange lo hi (fun k t => set2 t i j (get2 t i j || g k)) t
  = set2 t i j (get2 t i j || existsIn lo hi g).
Proof.
  pose (Inv := fun n (w : list (list bool)) =>
                 w = set2 t i j (get2 t i j || existsIn lo n g)).
  destruct (le_lt_dec hi lo) as [Hle|Hlt].
  - rewrite forRange_empty, existsIn_empty by assumption.
    now rewrite orb_false_r, set2_same.
  - replace hi with (Nat.max lo hi) at 2 by lia.
    apply (forRange_inv Inv); unfold Inv.
    + rewrite existsIn_empty by lia. now rewrite orb_false_r, set2_same.
    + intros k st Hk ->. rewrite set2_set2, get2_set2, !Nat.eqb_refl; simpl.
      rewrite existsIn_snoc by lia.
      destruct (inShape2 t i j) eqn:Hs.
      * now rewrite orb_assoc.
      * now rewrite !set2_outside.
Qed.

(** A loop that assigns [V p] to cell [p], one cell per turn. *)
Lemma fill1 lo hi V v :
  let w := forRange lo hi (fun p v => set1 v p (V p)) v in
  length w = length v /\
  forall q, get1 w q =
            if (lo <=? q) && (q <? hi) && inShape1 v q then V q else get1 v q.
Proof.
  pose (Inv := fun n (w : list bool) =>
     length w = length v /\
     forall q, get1 w q =
               if (lo <=? q) && (q <? n) && inShape1 v q then V q else get1 v q).
  assert (H : Inv (Nat.max lo hi) (forRange lo hi (fun p v => set1 v p (V p)) v)).
  { apply (forRange_inv Inv); unfold Inv.
    - split; auto. intros q.
      destruct (Nat.leb_spec lo q), (Nat.ltb_spec q lo); simpl; auto; lia.
    - intros i st Hi [Hlen Hget]. split.
      + now rewrite length_set1.
      + intros q. rewrite get1_set1, Hget. unfold inShape1. rewrite Hlen.
        destruct (Nat.eqb_spec q i) as [->|Hne]; simpl.
        * destruct (Nat.leb_spec lo i), (Nat.ltb_spec i i),
            (Nat.ltb_spec i (S i)), (Nat.ltb_spec i (length v));
            simpl; auto; lia.
        * destruct (Nat.leb_spec lo q), (Nat.ltb_spec q i),
            (Nat.ltb_spec q (S i)); simpl; auto; lia. }
  destruct H as [Hlen Hget]. split; auto.
  intros q; rewrite Hget.
  destruct (Nat.leb_spec lo q), (Nat.ltb_spec q (Nat.max lo hi)),
    (Nat.ltb_spec q hi); simpl; auto; lia.
Qed.

(** Case analysis on every comparison of naturals in the goal. *)
Ltac natb :=
  repeat match goal with
         | |- context [?a =? ?b] => destruct (Nat.eqb_spec a b)
         | |- context [?a <=? ?b] => destruct (Nat.leb_spec a b)
         | |- context [?a <? ?b] => destruct (Nat.ltb_spec a b)
         end;
  subst; simpl; try lia; try reflexivity.

(** Closes a boolean identity by cases on the listed atoms. *)
Ltac bcases :=
  repeat match goal with
         | |- context [get1 ?v ?i] =>
             let x := fresh "x" in generalize (get1 v i); intros x
         | |- context [get2 ?t ?i ?j] =>
             let x := fresh "x" in generalize (get2 t i j); intros x
         | |- context [existsIn ?a ?b ?p] =>
             let x := fresh "x" in generalize (existsIn a b p); intros x
         | |- context [inShape2 ?t ?i ?j] =>
             let x := fresh "x" in generalize (inShape2 t i j); intros x
         | |- context [inShape1 ?t ?i] =>
             let x := fresh "x" in generalize (inShape1 t i); intros x
         end;
  repeat match goal with
         | x : bool |- _ => destruct x
         end;
  simpl; auto.

Lemma sameShape_refl t : sameShape t t.
Proof. split; auto. Qed.

Lemma sameShape_trans t u w : sameShape t u -> sameShape u w -> sameShape t w.
Proof.
  intros [H1 H2] [H3 H4]; split; [congruence|].
  intros a; rewrite H4; apply H2.
Qed.

Lemma sameShape_set2 t i j x : sameShape t (set2 t i j x).
Proof. split; [apply length_set2 | intros; apply row_length_set2]. Qed.

Lemma inShape2_sameShape t w a b :
  sameShape t w -> inShape2 w a b = inShape2 t a b.
Proof. intros [H1 H2]; unfold inShape2; now rewrite H1, H2. Qed.

(** One row of a table, [cell |= V j] for the columns [lo <= j < hi]. *)
Lemma orRow2 i lo hi V t :
  let w := forRange lo hi (fun j t => set2 t i j (get2 t i j || V j)) t in
  sameShape t w /\
  forall a b, get2 w a b =
              get2 t a b
              || ((a =? i) && (lo <=? b) && (b <? hi) && inShape2 t a b && V b).
Proof.
  pose (Inv := fun n (w : list (list bool)) =>
     sameShape t w /\
     forall a b, get2 w a b =
       get2 t a b
       || ((a =? i) && (lo <=? b) && (b <? n) && inShape2 t a b && V b)).
  assert (H : Inv (Nat.max lo hi)
                (forRange lo hi (fun j t => set2 t i j (get2 t i j || V j)) t)).
  { apply (forRange_inv Inv); unfold Inv.
    - split; [apply sameShape_refl|]. intros a b.
      natb; now rewrite ?andb_false_r, ?orb_false_r.
    - intros j st Hj [Hsh Hget]. split.
      + eapply sameShape_trans; [eassumption|apply sameShape_set2].
      + intros a b. rewrite get2_set2, (inShape2_sameShape _ _ Hsh), !Hget.
        destruct (Nat.eqb_spec a i) as [->|Ha]; simpl.
        * destruct (Nat.eqb_spec b j) as [->|Hb]; simpl.
          -- natb; bcases.
          -- natb; bcases.
        * reflexivity. }
  destruct H as [Hsh Hget]. split; auto.
  intros a b; rewrite Hget. natb.
Qed.

(** A table swept row by row, [cell |= V i j] for [lo i <= j < hi i]. *)
Lemma orFill2 L lo hi V t :
  let w := forRange 0 L
             (fun i t =>
                forRange (lo i) (hi i)
                  (fun j t => set2 t i j (get2 t i j || V i j)) t) t in
  sameShape t w /\
  forall a b, get2 w a b =
              get2 t a b
              || ((a <? L) && (lo a <=? b) && (b <? hi a)
                  && inShape2 t a b && V a b).
Proof.
  pose (Inv := fun n (w : list (list bool)) =>
     sameShape t w /\
     forall a b, get2 w a b =
       get2 t a b
       || ((a <? n) && (lo a <=? b) && (b <? hi a) && inShape2 t a b && V a b)).
  assert (H : Inv (Nat.max 0 L)
     (forRange 0 L
        (fun i t =>
           forRange (lo i) (hi i)
             (fun j t => set2 t i j (get2 t i j || V i j)) t) t)).
  { apply (forRange_inv Inv); unfold Inv.
    - split; [apply sameShape_refl|]. intros a b; simpl.
      now rewrite orb_false_r.
    - intros i st Hi [Hsh Hget].
      destruct (orRow2 i (lo i) (hi i) (V i) st) as [Hsh' Hget'].
      split.
      + eapply sameShape_trans; eassumption.
      + intros a b. rewrite Hget', (inShape2_sameShape _ _ Hsh), Hget.
        destruct (Nat.eqb_spec a i) as [->|Ha]; simpl.
        * natb; bcases.
        * natb; now rewrite ?orb_false_r. }
  destruct H as [Hsh Hget]. split; auto.
Qed.

(** A loop on a pair of vectors that treats each on its own. *)
Lemma forRange_pair (S T : Type) lo hi (f : nat -> S -> S) (g : nat -> T -> T) s t :
  forRange lo hi (fun i (st : S * T) => (f i (fst st), g i (snd st))) (s, t)
  = (forRange lo hi f s, forRange lo hi g t).
Proof.
  unfold forRange. generalize (seq lo (hi - lo)) as l. intros l.
  revert s t; induction l as [|i l IH]; intros s t; simpl; auto.
Qed.

(** [cell |= V p] for the cells [lo <= p < hi] of a vector. *)
Lemma orFill1 lo hi V v :
  let w := forRange lo hi (fun p v => set1 v p (get1 v p || V p)) v in
  length w = length v /\
  forall q, get1 w q =
            get1 v q || ((lo <=? q) && (q <? hi) && inShape1 v q && V q).
Proof.
  pose (Inv := fun n (w : list bool) =>
     length w = length v /\
     forall q, get1 w q =
               get1 v q || ((lo <=? q) && (q <? n) && inShape1 v q && V q)).
  assert (H : Inv (Nat.max lo hi)
                (forRange lo hi (fun p v => set1 v p (get1 v p || V p)) v)).
  { apply (forRange_inv Inv); unfold Inv.
    - split; auto. intros q. natb; now rewrite ?orb_false_r.
    - intros i st Hi [Hlen Hget]. split.
      + now rewrite length_set1.
      + intros q. rewrite get1_set1, !Hget. unfold inShape1 at 1. rewrite Hlen.
        fold (inShape1 v i).
        destruct (Nat.eqb_spec q i) as [->|Hne]; simpl.
        * natb; bcases.
        * natb; bcases. }
  destruct H as [Hlen Hget]. split; auto.
  intros q; rewrite Hget. natb.
Qed.

(** ** The loops of [operator*] in closed form *)

Lemma orLoopAcc lo hi g a :
  forRange lo hi (fun k acc => acc || g k) a = a || existsIn lo hi g.
Proof.
  pose (Inv := fun n (x : bool) => x = a || existsIn lo n g).
  destruct (le_lt_dec hi lo) as [Hle|Hlt].
  - rewrite forRange_empty, existsIn_empty by assumption.
    now rewrite orb_false_r.
  - replace hi with (Nat.max lo hi) at 2 by lia.
    apply (forRange_inv Inv); unfold Inv.
    + rewrite existsIn_empty by lia. now rewrite orb_false_r.
    + intros k st Hk ->. rewrite existsIn_snoc by lia. now rewrite orb_assoc.
Qed.

Lemma multiplyWordAsSubstring_eq this left right :
  multiplyWordAsSubstring this left right
  = containsWordAsSubstring left || containsWordAsSubstring right
    || existsIn 1 (wordLength this)
         (fun p => sufCell left p && prefCell right (wordLength this - p)).
Proof. unfold multiplyWordAsSubstring. now rewrite orLoopAcc. Qed.

Lemma multiplySubstringStep_or left right i len k t :
  multiplySubstringStep left right i len k t
  = set2 t i len (get2 t i len || concatSplit left right i len k).
Proof.
  unfold multiplySubstringStep, concatSplit, subCell.
  destruct (k =? 0).
  - destruct (containsEpsilon left); simpl; auto.
    now rewrite orb_false_r, set2_same.
  - destruct (len - k =? 0).
    + destruct (containsEpsilon right); simpl; auto.
      now rewrite orb_false_r, set2_same.
    + reflexivity.
Qed.

Lemma get2_multiplySubstring this left right t :
  let w := multiplySubstring this left right t in
  sameShape t w /\
  forall a b,
    get2 w a b =
    get2 t a b
    || ((a <? wordLength this) && (1 <=? b) && (b <? wordLength this - a + 1)
        && inShape2 t a b && existsIn 0 (b + 1) (concatSplit left right a b)).
Proof.
  unfold multiplySubstring.
  erewrite forRange_ext.
  - apply (orFill2 (wordLength this) (fun _ => 1)
             (fun i => wordLength this - i + 1)
             (fun i len => existsIn 0 (len + 1) (concatSplit left right i len))).
  - intros i st Hi; simpl.
    apply forRange_ext. intros len st' Hlen.
    erewrite forRange_ext.
    + apply orLoop2.
    + intros k st'' Hk; simpl. apply multiplySubstringStep_or.
Qed.

Lemma multiplySuffix_body left right p v :
  forRange 1 p
    (fun q v =>
       set1 v p
         (get1 v p
          || (get2 (containsSubstring right) q (p - q)
              && get1 (containsSuffixEqualsToPrefix left) q)))
    (set1 (set1 v p (get1 (containsSuffixEqualsToPrefix right) p)) p
       (get1 (set1 v p (get1 (containsSuffixEqualsToPrefix right) p)) p
        || (get1 (containsSuffixEqualsToPrefix left) p && containsEpsilon right)))
  = set1 v p (sufValue left right p).
Proof.
  rewrite orLoop1, !set1_set1, !get1_set1, Nat.eqb_refl; simpl.
  destruct (inShape1 v p) eqn:Hs.
  - reflexivity.
  - now rewrite !set1_outside.
Qed.

Lemma get1_multiplySuffixEqualsToPrefix this left right v :
  let w := multiplySuffixEqualsToPrefix this left right v in
  length w = length v /\
  forall q, get1 w q =
            if (1 <=? q) && (q <? wordLength this) && inShape1 v q
            then sufValue left right q else get1 v q.
Proof.
  unfold multiplySuffixEqualsToPrefix.
  erewrite forRange_ext.
  - apply (fill1 1 (wordLength this) (sufValue left right)).
  - intros p st Hp; simpl. apply multiplySuffix_body.
Qed.

Lemma multiplyPrefix_body L left right s v :
  forRange 1 s
    (fun r v =>
       set1 v s
         (get1 v s
          || (get2 (containsSubstring left) (L - s) (s - r)
              && get1 (containsPrefixEqualsToSuffix right) r)))
    (set1 (set1 v s (get1 (containsPrefixEqualsToSuffix left) s)) s
       (get1 (set1 v s (get1 (containsPrefixEqualsToSuffix left) s)) s
        || (containsEpsilon left && get1 (containsPrefixEqualsToSuffix right) s)))
  = set1 v s (prefValue L left right s).
Proof.
  rewrite orLoop1, !set1_set1, !get1_set1, Nat.eqb_refl; simpl.
  destruct (inShape1 v s) eqn:Hs.
  - reflexivity.
  - now rewrite !set1_outside.
Qed.

Lemma get1_multiplyPrefixEqualsToSuffix this left right v :
  let w := multiplyPrefixEqualsToSuffix this left right v in
  length w = length v /\
  forall q, get1 w q =
            if (1 <=? q) && (q <? wordLength this) && inShape1 v q
            then prefValue (wordLength this) left right q else get1 v q.
Proof.
  unfold multiplyPrefixEqualsToSuffix.
  erewrite forRange_ext.
  - apply (fill1 1 (wordLength this) (prefValue (wordLength this) left right)).
  - intros p st Hp; simpl. apply multiplyPrefix_body.
Qed.

(** ** The cells of a product *)

Lemma nth_repeat_cases (A : Type) (x d : A) n a :
  nth a (repeat x n) d = if a <? n then x else d.
Proof.
  revert a; induction n as [|n IH]; intros [|a]; simpl; auto.
Qed.

Lemma get1_zeros n a : get1 (repeat false n) a = false.
Proof. unfold get1. rewrite nth_repeat_cases. now destruct (a <? n). Qed.

Lemma get2_zeros n m a b : get2 (repeat (repeat false m) n) a b = false.
Proof.
  unfold get2. rewrite nth_repeat_cases. destruct (a <? n).
  - apply get1_zeros.
  - now destruct b.
Qed.

Lemma inShape1_zeros n a : inShape1 (repeat false n) a = (a <? n).
Proof. unfold inShape1. now rewrite repeat_length. Qed.

Lemma inShape2_zeros n m a b :
  inShape2 (repeat (repeat false m) n) a b = (a <? n) && (b <? m).
Proof.
  unfold inShape2. rewrite repeat_length, nth_repeat_cases.
  destruct (a <? n); simpl; auto. now rewrite repeat_length.
Qed.

Lemma wordLength_multiply l r :
  wordLength (operator_multiply l r) = wordLength l.
Proof. reflexivity. Qed.

Lemma containsEpsilon_multiply l r :
  containsEpsilon (operator_multiply l r)
  = containsEpsilon l && containsEpsilon r.
Proof. reflexivity. Qed.

Lemma containsWordAsSubstring_multiply l r :
  containsWordAsSubstring (operator_multiply l r)
  = containsWordAsSubstring l || containsWordAsSubstring r
    || existsIn 1 (wordLength l)
         (fun p => sufCell l p && prefCell r (wordLength l - p)).
Proof. apply multiplyWordAsSubstring_eq. Qed.

Lemma subCell_multiply l r a b :
  subCell (operator_multiply l r) a b
  = (a <? wordLength l) && (1 <=? b) && (b <=? wordLength l - a)
    && existsIn 0 (b + 1) (concatSplit l r a b).
Proof.
  unfold subCell.
  change (containsSubstring (operator_multiply l r))
    with (multiplySubstring l l r
            (repeat (repeat false (wordLength l + 1)) (wordLength l + 1))).
  destruct (get2_multiplySubstring l l r
              (repeat (repeat false (wordLength l + 1)) (wordLength l + 1)))
    as [_ H].
  rewrite H, get2_zeros, inShape2_zeros.
  natb; bcases.
Qed.

Lemma sufCell_multiply l r p :
  sufCell (operator_multiply l r) p
  = (1 <=? p) && (p <? wordLength l) && sufValue l r p.
Proof.
  unfold sufCell.
  change (containsSuffixEqualsToPrefix (operator_multiply l r))
    with (multiplySuffixEqualsToPrefix l l r (repeat false (wordLength l + 1))).
  destruct (get1_multiplySuffixEqualsToPrefix l l r
              (repeat false (wordLength l + 1))) as [_ H].
  rewrite H, get1_zeros, inShape1_zeros. natb; bcases.
Qed.

Lemma prefCell_multiply l r s :
  prefCell (operator_multiply l r) s
  = (1 <=? s) && (s <? wordLength l) && prefValue (wordLength l) l r s.
Proof.
  unfold prefCell.
  change (containsPrefixEqualsToSuffix (operator_multiply l r))
    with (multiplyPrefixEqualsToSuffix l l r (repeat false (wordLength l + 1))).
  destruct (get1_multiplyPrefixEqualsToSuffix l l r
              (repeat false (wordLength l + 1))) as [_ H].
  rewrite H, get1_zeros, inShape1_zeros. natb; bcases.
Qed.

Lemma wellShaped_of_length L : wellShaped L (Operand_of_length L).
Proof.
  unfold wellShaped; simpl. rewrite !repeat_length.
  repeat split; auto.
  intros a Ha. rewrite nth_repeat_cases.
  destruct (Nat.ltb_spec a (L + 1)); [apply repeat_length | lia].
Qed.

Lemma wellShaped_multiply l r :
  wellShaped (wordLength l) (operator_multiply l r).
Proof.
  destruct (wellShaped_of_length (wordLength l)) as (_ & H2 & H3 & H4 & H5).
  simpl in *.
  unfold wellShaped, operator_multiply; simpl.
  destruct (get2_multiplySubstring l l r
              (repeat (repeat false (wordLength l + 1)) (wordLength l + 1)))
    as [[Hl Hr] _].
  destruct (get1_multiplySuffixEqualsToPrefix l l r
              (repeat false (wordLength l + 1))) as [Hs _].
  destruct (get1_multiplyPrefixEqualsToSuffix l l r
              (repeat false (wordLength l + 1))) as [Hp _].
  repeat split.
  - now rewrite Hl.
  - intros a Ha. rewrite Hr. now apply H3.
  - now rewrite Hs.
  - now rewrite Hp.
Qed.

(** ** The cells of a union *)


Lemma plus_vectors this right :
  forRange 1 (wordLength this + 1)
    (fun length (sp : list bool * list bool) =>
       (set1 (fst sp) length
          (get1 (fst sp) length
           || get1 (containsSuffixEqualsToPrefix right) length),
        set1 (snd sp) length
          (get1 (snd sp) length
           || get1 (containsPrefixEqualsToSuffix right) length)))
    (containsSuffixEqualsToPrefix this, containsPrefixEqualsToSuffix this)
  = (forRange 1 (wordLength this + 1)
       (fun n v => set1 v n (get1 v n || sufCell right n))
       (containsSuffixEqualsToPrefix this),
     forRange 1 (wordLength this + 1)
       (fun n v => set1 v n (get1 v n || prefCell right n))
       (containsPrefixEqualsToSuffix this)).
Proof.
  apply (forRange_pair 1 (wordLength this + 1)
           (fun n v => set1 v n (get1 v n || sufCell right n))
           (fun n v => set1 v n (get1 v n || prefCell right n))).
Qed.

Lemma wordLength_plus a b : wordLength (operator_plus a b) = wordLength a.
Proof. reflexivity. Qed.

Lemma containsEpsilon_plus a b :
  containsEpsilon (operator_plus a b) = containsEpsilon a || containsEpsilon b.
Proof. reflexivity. Qed.

Lemma containsWordAsSubstring_plus a b :
  containsWordAsSubstring (operator_plus a b)
  = containsWordAsSubstring a || containsWordAsSubstring b.
Proof. reflexivity. Qed.

Lemma table_plus a b :
  sameShape (containsSubstring a) (containsSubstring (operator_plus a b)) /\
  forall i j,
    subCell (operator_plus a b) i j
    = subCell a i j
      || ((i <? wordLength a) && (0 <=? j) && (j <? wordLength a - i + 1)
          && inShape2 (containsSubstring a) i j && subCell b i j).
Proof.
  apply (orFill2 (wordLength a) (fun _ => 0) (fun i => wordLength a - i + 1)
           (fun i j => subCell b i j) (containsSubstring a)).
Qed.

Lemma suffix_plus a b :
  length (containsSuffixEqualsToPrefix (operator_plus a b))
  = length (containsSuffixEqualsToPrefix a) /\
  forall n,
    sufCell (operator_plus a b) n
    = sufCell a n
      || ((1 <=? n) && (n <? wordLength a + 1)
          && inShape1 (containsSuffixEqualsToPrefix a) n && sufCell b n).
Proof.
  unfold sufCell at 1. unfold operator_plus.
  cbn [containsSuffixEqualsToPrefix]. rewrite plus_vectors.
  cbn [fst].
  apply (orFill1 1 (wordLength a + 1) (sufCell b)
           (containsSuffixEqualsToPrefix a)).
Qed.

Lemma prefix_plus a b :
  length (containsPrefixEqualsToSuffix (operator_plus a b))
  = length (containsPrefixEqualsToSuffix a) /\
  forall n,
    prefCell (operator_plus a b) n
    = prefCell a n
      || ((1 <=? n) && (n <? wordLength a + 1)
          && inShape1 (containsPrefixEqualsToSuffix a) n && prefCell b n).
Proof.
  unfold prefCell at 1. unfold operator_plus.
  cbn [containsPrefixEqualsToSuffix]. rewrite plus_vectors.
  cbn [snd].
  apply (orFill1 1 (wordLength a + 1) (prefCell b)
           (containsPrefixEqualsToSuffix a)).
Qed.

Lemma wellShaped_plus L a b : wellShaped L a -> wellShaped L (operator_plus a b).
Proof.
  intros (H1 & H2 & H3 & H4 & H5).
  destruct (table_plus a b) as [[Hl Hr] _].
  destruct (suffix_plus a b) as [Hs _].
  destruct (prefix_plus a b) as [Hp _].
  repeat split.
  - now rewrite wordLength_plus.
  - now rewrite Hl.
  - intros i Hi. rewrite Hr. now apply H3.
  - now rewrite Hs.
  - now rewrite Hp.
Qed.

Lemma wellShaped_of_char c W : wellShaped (String.length W) (Operand_of_char c W).
Proof.
  destruct (wellShaped_of_length (String.length W)) as (_ & H2 & H3 & H4 & H5).
  simpl in H2, H3, H4, H5.
  unfold Operand_of_char. destruct (Ascii.eqb c EPSILON).
  - repeat split; auto.
  - assert (Hsh : sameShape
                    (repeat (repeat false (String.length W + 1))
                       (String.length W + 1))
                    (forRange 0 (String.length W)
                       (fun startPosition t =>
                          if Ascii.eqb c (charAt W startPosition)
                          then set2 t startPosition 1 true else t)
                       (repeat (repeat false (String.length W + 1))
                          (String.length W + 1)))).
    { apply forRange_ind; [apply sameShape_refl|].
      intros i st _ Hst. destruct (Ascii.eqb c (charAt W i)); auto.
      eapply sameShape_trans; [eassumption|apply sameShape_set2]. }
    destruct Hsh as [Hl Hr].
    repeat split; cbn [containsSubstring containsSuffixEqualsToPrefix
                         containsPrefixEqualsToSuffix wordLength].
    + now rewrite Hl.
    + intros a Ha. rewrite Hr. now apply H3.
    + destruct (Ascii.eqb (charAt W 0) c); now rewrite ?length_set1.
    + destruct (Ascii.eqb (back W) c); now rewrite ?length_set1.
Qed.

Lemma builtFor_wellShaped W o : builtFor W o -> wellShaped (String.length W) o.
Proof.
  induction 1 as [c| |a b Ha IHa Hb IHb|a b Ha IHa Hb IHb].
  - apply wellShaped_of_char.
  - apply wellShaped_of_length.
  - now apply wellShaped_plus.
  - destruct IHa as [Hw _]. rewrite <- Hw. apply wellShaped_multiply.
Qed.

Lemma builtFor_wordLength W o : builtFor W o -> wordLength o = String.length W.
Proof. intros H. now destruct (builtFor_wellShaped H). Qed.

(** ** Concatenation: the combination laws *)

(** C2. For Operands [left] and [right] built for the same reference word
    [W] of length [L], the concatenation's [containsWordAsSubstring]
    (matchesWholeW) is true if and only if [left]'s is, or [right]'s is, or
    some split position [p] with [1 <= p < L] has
    [left.containsSuffixEqualsToPrefix[p]] and
    [right.containsPrefixEqualsToSuffix[L - p]] both true. *)
Theorem multiply_containsWordAsSubstring_iff W left right :
  builtFor W left -> builtFor W right ->
  let L := String.length W in
  containsWordAsSubstring (operator_multiply left right) = true <->
  containsWordAsSubstring left = true
  \/ containsWordAsSubstring right = true
  \/ exists p, 1 <= p < L /\ sufCell left p = true
               /\ prefCell right (L - p) = true.
Proof.
  intros Hl _ L.
  rewrite containsWordAsSubstring_multiply, (builtFor_wordLength Hl).
  fold L. rewrite !orb_true_iff, existsIn_true.
  split.
  - intros [[H|H]|[p [Hp H]]]; auto.
    apply andb_true_iff in H. right; right; exists p; tauto.
  - intros [H|[H|[p [Hp [H1 H2]]]]]; auto.
    right; exists p; split; auto. now rewrite H1, H2.
Qed.

Lemma multiply_containsWordAsSubstring_iff_witness :
  containsWordAsSubstring
    (operator_multiply (Operand_of_char "a" "ab") (Operand_of_char "b" "ab"))
  = true <->
  containsWordAsSubstring (Operand_of_char "a" "ab") = true
  \/ containsWordAsSubstring (Operand_of_char "b" "ab") = true
  \/ exists p, 1 <= p < 2 /\ sufCell (Operand_of_char "a" "ab") p = true
               /\ prefCell (Operand_of_char "b" "ab") (2 - p) = true.
Proof.
  apply (@multiply_containsWordAsSubstring_iff "ab"
           (Operand_of_char "a" "ab") (Operand_of_char "b" "ab"));
    constructor.
Defined.

Lemma concatSplit_windowIn l r i len k :
  1 <= len -> k <= len ->
  concatSplit l r i len k = windowIn l i k && windowIn r (i + k) (len - k).
Proof.
  intros Hlen Hk. unfold concatSplit, windowIn.
  destruct (Nat.eqb_spec k 0) as [->|Hk0].
  - rewrite Nat.add_0_r, Nat.sub_0_r.
    destruct (Nat.eqb_spec len 0); [lia|reflexivity].
  - destruct (Nat.eqb_spec (len - k) 0) as [E|E].
    + replace k with len by lia. apply andb_comm.
    + reflexivity.
Qed.

(** C3. For Operands [left] and [right] built for the same reference word
    [W] of length [L] and every window [0 <= i < L], [1 <= len <= L - i],
    the concatenation's [containsSubstring[i][len]] is true if and only if
    a split point [0 <= k <= len] exists such that the prefix of length [k]
    of the window is in the left language and the suffix of length
    [len - k] is in the right one, an empty part being resolved by
    [containsEpsilon] of its side ([windowIn]); moreover the
    concatenation's [containsEpsilon] is the conjunction of the two. *)
Theorem multiply_containsSubstring_iff W left right i len :
  builtFor W left -> builtFor W right ->
  i < String.length W -> 1 <= len <= String.length W - i ->
  (subCell (operator_multiply left right) i len = true <->
   exists k, 0 <= k <= len
             /\ windowIn left i k = true
             /\ windowIn right (i + k) (len - k) = true)
  /\ containsEpsilon (operator_multiply left right)
     = containsEpsilon left && containsEpsilon right.
Proof.
  intros Hl _ Hi Hlen. split; [|reflexivity].
  rewrite subCell_multiply, (builtFor_wordLength Hl).
  destruct (Nat.ltb_spec i (String.length W)); [|lia].
  destruct (Nat.leb_spec 1 len); [|lia].
  destruct (Nat.leb_spec len (String.length W - i)); [|lia].
  cbn [andb]. rewrite existsIn_true. split.
  - intros [k [Hk Hc]]. exists k.
    rewrite concatSplit_windowIn in Hc by lia.
    apply andb_true_iff in Hc. split; [lia|tauto].
  - intros [k [Hk [Hw1 Hw2]]]. exists k. split; [lia|].
    rewrite concatSplit_windowIn by lia. now rewrite Hw1, Hw2.
Qed.

Lemma multiply_containsSubstring_iff_witness :
  (subCell
     (operator_multiply (Operand_of_char "a" "ab") (Operand_of_char "b" "ab"))
     0 2 = true <->
   exists k, 0 <= k <= 2
             /\ windowIn (Operand_of_char "a" "ab") 0 k = true
             /\ windowIn (Operand_of_char "b" "ab") (0 + k) (2 - k) = true)
  /\ containsEpsilon
       (operator_multiply (Operand_of_char "a" "ab") (Operand_of_char "b" "ab"))
     = containsEpsilon (Operand_of_char "a" "ab")
       && containsEpsilon (Operand_of_char "b" "ab").
Proof.
  apply (@multiply_containsSubstring_iff "ab"
           (Operand_of_char "a" "ab") (Operand_of_char "b" "ab") 0 2);
    try constructor; simpl; lia.
Defined.

(** C4. For Operands [left] and [right] built for the same reference word
    [W] of length [L]: for [1 <= p < L] the concatenation's
    [containsSuffixEqualsToPrefix[p]] is true if and only if
    [right.containsSuffixEqualsToPrefix[p]], or
    [left.containsSuffixEqualsToPrefix[p]] with [right.containsEpsilon], or
    some [1 <= q < p] has [left.containsSuffixEqualsToPrefix[q]] and
    [right.containsSubstring[q][p - q]]; symmetrically, for [1 <= s < L],
    [containsPrefixEqualsToSuffix[s]] is true if and only if
    [left.containsPrefixEqualsToSuffix[s]], or [left.containsEpsilon] with
    [right.containsPrefixEqualsToSuffix[s]], or some [1 <= r < s] has
    [left.containsSubstring[L - s][s - r]] and
    [right.containsPrefixEqualsToSuffix[r]]. *)
Theorem multiply_boundary_vectors_iff W left right p s :
  builtFor W left -> builtFor W right ->
  let L := String.length W in
  1 <= p < L -> 1 <= s < L ->
  (sufCell (operator_multiply left right) p = true <->
   sufCell right p = true
   \/ (sufCell left p = true /\ containsEpsilon right = true)
   \/ exists q, 1 <= q < p /\ sufCell left q = true
                /\ subCell right q (p - q) = true)
  /\
  (prefCell (operator_multiply left right) s = true <->
   prefCell left s = true
   \/ (containsEpsilon left = true /\ prefCell right s = true)
   \/ exists r, 1 <= r < s /\ subCell left (L - s) (s - r) = true
                /\ prefCell right r = true).
Proof.
  intros Hl _ L Hp Hs.
  rewrite sufCell_multiply, prefCell_multiply, (builtFor_wordLength Hl).
  fold L.
  destruct (Nat.leb_spec 1 p); [|lia].
  destruct (Nat.ltb_spec p L); [|lia].
  destruct (Nat.leb_spec 1 s); [|lia].
  destruct (Nat.ltb_spec s L); [|lia].
  cbn [andb]. unfold sufValue, prefValue.
  rewrite !orb_true_iff, !andb_true_iff, !existsIn_true.
  split; split.
  - intros [[Hc|Hc]|[q [Hq Hc]]]; auto.
    apply andb_true_iff in Hc. right; right; exists q; tauto.
  - intros [Hc|[Hc|[q [Hq [Hc Hd]]]]]; auto.
    right; exists q; split; auto. now rewrite Hc, Hd.
  - intros [[Hc|Hc]|[r [Hr Hc]]]; auto.
    apply andb_true_iff in Hc. right; right; exists r; tauto.
  - intros [Hc|[Hc|[r [Hr [Hc Hd]]]]]; auto.
    right; exists r; split; auto. now rewrite Hc, Hd.
Qed.

Lemma multiply_boundary_vectors_iff_witness :
  let left := operator_multiply (Operand_of_char "a" "abc") (Operand_of_char "b" "abc") in
  let right := Operand_of_char "c" "abc" in
  (sufCell (operator_multiply left right) 2 = true <->
   sufCell right 2 = true
   \/ (sufCell left 2 = true /\ containsEpsilon right = true)
   \/ exists q, 1 <= q < 2 /\ sufCell left q = true
                /\ subCell right q (2 - q) = true)
  /\
  (prefCell (operator_multiply left right) 2 = true <->
   prefCell left 2 = true
   \/ (containsEpsilon left = true /\ prefCell right 2 = true)
   \/ exists r, 1 <= r < 2 /\ subCell left (3 - 2) (2 - r) = true
                /\ prefCell right r = true).
Proof.
  intros left right.
  apply (@multiply_boundary_vectors_iff "abc" left right 2 2);
    try (repeat constructor); simpl; lia.
Defined.

(** ** The Kleene star *)

Lemma kleeneStarLoop_succ word e n :
  kleeneStarLoop word e (S n) = kleeneStarStep e (kleeneStarLoop word e n).
Proof. unfold kleeneStarLoop. apply forRange_snoc. lia. Qed.

(** The loop of [calculateKleeneStar] holds, after [n] turns, the [n]-th
    power and the sum of the powers up to it. *)
Lemma kleeneStarLoop_powers word e n :
  kleeneStarLoop word e n = (power word e n, sumOfPowers word e n).
Proof.
  induction n as [|n IH].
  - reflexivity.
  - rewrite kleeneStarLoop_succ, IH. reflexivity.
Qed.

(** C5. On a Kleene-star token the evaluator pops one operand [e] and
    pushes the Operand obtained from [power = accumulated = epsilon leaf]
    by repeating [2 * L + 2] times (L the length of the reference word)
    [power <- power . e; accumulated <- accumulated + power]; the pushed
    Operand is the sum [e^0 + e^1 + ... + e^(2L+2)] of the powers. *)
Theorem kleene_star_token_pushes_sum_of_powers word e stack rest :
  calculateKleeneStar word (e :: stack)
  = Ok (snd (kleeneStarLoop word e (2 * String.length word + 2)) :: stack)
  /\ snd (kleeneStarLoop word e (2 * String.length word + 2))
     = sumOfPowers word e (2 * String.length word + 2)
  /\ evaluateTokens (String "*" rest) word (e :: stack)
     = evaluateTokens rest word
         (sumOfPowers word e (2 * String.length word + 2) :: stack).
Proof.
  assert (H : snd (kleeneStarLoop word e (2 * String.length word + 2))
              = sumOfPowers word e (2 * String.length word + 2))
    by now rewrite kleeneStarLoop_powers.
  repeat split; auto.
  cbn [evaluateTokens]. 
  change (isOperator "*") with true. cbv iota.
  change (operatorCode "*") with (Ok KLEENE_STAR).
  cbn [bind calculateOperator calculateKleeneStar].
  now rewrite H.
Qed.

Lemma containsEpsilon_sumOfPowers word e n :
  containsEpsilon (sumOfPowers word e n) = true.
Proof.
  induction n as [|n IH].
  - reflexivity.
  - cbn [sumOfPowers]. rewrite containsEpsilon_plus, IH. reflexivity.
Qed.

(** C10. Whatever operand [e] is on top of the stack and whatever the
    reference word, the Operand that the Kleene-star case pushes has
    [containsEpsilon = true]. *)
Theorem kleene_star_containsEpsilon word e stack :
  exists star,
    calculateKleeneStar word (e :: stack) = Ok (star :: stack)
    /\ containsEpsilon star = true.
Proof.
  eexists; split.
  - reflexivity.
  - rewrite kleeneStarLoop_powers. apply containsEpsilon_sumOfPowers.
Qed.

(** ** Extensionality of Operands *)

Lemma vector_ext (v w : list bool) :
  length v = length w -> (forall i, get1 v i = get1 w i) -> v = w.
Proof.
  intros Hlen Hget. apply (nth_ext v w false false); auto.
  intros i _. apply Hget.
Qed.

Lemma table_ext (t u : list (list bool)) :
  length t = length u ->
  (forall a, length (nth a t []) = length (nth a u [])) ->
  (forall a b, get2 t a b = get2 u a b) ->
  t = u.
Proof.
  intros Hlen Hrow Hget. apply (nth_ext t u [] []); auto.
  intros a _. apply vector_ext; auto.
  intros b. apply Hget.
Qed.

Lemma row_length_outside (t : list (list bool)) a :
  length t <= a -> length (nth a t []) = 0.
Proof. intros H. now rewrite nth_overflow. Qed.

Lemma Operand_ext L a b :
  wellShaped L a -> wellShaped L b ->
  containsEpsilon a = containsEpsilon b ->
  containsWordAsSubstring a = containsWordAsSubstring b ->
  (forall i j, subCell a i j = subCell b i j) ->
  (forall n, sufCell a n = sufCell b n) ->
  (forall n, prefCell a n = prefCell b n) ->
  a = b.
Proof.
  intros (A1 & A2 & A3 & A4 & A5) (B1 & B2 & B3 & B4 & B5) He Hw Hsub Hsuf Hpref.
  destruct a as [ta ea wa sa pa la], b as [tb eb wb sb pb lb].
  cbn [containsSubstring containsEpsilon containsWordAsSubstring
         containsSuffixEqualsToPrefix containsPrefixEqualsToSuffix wordLength]
    in *.
  unfold subCell, sufCell, prefCell in *.
  cbn [containsSubstring containsSuffixEqualsToPrefix
         containsPrefixEqualsToSuffix] in *.
  assert (ta = tb).
  { apply table_ext; auto; [congruence|].
    intros i. destruct (le_lt_dec i L) as [Hi|Hi].
    - now rewrite A3, B3.
    - rewrite !row_length_outside; auto; lia. }
  assert (sa = sb) by (apply vector_ext; auto; congruence).
  assert (pa = pb) by (apply vector_ext; auto; congruence).
  congruence.
Qed.

(** ** The powers of an Operand are eventually constant *)

Lemma existsIn_first lo hi p :
  lo < hi -> existsIn lo hi p = p lo || existsIn (S lo) hi p.
Proof.
  intros H. unfold existsIn.
  replace (hi - lo) with (S (hi - S lo)) by lia. reflexivity.
Qed.

(** The three ways a window of a product is covered: all of it on the
    right, a proper split, all of it on the left. *)
Lemma concatSplit_exists l r a b :
  1 <= b ->
  existsIn 0 (b + 1) (concatSplit l r a b)
  = (containsEpsilon l && subCell r a b)
    || existsIn 1 b (fun k => subCell l a k && subCell r (a + k) (b - k))
    || (containsEpsilon r && subCell l a b).
Proof.
  intros Hb. replace (b + 1) with (S b) by lia.
  rewrite existsIn_snoc, existsIn_first by lia.
  assert (H0 : concatSplit l r a b 0 = containsEpsilon l && subCell r a b)
    by reflexivity.
  assert (Hb' : concatSplit l r a b b = containsEpsilon r && subCell l a b).
  { unfold concatSplit.
    destruct (Nat.eqb_spec b 0); [lia|].
    destruct (Nat.eqb_spec (b - b) 0); [reflexivity|lia]. }
  rewrite H0, Hb'.
  rewrite (@existsIn_ext 1 b (concatSplit l r a b)
             (fun k => subCell l a k && subCell r (a + k) (b - k))).
  - reflexivity.
  - intros k Hk. unfold concatSplit.
    destruct (Nat.eqb_spec k 0); [lia|].
    destruct (Nat.eqb_spec (b - k) 0); [lia|]. reflexivity.
Qed.

Lemma subCell_multiply_cases l r a b :
  subCell (operator_multiply l r) a b
  = (a <? wordLength l) && (1 <=? b) && (b <=? wordLength l - a)
    && ((containsEpsilon l && subCell r a b)
        || existsIn 1 b (fun k => subCell l a k && subCell r (a + k) (b - k))
        || (containsEpsilon r && subCell l a b)).
Proof.
  rewrite subCell_multiply.
  destruct (Nat.leb_spec 1 b) as [Hb|Hb].
  - now rewrite concatSplit_exists.
  - now rewrite !andb_false_r.
Qed.

Lemma absorb_split (g t e x x0 u : bool) :
  x = g && (t || u || (e && x0)) ->
  g && (t || u || (e && x)) = x.
Proof. intros ->. destruct g, t, e, x0, u; reflexivity. Qed.

Lemma absorb_suffix (g t e x x0 u : bool) :
  x = g && (t || (x0 && e) || u) ->
  g && (t || (x && e) || u) = x.
Proof. intros ->. destruct g, t, e, x0, u; reflexivity. Qed.

Lemma absorb_prefix (g x x0 v u : bool) :
  x = g && (x0 || v || u) ->
  g && (x || v || u) = x.
Proof. intros ->. destruct g, x0, v, u; reflexivity. Qed.

Lemma absorb_whole (x x0 c u : bool) :
  x = x0 || c || u -> x || c || u = x.
Proof. intros ->. destruct x0, c, u; reflexivity. Qed.

Section Powers.
Variable word : string.
Variable e : Operand.

Let L := String.length word.
Let P := power word e.

Lemma wellShaped_power n : wellShaped L (P n).
Proof.
  destruct n as [|n].
  - apply wellShaped_of_char.
  - assert (H : wordLength (P n) = L).
    { induction n as [|n IH]; [reflexivity|]. apply IH. }
    rewrite <- H. apply wellShaped_multiply.
Qed.

Lemma wordLength_power n : wordLength (P n) = L.
Proof. now destruct (wellShaped_power n). Qed.

Lemma containsEpsilon_power n :
  1 <= n -> containsEpsilon (P n) = containsEpsilon e.
Proof.
  induction n as [|[|n] IH]; intros Hn; [lia| |].
  - reflexivity.
  - change (P (S (S n))) with (operator_multiply (P (S n)) e).
    rewrite containsEpsilon_multiply, IH by lia.
    now destruct (containsEpsilon e).
Qed.

Lemma subCell_power_succ n a b :
  subCell (P (S n)) a b
  = (a <? L) && (1 <=? b) && (b <=? L - a)
    && ((containsEpsilon (P n) && subCell e a b)
        || existsIn 1 b (fun k => subCell (P n) a k && subCell e (a + k) (b - k))
        || (containsEpsilon e && subCell (P n) a b)).
Proof.
  change (P (S n)) with (operator_multiply (P n) e).
  now rewrite subCell_multiply_cases, wordLength_power.
Qed.

Lemma sufCell_power_succ n p :
  sufCell (P (S n)) p
  = (1 <=? p) && (p <? L)
    && (sufCell e p
        || (sufCell (P n) p && containsEpsilon e)
        || existsIn 1 p (fun q => subCell e q (p - q) && sufCell (P n) q)).
Proof.
  change (P (S n)) with (operator_multiply (P n) e).
  now rewrite sufCell_multiply, wordLength_power.
Qed.

Lemma prefCell_power_succ n s :
  prefCell (P (S n)) s
  = (1 <=? s) && (s <? L)
    && (prefCell (P n) s
        || (containsEpsilon (P n) && prefCell e s)
        || existsIn 1 s
             (fun r => subCell (P n) (L - s) (s - r) && prefCell e r)).
Proof.
  change (P (S n)) with (operator_multiply (P n) e).
  now rewrite prefCell_multiply, wordLength_power.
Qed.

Lemma containsWordAsSubstring_power_succ n :
  containsWordAsSubstring (P (S n))
  = containsWordAsSubstring (P n) || containsWordAsSubstring e
    || existsIn 1 L (fun p => sufCell (P n) p && prefCell e (L - p)).
Proof.
  change (P (S n)) with (operator_multiply (P n) e).
  now rewrite containsWordAsSubstring_multiply, wordLength_power.
Qed.

(** A window of length at most [m] is settled after [m + 1] factors. *)
Lemma subCell_power_stable m :
  forall n a b, m + 1 <= n -> b <= m ->
                subCell (P (S n)) a b = subCell (P n) a b.
Proof.
  induction m as [|m IH]; intros n a b Hn Hb.
  - assert (b = 0) by lia; subst b.
    destruct n as [|n]; [lia|].
    rewrite !subCell_power_succ. now rewrite !andb_false_r.
  - destruct (Nat.eq_dec b (S m)) as [->|Hne]; [|apply IH; lia].
    destruct n as [|n]; [lia|].
    rewrite (subCell_power_succ (S n)).
    rewrite (containsEpsilon_power (n := S n)) by lia.
    rewrite (@existsIn_ext 1 (S m)
               (fun k => subCell (P (S n)) a k && subCell e (a + k) (S m - k))
               (fun k => subCell (P n) a k && subCell e (a + k) (S m - k)))
      by (intros k Hk; rewrite IH by lia; reflexivity).
    apply (@absorb_split _ _ _ _ (subCell (P n) a (S m)) _).
    rewrite subCell_power_succ.
    rewrite (containsEpsilon_power (n := n)) by lia.
    reflexivity.
Qed.

Lemma subCell_power_constant n a b :
  L + 1 <= n -> subCell (P (S n)) a b = subCell (P n) a b.
Proof.
  intros Hn. destruct (le_lt_dec b L) as [Hb|Hb].
  - now apply (subCell_power_stable (m := L)).
  - destruct n as [|n]; [lia|].
    rewrite !subCell_power_succ.
    destruct (Nat.leb_spec b (L - a)); [lia|]. now rewrite !andb_false_r.
Qed.

(** A prefix of length at most [m] is settled after [m + 1] factors. *)
Lemma sufCell_power_stable m :
  forall n p, m + 1 <= n -> p <= m ->
              sufCell (P (S n)) p = sufCell (P n) p.
Proof.
  induction m as [|m IH]; intros n p Hn Hp.
  - assert (p = 0) by lia; subst p.
    destruct n as [|n]; [lia|].
    now rewrite !sufCell_power_succ.
  - destruct (Nat.eq_dec p (S m)) as [->|Hne]; [|apply IH; lia].
    destruct n as [|n]; [lia|].
    rewrite (sufCell_power_succ (S n)).
    rewrite (@existsIn_ext 1 (S m)
               (fun q => subCell e q (S m - q) && sufCell (P (S n)) q)
               (fun q => subCell e q (S m - q) && sufCell (P n) q))
      by (intros q Hq; rewrite IH by lia; reflexivity).
    apply (@absorb_suffix _ _ _ _ (sufCell (P n) (S m)) _).
    now rewrite sufCell_power_succ.
Qed.

Lemma sufCell_power_constant n p :
  L + 1 <= n -> sufCell (P (S n)) p = sufCell (P n) p.
Proof.
  intros Hn. destruct (le_lt_dec p L) as [Hp|Hp].
  - now apply (sufCell_power_stable (m := L)).
  - destruct n as [|n]; [lia|].
    rewrite !sufCell_power_succ.
    destruct (Nat.ltb_spec p L); [lia|]. now rewrite !andb_false_r.
Qed.

Lemma prefCell_power_constant n s :
  L + 2 <= n -> prefCell (P (S n)) s = prefCell (P n) s.
Proof.
  intros Hn. destruct n as [|n]; [lia|].
  rewrite (prefCell_power_succ (S n)).
  rewrite (containsEpsilon_power (n := S n)) by lia.
  rewrite (@existsIn_ext 1 s
             (fun r => subCell (P (S n)) (L - s) (s - r) && prefCell e r)
             (fun r => subCell (P n) (L - s) (s - r) && prefCell e r))
    by (intros r Hr; rewrite subCell_power_constant by lia; reflexivity).
  apply (@absorb_prefix _ _ (prefCell (P n) s) _ _).
  rewrite prefCell_power_succ.
  rewrite (containsEpsilon_power (n := n)) by lia.
  reflexivity.
Qed.

Lemma containsWordAsSubstring_power_constant n :
  L + 2 <= n ->
  containsWordAsSubstring (P (S n)) = containsWordAsSubstring (P n).
Proof.
  intros Hn. destruct n as [|n]; [lia|].
  rewrite (containsWordAsSubstring_power_succ (S n)).
  rewrite (@existsIn_ext 1 L
             (fun p => sufCell (P (S n)) p && prefCell e (L - p))
             (fun p => sufCell (P n) p && prefCell e (L - p)))
    by (intros p Hp; rewrite sufCell_power_constant by lia; reflexivity).
  apply (@absorb_whole _ (containsWordAsSubstring (P n)) _ _).
  now rewrite containsWordAsSubstring_power_succ.
Qed.

Lemma power_succ_constant n : L + 2 <= n -> P (S n) = P n.
Proof.
  intros Hn. apply (@Operand_ext L).
  - apply wellShaped_power.
  - apply wellShaped_power.
  - now rewrite !containsEpsilon_power by lia.
  - now apply containsWordAsSubstring_power_constant.
  - intros i j. apply subCell_power_constant; lia.
  - intros p. apply sufCell_power_constant; lia.
  - intros s. now apply prefCell_power_constant.
Qed.

Lemma power_constant n : L + 2 <= n -> P n = P (L + 2).
Proof.
  intros Hn. induction Hn as [|n Hn IH]; [reflexivity|].
  rewrite power_succ_constant; assumption.
Qed.

End Powers.

(** ** The bound of the star loop *)

Lemma wellShaped_sumOfPowers word e n :
  wellShaped (String.length word) (sumOfPowers word e n).
Proof.
  induction n as [|n IH].
  - apply wellShaped_of_char.
  - cbn [sumOfPowers]. now apply wellShaped_plus.
Qed.

(** Adding the same Operand twice adds nothing. *)
Lemma operator_plus_absorb L x q :
  wellShaped L x ->
  operator_plus (operator_plus x q) q = operator_plus x q.
Proof.
  intros Hx.
  assert (Hxq : wellShaped L (operator_plus x q)) by now apply wellShaped_plus.
  destruct (table_plus x q) as [Hsh Ht].
  destruct (suffix_plus x q) as [Hls Hs].
  destruct (prefix_plus x q) as [Hlp Hp].
  destruct (table_plus (operator_plus x q) q) as [_ Ht'].
  destruct (suffix_plus (operator_plus x q) q) as [_ Hs'].
  destruct (prefix_plus (operator_plus x q) q) as [_ Hp'].
  apply (@Operand_ext L); auto.
  - now apply wellShaped_plus.
  - rewrite !containsEpsilon_plus.
    now destruct (containsEpsilon x), (containsEpsilon q).
  - rewrite !containsWordAsSubstring_plus.
    now destruct (containsWordAsSubstring x), (containsWordAsSubstring q).
  - intros i j. rewrite Ht', (inShape2_sameShape _ _ Hsh), Ht.
    rewrite wordLength_plus.
    generalize ((i <? wordLength x) && (0 <=? j) && (j <? wordLength x - i + 1)
                && inShape2 (containsSubstring x) i j).
    intros g. now destruct g, (subCell x i j), (subCell q i j).
  - intros n. rewrite Hs', Hs. unfold inShape1. rewrite Hls, wordLength_plus.
    generalize ((1 <=? n) && (n <? wordLength x + 1)
                && (n <? length (containsSuffixEqualsToPrefix x))).
    intros g. now destruct g, (sufCell x n), (sufCell q n).
  - intros n. rewrite Hp', Hp. unfold inShape1. rewrite Hlp, wordLength_plus.
    generalize ((1 <=? n) && (n <? wordLength x + 1)
                && (n <? length (containsPrefixEqualsToSuffix x))).
    intros g. now destruct g, (prefCell x n), (prefCell q n).
Qed.

Lemma sumOfPowers_constant word e n :
  String.length word + 2 <= n ->
  sumOfPowers word e n = sumOfPowers word e (String.length word + 2).
Proof.
  intros Hn. induction Hn as [|n Hn IH]; [reflexivity|].
  cbn [sumOfPowers]. rewrite IH.
  change (operator_multiply (power word e n) e) with (power word e (S n)).
  rewrite (power_constant word e (n := S n)) by lia.
  replace (String.length word + 2) with (S (String.length word + 1)) by lia.
  cbn [sumOfPowers].
  change (operator_multiply (power word e (String.length word + 1)) e)
    with (power word e (S (String.length word + 1))).
  apply (operator_plus_absorb (L := String.length word)).
  apply wellShaped_sumOfPowers.
Qed.

(** C6. The bound [2 * L + 2] of the Kleene-star loop is sufficient: any
    number of further turns [power <- power . e;
    accumulated <- accumulated + power] leaves the accumulated Operand as
    it is after [2 * L + 2] turns, in every field ([containsSubstring],
    [containsEpsilon], [containsWordAsSubstring],
    [containsSuffixEqualsToPrefix], [containsPrefixEqualsToSuffix]). *)
Theorem kleene_star_bound_sufficient word e further :
  snd (kleeneStarLoop word e (2 * String.length word + 2 + further))
  = snd (kleeneStarLoop word e (2 * String.length word + 2)).
Proof.
  rewrite !kleeneStarLoop_powers. cbn [snd].
  rewrite (sumOfPowers_constant word e (n := 2 * String.length word + 2 + further))
    by lia.
  rewrite (sumOfPowers_constant word e (n := 2 * String.length word + 2))
    by lia.
  reflexivity.
Qed.

(** ** The epsilon leaf and concatenation *)

Lemma existsIn_false lo hi p :
  (forall k, lo <= k < hi -> p k = false) -> existsIn lo hi p = false.
Proof.
  intros H. destruct (existsIn lo hi p) eqn:E; auto.
  apply existsIn_true in E. destruct E as [k [Hk Hp]].
  rewrite H in Hp by assumption. discriminate.
Qed.

(** Simplifies the constants out of a boolean expression. *)
Ltac bsimp :=
  repeat (cbn [andb orb];
          rewrite ?andb_false_r, ?orb_false_r, ?andb_true_r, ?orb_true_r);
  try reflexivity.

Section EpsilonLeaf.
Variable W : string.

Let E := Operand_of_char EPSILON W.

Lemma epsilon_leaf_fields :
  containsEpsilon E = true
  /\ containsWordAsSubstring E = false
  /\ wordLength E = String.length W
  /\ (forall i j, subCell E i j = false)
  /\ (forall n, sufCell E n = false)
  /\ (forall n, prefCell E n = false).
Proof.
  split; [|split; [|split; [|split; [|split]]]]; try reflexivity.
  - intros i j. apply get2_zeros.
  - intros n. apply get1_zeros.
  - intros n. apply get1_zeros.
Qed.

Lemma multiply_epsilon_right_cells A :
  containsEpsilon (operator_multiply A E) = containsEpsilon A
  /\ containsWordAsSubstring (operator_multiply A E) = containsWordAsSubstring A
  /\ (forall i j,
        subCell (operator_multiply A E) i j
        = (i <? wordLength A) && (1 <=? j) && (j <=? wordLength A - i)
          && subCell A i j)
  /\ (forall n,
        sufCell (operator_multiply A E) n
        = (1 <=? n) && (n <? wordLength A) && sufCell A n)
  /\ (forall n,
        prefCell (operator_multiply A E) n
        = (1 <=? n) && (n <? wordLength A) && prefCell A n).
Proof.
  destruct epsilon_leaf_fields as (He & Hw & Hl & Hsub & Hsuf & Hpref).
  split; [|split; [|split; [|split]]].
  - rewrite containsEpsilon_multiply, He. bsimp.
  - rewrite containsWordAsSubstring_multiply, Hw, existsIn_false.
    + bsimp.
    + intros k _. rewrite Hpref. apply andb_false_r.
  - intros i j. rewrite subCell_multiply_cases, He, Hsub, existsIn_false.
    + bsimp.
    + intros k _. rewrite Hsub. apply andb_false_r.
  - intros n. rewrite sufCell_multiply. unfold sufValue.
    rewrite Hsuf, He, existsIn_false.
    + bsimp.
    + intros k _. now rewrite Hsub.
  - intros n. rewrite prefCell_multiply. unfold prefValue.
    rewrite Hpref, existsIn_false.
    + bsimp.
    + intros k _. rewrite Hpref. apply andb_false_r.
Qed.

Lemma multiply_epsilon_left_cells A :
  containsEpsilon (operator_multiply E A) = containsEpsilon A
  /\ containsWordAsSubstring (operator_multiply E A) = containsWordAsSubstring A
  /\ (forall i j,
        subCell (operator_multiply E A) i j
        = (i <? String.length W) && (1 <=? j) && (j <=? String.length W - i)
          && subCell A i j)
  /\ (forall n,
        sufCell (operator_multiply E A) n
        = (1 <=? n) && (n <? String.length W) && sufCell A n)
  /\ (forall n,
        prefCell (operator_multiply E A) n
        = (1 <=? n) && (n <? String.length W) && prefCell A n).
Proof.
  destruct epsilon_leaf_fields as (He & Hw & Hl & Hsub & Hsuf & Hpref).
  split; [|split; [|split; [|split]]].
  - rewrite containsEpsilon_multiply, He. reflexivity.
  - rewrite containsWordAsSubstring_multiply, Hw, existsIn_false.
    + bsimp.
    + intros k _. now rewrite Hsuf.
  - intros i j. rewrite subCell_multiply_cases, He, Hsub, Hl, existsIn_false.
    + bsimp.
    + intros k _. now rewrite Hsub.
  - intros n. rewrite sufCell_multiply, Hl. unfold sufValue.
    rewrite Hsuf, existsIn_false.
    + bsimp.
    + intros k _. rewrite Hsuf. apply andb_false_r.
  - intros n. rewrite prefCell_multiply, Hl. unfold prefValue.
    rewrite Hpref, He, existsIn_false.
    + bsimp.
    + intros k _. now rewrite Hsub.
Qed.

End EpsilonLeaf.

(** The cells of a leaf. *)
Lemma subCell_of_char c W i j :
  Ascii.eqb c EPSILON = false ->
  subCell (Operand_of_char c W) i j
  = (i <? String.length W) && (j =? 1) && Ascii.eqb c (charAt W i).
Proof.
  intros Hc. unfold subCell, Operand_of_char. rewrite Hc.
  cbn [containsSubstring].
  rewrite (@forRange_ext _ 0 (String.length W) _
             (fun i t =>
                forRange 1 2
                  (fun j t =>
                     set2 t i j (get2 t i j || Ascii.eqb c (charAt W i))) t)).
  - destruct (orFill2 (String.length W) (fun _ => 1) (fun _ => 2)
                (fun i _ => Ascii.eqb c (charAt W i))
                (repeat (repeat false (String.length W + 1))
                   (String.length W + 1))) as [_ H].
    rewrite H, get2_zeros, inShape2_zeros. natb.
  - intros k st Hk. unfold forRange; simpl.
    destruct (Ascii.eqb c (charAt W k)).
    + now rewrite orb_true_r.
    + now rewrite orb_false_r, set2_same.
Qed.

Lemma boundary_of_char c W n :
  Ascii.eqb c EPSILON = false ->
  sufCell (Operand_of_char c W) n
  = (n =? 1) && (1 <=? String.length W) && Ascii.eqb (charAt W 0) c
  /\ prefCell (Operand_of_char c W) n
     = (n =? 1) && (1 <=? String.length W) && Ascii.eqb (back W) c.
Proof.
  intros Hc. unfold sufCell, prefCell, Operand_of_char. rewrite Hc.
  cbn [containsSuffixEqualsToPrefix containsPrefixEqualsToSuffix].
  split.
  - destruct (Ascii.eqb (charAt W 0) c).
    + rewrite get1_set1, inShape1_zeros, get1_zeros. natb.
    + rewrite get1_zeros. now rewrite andb_false_r.
  - destruct (Ascii.eqb (back W) c).
    + rewrite get1_set1, inShape1_zeros, get1_zeros. natb.
    + rewrite get1_zeros. now rewrite andb_false_r.
Qed.

Lemma zeroOutside_of_length L : zeroOutside L (Operand_of_length L).
Proof.
  split.
  - intros i j _. apply get2_zeros.
  - intros n _. split; apply get1_zeros.
Qed.

Lemma zeroOutside_of_char c W :
  2 <= String.length W -> zeroOutside (String.length W) (Operand_of_char c W).
Proof.
  intros HL. destruct (Ascii.eqb c EPSILON) eqn:Hc.
  - destruct (epsilon_leaf_fields W) as (_ & _ & _ & Hsub & Hsuf & Hpref).
    apply Ascii.eqb_eq in Hc; subst c.
    split; intros; auto.
  - split.
    + intros i j Hg. rewrite subCell_of_char by assumption.
      revert Hg. natb.
    + intros n Hg. destruct (@boundary_of_char c W n Hc) as [-> ->].
      revert Hg. natb.
Qed.

Lemma zeroOutside_multiply l r :
  zeroOutside (wordLength l) (operator_multiply l r).
Proof.
  split.
  - intros i j Hg. now rewrite subCell_multiply, Hg.
  - intros n Hg. now rewrite sufCell_multiply, prefCell_multiply, Hg.
Qed.

Lemma zeroOutside_plus L a b :
  zeroOutside L a -> zeroOutside L b -> zeroOutside L (operator_plus a b).
Proof.
  intros [Ha1 Ha2] [Hb1 Hb2].
  destruct (table_plus a b) as [_ Ht].
  destruct (suffix_plus a b) as [_ Hs].
  destruct (prefix_plus a b) as [_ Hp].
  split.
  - intros i j Hg. rewrite Ht, Ha1, Hb1 by assumption.
    now rewrite andb_false_r.
  - intros n Hg. rewrite Hs, Hp.
    destruct (Ha2 n Hg) as [-> ->], (Hb2 n Hg) as [-> ->].
    now rewrite !andb_false_r.
Qed.

Lemma builtFor_zeroOutside W o :
  2 <= String.length W -> builtFor W o -> zeroOutside (String.length W) o.
Proof.
  intros HL. induction 1 as [c| |a b Ha IHa Hb IHb|a b Ha IHa Hb IHb].
  - now apply zeroOutside_of_char.
  - apply zeroOutside_of_length.
  - now apply zeroOutside_plus.
  - rewrite <- (builtFor_wordLength Ha). apply zeroOutside_multiply.
Qed.

Lemma guarded_cell (g x : bool) : (g = false -> x = false) -> g && x = x.
Proof. destruct g; auto. intros H. now rewrite H. Qed.

(** C9 as the source has it.  For every Operand [A] built for a reference
    word [W] of length [L], [A . epsilon] and [epsilon . A] have the same
    [containsEpsilon] and [containsWordAsSubstring] as [A] and the same
    cells of [containsSubstring], [containsSuffixEqualsToPrefix] and
    [containsPrefixEqualsToSuffix] on the index ranges of the data model;
    when [L >= 2] the two products are equal to [A] as whole values. *)
Theorem multiply_epsilon_identity W A :
  builtFor W A ->
  let E := Operand_of_char EPSILON W in
  let L := String.length W in
  (agreeOnDataModel L (operator_multiply A E) A
   /\ agreeOnDataModel L (operator_multiply E A) A)
  /\ (2 <= L -> operator_multiply A E = A /\ operator_multiply E A = A).
Proof.
  intros HA E L.
  pose proof (builtFor_wordLength HA) as HwA.
  pose proof (builtFor_wellShaped HA) as HsA.
  destruct (multiply_epsilon_right_cells W A) as (R1 & R2 & R3 & R4 & R5).
  destruct (multiply_epsilon_left_cells W A) as (L1 & L2 & L3 & L4 & L5).
  fold E in R1, R2, R3, R4, R5, L1, L2, L3, L4, L5.
  rewrite HwA in R3, R4, R5. fold L in R3, R4, R5, L3, L4, L5.
  assert (Hsub : forall i len, i < L -> 1 <= len <= L - i ->
                               (i <? L) && (1 <=? len) && (len <=? L - i) = true).
  { intros i len Hi Hlen.
    destruct (Nat.ltb_spec i L), (Nat.leb_spec 1 len),
      (Nat.leb_spec len (L - i)); auto; lia. }
  assert (Hvec : forall n, 1 <= n < L -> (1 <=? n) && (n <? L) = true).
  { intros n Hn. destruct (Nat.leb_spec 1 n), (Nat.ltb_spec n L); auto; lia. }
  split; [split|].
  - split; [assumption|]. split; [assumption|]. split.
    + intros i len Hi Hlen. now rewrite R3, Hsub.
    + intros n Hn. now rewrite R4, R5, Hvec.
  - split; [assumption|]. split; [assumption|]. split.
    + intros i len Hi Hlen. now rewrite L3, Hsub.
    + intros n Hn. now rewrite L4, L5, Hvec.
  - intros HL. destruct (builtFor_zeroOutside HL HA) as [Z1 Z2].
    split; apply (@Operand_ext L); auto.
    + unfold L. rewrite <- HwA. apply wellShaped_multiply.
    + intros i j. rewrite R3. apply guarded_cell. apply Z1.
    + intros n. rewrite R4. apply guarded_cell. apply Z2.
    + intros n. rewrite R5. apply guarded_cell. apply Z2.
    + apply (wellShaped_multiply E A).
    + intros i j. rewrite L3. apply guarded_cell. apply Z1.
    + intros n. rewrite L4. apply guarded_cell. apply Z2.
    + intros n. rewrite L5. apply guarded_cell. apply Z2.
Qed.

Lemma multiply_epsilon_identity_witness :
  let A := operator_plus (Operand_of_char "a" "ab") (Operand_of_char "b" "ab") in
  let E := Operand_of_char EPSILON "ab" in
  (agreeOnDataModel 2 (operator_multiply A E) A
   /\ agreeOnDataModel 2 (operator_multiply E A) A)
  /\ (2 <= 2 -> operator_multiply A E = A /\ operator_multiply E A = A).
Proof.
  intros A E.
  apply (@multiply_epsilon_identity "ab" A).
  repeat constructor.
Defined.

(** C9 as the claim has it fails on the vectors themselves: the leaf of
    [a] for the word [a] has slot [1] of [containsSuffixEqualsToPrefix]
    set, and the product with the epsilon leaf, which fills the slots
    [1 <= p < L] only, leaves it clear. *)
Lemma multiply_epsilon_identity_counterexample :
  builtFor "a" (Operand_of_char "a" "a")
  /\ containsSuffixEqualsToPrefix (Operand_of_char "a" "a") = [false; true]
  /\ containsSuffixEqualsToPrefix
       (operator_multiply (Operand_of_char "a" "a") (Operand_of_char EPSILON "a"))
     = [false; false]
  /\ operator_multiply (Operand_of_char "a" "a") (Operand_of_char EPSILON "a")
     <> Operand_of_char "a" "a".
Proof.
  split; [constructor|]. split; [reflexivity|]. split; [reflexivity|].
  intros H.
  apply (f_equal containsSuffixEqualsToPrefix) in H.
  vm_compute in H. discriminate.
Qed.

(** ** Words and tokens *)

Lemma get_lt (s : string) i :
  i < String.length s -> exists c, String.get i s = Some c.
Proof.
  revert i; induction s as [|a s IH]; intros i Hi; simpl in Hi; [lia|].
  destruct i as [|i]; simpl.
  - now exists a.
  - apply IH; lia.
Qed.

Lemma get_Some_lt (s : string) i c :
  String.get i s = Some c -> i < String.length s.
Proof.
  revert i; induction s as [|a s IH]; intros i H; simpl in *; [discriminate|].
  destruct i as [|i]; [lia|]. apply IH in H. lia.
Qed.

Lemma substring_one (s : string) i c :
  String.get i s = Some c -> substring i 1 s = string1 c.
Proof.
  revert i; induction s as [|a s IH]; intros i H; simpl in H; [discriminate|].
  destruct i as [|i]; simpl.
  - injection H as ->. now destruct s.
  - now apply IH.
Qed.

Lemma inABC_accepted c :
  inABC c -> Ascii.eqb c EPSILON || negb (isSymbolOfAlphabet c) = false.
Proof. intros [-> | [-> | ->]]; reflexivity. Qed.

Lemma not_inABC_rejected c :
  ~ inABC c -> Ascii.eqb c EPSILON || negb (isSymbolOfAlphabet c) = true.
Proof.
  intros H. unfold isSymbolOfAlphabet.
  destruct (Ascii.eqb_spec c EPSILON) as [|_]; [reflexivity|].
  destruct (Ascii.eqb_spec c "a") as [->|_]; [exfalso; apply H; left; auto|].
  destruct (Ascii.eqb_spec c "b") as [->|_];
    [exfalso; apply H; right; left; auto|].
  destruct (Ascii.eqb_spec c "c") as [->|_];
    [exfalso; apply H; right; right; auto|].
  reflexivity.
Qed.

Lemma checkSymbols_ok word :
  (forall i c, String.get i word = Some c -> inABC c) ->
  checkSymbols word = Ok tt.
Proof.
  induction word as [|a w IH]; intros H; simpl; auto.
  rewrite inABC_accepted by (apply (H 0); reflexivity).
  apply IH. intros i c Hi. apply (H (S i)). exact Hi.
Qed.

Lemma checkWord_ok word : wordOverABC word -> checkWord word = Ok tt.
Proof.
  intros [Hne H]. unfold checkWord.
  destruct word as [|a w]; [congruence|].
  cbn [String.length Nat.eqb]. now apply checkSymbols_ok.
Qed.

Lemma checkWord_rejects_first c rest :
  ~ inABC c ->
  checkWord (String c rest)
  = Throw (ParseError ("Unknown symbol in word: " ++ string1 c)).
Proof.
  intros H. unfold checkWord. cbn [String.length Nat.eqb checkSymbols].
  now rewrite not_inABC_rejected.
Qed.

Lemma substring_wordOverABC word startPosition length :
  wordOverABC word -> isTrial word startPosition length ->
  wordOverABC (substring startPosition length word).
Proof.
  intros [_ H] [Hs Hl]. split.
  - intros E.
    destruct (get_lt word Hs) as [c Hc].
    assert (G : String.get 0 (substring startPosition length word) = Some c).
    { rewrite substring_correct1 by lia. exact Hc. }
    rewrite E in G. discriminate.
  - intros i c Hi.
    destruct (le_lt_dec length i) as [Hge|Hlt].
    + rewrite substring_correct2 in Hi by assumption. discriminate.
    + rewrite substring_correct1 in Hi by assumption. eapply H; eassumption.
Qed.

(** ** The evaluator on well-formed input *)

Lemma evaluateTokens_app s1 s2 word stack :
  evaluateTokens (s1 ++ s2) word stack
  = bind (evaluateTokens s1 word stack) (fun st => evaluateTokens s2 word st).
Proof.
  revert stack; induction s1 as [|t s1 IH]; intros stack; simpl; auto.
  destruct (isOperator t).
  - destruct (operatorCode t) as [op|err]; simpl; auto.
    destruct (calculateOperator word op stack) as [st|err]; simpl; auto.
  - destruct (isSymbolOfAlphabet t); auto.
Qed.

Lemma symbol_not_operator c :
  isSymbolOfAlphabet c = true -> isOperator c = false.
Proof.
  unfold isSymbolOfAlphabet. rewrite !orb_true_iff, !Ascii.eqb_eq.
  intros [[[-> | ->] | ->] | ->]; reflexivity.
Qed.

(** A well-formed postfix expression pushes exactly one Operand, whatever
    the word and the stack below. *)
Lemma Postfix_evaluates e :
  Postfix e ->
  forall word stack,
  exists v, evaluateTokens e word stack = Ok (v :: stack).
Proof.
  induction 1 as [c Hc|l r Hl IHl Hr IHr|l r Hl IHl Hr IHr|e He IHe];
    intros word stack.
  - exists (Operand_of_char c word). simpl.
    now rewrite (@symbol_not_operator c Hc), Hc.
  - destruct (IHl word stack) as [vl El].
    destruct (IHr word (vl :: stack)) as [vr Er].
    exists (operator_plus vl vr).
    rewrite evaluateTokens_app, El. cbn [bind].
    rewrite evaluateTokens_app, Er. reflexivity.
  - destruct (IHl word stack) as [vl El].
    destruct (IHr word (vl :: stack)) as [vr Er].
    exists (operator_multiply vl vr).
    rewrite evaluateTokens_app, El. cbn [bind].
    rewrite evaluateTokens_app, Er. reflexivity.
  - destruct (IHe word stack) as [v Ev].
    eexists.
    rewrite evaluateTokens_app, Ev. reflexivity.
Qed.

Lemma calculateValueOfExpression_ok e word :
  Postfix e -> wordOverABC word ->
  exists result,
    calculateValueOfExpression {| operands := []; expression := e |} word
    = Ok result.
Proof.
  intros He Hw. unfold calculateValueOfExpression.
  rewrite (checkWord_ok Hw). cbn [bind expression operands].
  destruct (Postfix_evaluates He word []) as [v Ev].
  rewrite Ev. cbn [bind]. now exists v.
Qed.


Lemma builtFor_power W e n : builtFor W e -> builtFor W (power W e n).
Proof.
  intros He. induction n as [|n IH]; simpl.
  - constructor.
  - now constructor.
Qed.

Lemma builtFor_sumOfPowers W e n :
  builtFor W e -> builtFor W (sumOfPowers W e n).
Proof.
  intros He. induction n as [|n IH].
  - constructor.
  - cbn [sumOfPowers]. constructor; auto.
    apply (builtFor_power (S n) He).
Qed.

Lemma calculateOperator_builtFor W op stack stack' :
  Forall (builtFor W) stack ->
  calculateOperator W op stack = Ok stack' ->
  Forall (builtFor W) stack'.
Proof.
  intros Hs. destruct op; simpl.
  - destruct stack as [|r [|l rest]]; try discriminate.
    intros H; injection H as <-.
    inversion Hs as [|? ? Hr Hs']; subst. inversion Hs' as [|? ? Hl Hrest]; subst.
    constructor; auto. now constructor.
  - destruct stack as [|r [|l rest]]; try discriminate.
    intros H; injection H as <-.
    inversion Hs as [|? ? Hr Hs']; subst. inversion Hs' as [|? ? Hl Hrest]; subst.
    constructor; auto. now constructor.
  - destruct stack as [|x rest]; try discriminate.
    intros H; injection H as <-.
    inversion Hs as [|? ? Hx Hrest]; subst.
    constructor; auto.
    rewrite kleeneStarLoop_powers. now apply builtFor_sumOfPowers.
Qed.

Lemma evaluateTokens_builtFor tokens W :
  forall stack stack',
    Forall (builtFor W) stack ->
    evaluateTokens tokens W stack = Ok stack' ->
    Forall (builtFor W) stack'.
Proof.
  induction tokens as [|t tokens IH]; intros stack stack' Hs; simpl.
  - intros H; injection H as <-; assumption.
  - destruct (isOperator t).
    + destruct (operatorCode t) as [op|err]; simpl; [|discriminate].
      destruct (calculateOperator W op stack) as [st|err] eqn:Eop; simpl;
        [|discriminate].
      apply IH. eapply calculateOperator_builtFor; eassumption.
    + destruct (isSymbolOfAlphabet t); [|discriminate].
      apply IH. constructor; auto. constructor.
Qed.



(** ** The outer search *)

Lemma forRangeM_inv (S : Type) (Inv : nat -> S -> Prop) lo hi
      (body : nat -> S -> Result S) s :
  Inv lo s ->
  (forall i st, lo <= i < hi -> Inv i st ->
                exists st', body i st = Ok st' /\ Inv (Datatypes.S i) st') ->
  exists st', forRangeM lo hi body s = Ok st' /\ Inv (Nat.max lo hi) st'.
Proof.
  unfold forRangeM.
  destruct (le_lt_dec hi lo) as [Hle|Hlt].
  - intros H0 _. replace (hi - lo) with 0 by lia.
    replace (Nat.max lo hi) with lo by lia. now exists s.
  - replace (Nat.max lo hi) with (lo + (hi - lo)) by lia.
    assert (Hhi : hi = lo + (hi - lo)) by lia.
    revert Hhi. generalize (hi - lo) as n. clear Hlt.
    intros n; revert lo s; induction n as [|n IH]; intros lo s Hhi H0 Hstep.
    + simpl. rewrite Nat.add_0_r. now exists s.
    + simpl. destruct (Hstep lo s) as [st' [E HI]]; [lia|assumption|].
      rewrite E.
      replace (lo + Datatypes.S n) with (Datatypes.S lo + n) by lia.
      apply IH; [lia|assumption|].
      intros i st Hi. apply Hstep; lia.
Qed.

Lemma foldM_throws (S : Type) (body : nat -> S -> Result S) l i :
  In i l ->
  (forall s, exists e, body i s = Throw e) ->
  forall s, exists e, foldM body l s = Throw e.
Proof.
  intros Hin Hthrow. induction l as [|j l IH]; intros s; [contradiction|].
  simpl. destruct Hin as [->|Hin].
  - destruct (Hthrow s) as [e ->]. now exists e.
  - destruct (body j s) as [s'|e]; [now apply IH|now exists e].
Qed.

Lemma snd_foldT (S : Type) (bodyT : nat -> S -> Traced S)
      (bodyM : nat -> S -> Result S) l :
  (forall i s, snd (bodyT i s) = bodyM i s) ->
  forall s, snd (foldT bodyT l s) = foldM bodyM l s.
Proof.
  intros H. induction l as [|i l IH]; intros s; simpl; auto.
  rewrite <- H. destruct (bodyT i s) as [done [s'|e]]; simpl; auto.
Qed.

(** The traced search returns or throws as [solve] does. *)
Lemma snd_solveTraced this : snd (solveTraced this) = solve this.
Proof.
  unfold solveTraced, solve, forRangeT, forRangeM.
  apply snd_foldT. intros startPosition answer.
  apply snd_foldT. intros length answer'.
  unfold solveTrialTraced.
  now destruct (solveTrial this startPosition length answer').
Qed.

Lemma solveTrial_matches this startPosition length answer result :
  calculateValueOfExpression (Solver_expression this)
    (substring startPosition length (Solver_word this)) = Ok result ->
  solveTrial this startPosition length answer
  = Ok (if containsWordAsSubstring result
        then Nat.max answer length else answer)
  /\ (matchesWholeW (Solver_expression this)
        (substring startPosition length (Solver_word this))
      <-> containsWordAsSubstring result = true).
Proof.
  intros E. unfold solveTrial, matchesWholeW. rewrite E. split; auto.
  split.
  - intros [r [Hr Hm]]. now injection Hr as <-.
  - intros Hm. now exists result.
Qed.

(** C1. For every well-formed postfix expression over [a], [b], [c], the
    epsilon symbol and [+], [.], [*], and every non-empty word over [a],
    [b], [c], [solve] returns the greatest length of a contiguous
    substring [W] of the word for which the evaluation of the expression
    with [W] as reference word yields [containsWordAsSubstring = true], and
    [0] when no substring does. *)
Theorem solve_returns_longest_match expressionTokens word :
  Postfix expressionTokens -> wordOverABC word ->
  exists answer,
    solve (solverFor expressionTokens word) = Ok answer
    /\ isLongestMatch
         {| operands := []; expression := expressionTokens |} word answer.
Proof.
  intros He Hw.
  set (this := solverFor expressionTokens word).
  set (ex := {| operands := []; expression := expressionTokens |}).
  set (n := String.length word).
  pose (Seen := fun (i j : nat) (answer : nat) =>
    (forall startPosition length,
        isTrial word startPosition length ->
        startPosition < i \/ (startPosition = i /\ length < j) ->
        matchesWholeW ex (substring startPosition length word) ->
        length <= answer)
    /\ (answer = 0
        \/ exists startPosition,
             isTrial word startPosition answer
             /\ matchesWholeW ex (substring startPosition answer word))).
  assert (Hinner : forall i answer, i < n -> Seen i 1 answer ->
            exists answer',
              forRangeM 1 (n - i + 1)
                (fun length answer => solveTrial this i length answer) answer
              = Ok answer'
              /\ Seen (S i) 1 answer').
  { intros i answer Hi H0.
    destruct (@forRangeM_inv nat (fun j a => Seen i j a) 1 (n - i + 1)
                (fun length answer => solveTrial this i length answer) answer H0)
      as [answer' [E HI]].
    - intros j a Hj [Hup Hwit].
      assert (Htrial : isTrial word i j) by (unfold isTrial; fold n; lia).
      destruct (@calculateValueOfExpression_ok expressionTokens
                  (substring i j word) He
                  (substring_wordOverABC Hw Htrial)) as [r Er].
      destruct (@solveTrial_matches this i j a r Er) as [Es Hm].
      cbn [this solverFor Solver_expression Solver_word] in Hm. fold ex in Hm.
      eexists; split; [exact Es|].
      destruct (containsWordAsSubstring r) eqn:Hr.
      + split.
        * intros sp len Ht Hpos Hmatch.
          destruct (Nat.eq_dec sp i) as [->|Hne].
          -- destruct (Nat.eq_dec len j) as [->|Hnj]; [lia|].
             assert (len <= a) by (apply (Hup i len); auto; lia). lia.
          -- assert (len <= a) by (apply (Hup sp len); auto; lia). lia.
        * right. destruct (Nat.max_spec a j) as [[Hlt ->]|[Hge ->]].
          -- exists i. split; auto. now apply Hm.
          -- destruct Hwit as [->|Hwit]; [|assumption].
             assert (j = 0) by lia. unfold isTrial in Htrial. lia.
      + split; [|assumption].
        intros sp len Ht Hpos Hmatch.
        destruct (Nat.eq_dec sp i) as [->|Hne].
        * destruct (Nat.eq_dec len j) as [->|Hnj].
          -- apply Hm in Hmatch. discriminate.
          -- apply (Hup i len); auto; lia.
        * apply (Hup sp len); auto; lia.
    - exists answer'. split; auto.
      replace (Nat.max 1 (n - i + 1)) with (n - i + 1) in HI by lia.
      destruct HI as [Hup Hwit]. split; auto.
      intros sp len Ht Hpos Hmatch.
      apply (Hup sp len); auto.
      unfold isTrial in Ht. fold n in Ht. lia. }
  destruct (@forRangeM_inv nat (fun i a => Seen i 1 a) 0 n
              (fun startPosition answer =>
                 forRangeM 1 (n - startPosition + 1)
                   (fun length answer =>
                      solveTrial this startPosition length answer) answer)
              0) as [answer [E [Hup Hwit]]].
  - split; [|now left]. intros sp len _ Hpos. lia.
  - intros i a Hi HI. apply Hinner; [lia|assumption].
  - exists answer. split; [exact E|].
    split; auto.
    intros sp len Ht Hmatch. apply (Hup sp len); auto.
    unfold isTrial in Ht. fold n in Ht. lia.
Qed.

Lemma solve_returns_longest_match_witness :
  exists answer,
    solve (solverFor "ab+*c." "abbacab") = Ok answer
    /\ isLongestMatch
         {| operands := []; expression := "ab+*c." |} "abbacab" answer.
Proof.
  apply (@solve_returns_longest_match "ab+*c." "abbacab").
  - apply (Postfix_multiply
             (Postfix_star
                (Postfix_plus (Postfix_symbol "a" eq_refl)
                   (Postfix_symbol "b" eq_refl)))
             (Postfix_symbol "c" eq_refl)).
  - split; [discriminate|].
    intros i c H.
    do 7 (destruct i as [|i];
          [injection H as <-; unfold inABC; auto|]).
    discriminate.
Defined.

(** ** Malformed words *)

Lemma calculateValueOfExpression_rejects_first e c rest :
  ~ inABC c ->
  calculateValueOfExpression e (String c rest)
  = Throw (ParseError ("Unknown symbol in word: " ++ string1 c)).
Proof.
  intros H. unfold calculateValueOfExpression.
  now rewrite checkWord_rejects_first.
Qed.

Lemma solveTrial_rejects this startPosition c answer :
  String.get startPosition (Solver_word this) = Some c ->
  ~ inABC c ->
  solveTrial this startPosition 1 answer
  = Throw (ParseError ("Unknown symbol in word: " ++ string1 c)).
Proof.
  intros Hget Hc. unfold solveTrial.
  rewrite (substring_one _ _ Hget). unfold string1.
  now rewrite calculateValueOfExpression_rejects_first.
Qed.

Lemma foldT_head (S : Type) (body : nat -> S -> Traced S) i l s x done r0 :
  body i s = (x :: done, r0) ->
  exists trace r, foldT body (i :: l) s = (x :: trace, r).
Proof.
  intros E. cbn [foldT]. rewrite E. destruct r0 as [s'|e].
  - now exists (done ++ fst (foldT body l s')), (snd (foldT body l s')).
  - now exists done, (Throw e).
Qed.

Lemma solveTrialTraced_first e word c answer :
  Postfix e -> String.get 0 word = Some c -> inABC c ->
  exists answer',
    solveTrialTraced (solverFor e word) 0 1 answer
    = ([string1 c], Ok answer').
Proof.
  intros He Hget Hc. unfold solveTrialTraced, solveTrial.
  cbn [solverFor Solver_word Solver_expression].
  rewrite (substring_one _ _ Hget).
  assert (Hw : wordOverABC (string1 c)).
  { split; [discriminate|]. intros [|i] c' Hi.
    - injection Hi as <-. assumption.
    - discriminate. }
  destruct (calculateValueOfExpression_ok He Hw) as [r ->].
  cbn [bind]. eexists. reflexivity.
Qed.

(** C7 as the source has it.  For every word with a character outside
    [a], [b], [c] (the epsilon symbol included) the search aborts with a
    malformed-input error.  The word is checked inside each trial, on the
    candidate substring: when the first character of the word is the
    offending one the search throws in its first trial, before any
    evaluation has returned; when the first character is in the alphabet
    and the expression is well formed, the trial of that character is
    evaluated before the search throws. *)
Theorem solve_rejects_symbol_outside_abc expressionTokens word :
  hasSymbolOutsideABC word ->
  (exists err, solve (solverFor expressionTokens word) = Throw err)
  /\ (forall c, String.get 0 word = Some c -> ~ inABC c ->
        solveTraced (solverFor expressionTokens word)
        = ([], Throw (ParseError ("Unknown symbol in word: " ++ string1 c))))
  /\ (forall c, String.get 0 word = Some c -> inABC c ->
        Postfix expressionTokens ->
        exists trace err,
          solveTraced (solverFor expressionTokens word)
          = (string1 c :: trace, Throw err)).
Proof.
  intros [i [c [Hget Hc]]].
  set (this := solverFor expressionTokens word).
  assert (Hthrow : exists err, solve this = Throw err).
  { unfold solve, forRangeM.
    pose proof (get_Some_lt _ _ Hget) as Hi.
    apply (@foldM_throws nat _ _ i).
    - apply in_seq. cbn [this solverFor Solver_word]. lia.
    - intros answer. apply (@foldM_throws nat _ _ 1).
      + apply in_seq. cbn [this solverFor Solver_word]. lia.
      + intros answer'. eexists. now apply (@solveTrial_rejects this i c). }
  subst this. split; [assumption|]. split.
  - intros c0 Hget0 Hc0.
    pose proof (get_Some_lt _ _ Hget0) as H0.
    unfold solveTraced, forRangeT. cbn [solverFor Solver_word].
    destruct (String.length word) as [|n] eqn:En; [lia|].
    replace (S n - 0) with (S n) by lia. cbn [seq foldT].
    replace (S n - 0 + 1 - 1) with (S n) by lia. cbn [seq foldT].
    unfold solveTrialTraced.
    now rewrite (@solveTrial_rejects (solverFor expressionTokens word)
                   0 c0 0 Hget0 Hc0).
  - intros c0 Hget0 Hc0 He.
    pose proof (get_Some_lt _ _ Hget0) as H0.
    destruct Hthrow as [err Herr]. rewrite <- snd_solveTraced in Herr.
    revert Herr. unfold solveTraced, forRangeT.
    cbn [solverFor Solver_word].
    destruct (String.length word) as [|n] eqn:En; [lia|].
    replace (S n - 0) with (S n) by lia. cbn [seq].
    destruct (@solveTrialTraced_first expressionTokens word c0 0 He Hget0 Hc0)
      as [a' Ea].
    assert (Hin : exists trace r,
               foldT (fun length answer =>
                        solveTrialTraced (solverFor expressionTokens word)
                          0 length answer)
                 (seq 1 (S n - 0 + 1 - 1)) 0
               = (string1 c0 :: trace, r)).
    { replace (S n - 0 + 1 - 1) with (S n) by lia. cbn [seq].
      eapply foldT_head. exact Ea. }
    destruct Hin as [tr [r Hin]].
    destruct (@foldT_head nat
                (fun startPosition answer =>
                   foldT (fun length answer =>
                            solveTrialTraced (solverFor expressionTokens word)
                              startPosition length answer)
                     (seq 1 (S n - startPosition + 1 - 1)) answer)
                0 (seq 1 n) 0 (string1 c0) tr r Hin) as [trace [r' E]].
    rewrite E. cbn [snd]. intros ->. now exists trace, err.
Qed.

Lemma solve_rejects_symbol_outside_abc_witness :
  (exists err, solve (solverFor "ab." "dab") = Throw err)
  /\ (forall c, String.get 0 "dab" = Some c -> ~ inABC c ->
        solveTraced (solverFor "ab." "dab")
        = ([], Throw (ParseError ("Unknown symbol in word: " ++ string1 c))))
  /\ (forall c, String.get 0 "dab" = Some c -> inABC c ->
        Postfix "ab." ->
        exists trace err,
          solveTraced (solverFor "ab." "dab")
          = (string1 c :: trace, Throw err)).
Proof.
  apply (@solve_rejects_symbol_outside_abc "ab." "dab").
  exists 0, "d"%char. split; [reflexivity|].
  intros [H|[H|H]]; discriminate.
Defined.

(** C7 as the claim has it fails: for the expression [a] and the word
    [ad] the trial of the candidate [a] is evaluated to its end before the
    trial of [ad] rejects the word. *)
Lemma solve_rejects_before_any_trial_counterexample :
  hasSymbolOutsideABC "ad"
  /\ solveTraced (solverFor "a" "ad")
     = (["a"%string], Throw (ParseError "Unknown symbol in word: d"))
  /\ ~ (exists err, solveTraced (solverFor "a" "ad") = ([], Throw err)).
Proof.
  split; [|split].
  - exists 1, "d"%char. split; [reflexivity|].
    intros [H|[H|H]]; discriminate.
  - vm_compute. reflexivity.
  - intros [err H]. vm_compute in H. discriminate.
Qed.

(** The empty word reaches no trial and no check: [solve] returns [0]. *)
Lemma solve_empty_word e :
  solveTraced {| Solver_expression := e; Solver_word := "" |} = ([], Ok 0).
Proof. reflexivity. Qed.

(** ** End-to-end scenarios *)

(** C8 as the source has it.  For the expression [ab.] and the word
    [xaby] the search aborts with a malformed-input error, [x] standing
    outside the alphabet; for the word [cabc] it returns [2], the length
    of [ab]. *)
Theorem scenario_ab_concatenation :
  solve (solverFor "ab." "xaby")
  = Throw (ParseError "Unknown symbol in word: x")
  /\ solve (solverFor "ab." "cabc") = Ok 2.
Proof. split; vm_compute; reflexivity. Qed.

(** C8 as the claim has it fails: the search does not return [2] for the
    word [xaby]. *)
Lemma scenario_xaby_counterexample :
  solve (solverFor "ab." "xaby") <> Ok 2.
Proof. vm_compute. discriminate. Qed.

(** The other scenarios of the specification, run on the model. *)
Example scenario_a_star : solve (solverFor "a*" "aaa") = Ok 3.
Proof. vm_compute. reflexivity. Qed.

Example scenario_a_or_b : solve (solverFor "ab+" "cac") = Ok 1.
Proof. vm_compute. reflexivity. Qed.

Example scenario_too_much_operands :
  solve (solverFor "ab" "a") = Throw (ParseError "Too much operands").
Proof. vm_compute. reflexivity. Qed.

Example scenario_missing_operands :
  solve (solverFor "+a" "a") = Throw (ParseError "Missing operands").
Proof. vm_compute. reflexivity. Qed.

Example scenario_leaf :
  containsWordAsSubstring (Operand_of_char "a" "a") = true
  /\ containsWordAsSubstring (Operand_of_char "b" "a") = false.
Proof. split; reflexivity. Qed.

Example scenario_main :
  run "ab." "cabc" = Ok 2
  /\ run "" "cabc" = Throw (ParseError "Expression is empty").
Proof. split; vm_compute; reflexivity. Qed.

(** ** [checkWord] in full *)

Lemma accepted_inABC c :
  Ascii.eqb c EPSILON || negb (isSymbolOfAlphabet c) = false -> inABC c.
Proof.
  intros H. apply orb_false_iff in H. destruct H as [H1 H2].
  apply negb_false_iff in H2. unfold isSymbolOfAlphabet in H2.
  rewrite H1, orb_false_r in H2.
  apply orb_true_iff in H2. destruct H2 as [H2|H2].
  - apply orb_true_iff in H2. destruct H2 as [H2|H2];
      apply Ascii.eqb_eq in H2; subst; unfold inABC; auto.
  - apply Ascii.eqb_eq in H2; subst; unfold inABC; auto.
Qed.

Lemma checkSymbols_Ok_inv word :
  checkSymbols word = Ok tt ->
  forall i c, String.get i word = Some c -> inABC c.
Proof.
  induction word as [|a w IH]; simpl; intros H i c Hi; [discriminate|].
  destruct (Ascii.eqb a EPSILON || negb (isSymbolOfAlphabet a)) eqn:E;
    [discriminate|].
  destruct i as [|i].
  - injection Hi as <-. now apply accepted_inABC.
  - now apply (IH H i).
Qed.

Lemma checkWord_ok_inv word : checkWord word = Ok tt -> wordOverABC word.
Proof.
  unfold checkWord. destruct word as [|a w]; [discriminate|].
  cbn [String.length Nat.eqb]. intros H. split; [discriminate|].
  now apply checkSymbols_Ok_inv.
Qed.

(** X1. [checkWord] accepts exactly the non-empty words over [a], [b],
    [c]; the epsilon symbol is rejected like any other character. *)
Theorem checkWord_accepts_iff word :
  checkWord word = Ok tt <-> wordOverABC word.
Proof. split; [apply checkWord_ok_inv|apply checkWord_ok]. Qed.

Lemma checkSymbols_first_offender word :
  forall i c,
    String.get i word = Some c -> ~ inABC c ->
    (forall j d, j < i -> String.get j word = Some d -> inABC d) ->
    checkSymbols word
    = Throw (ParseError ("Unknown symbol in word: " ++ string1 c)).
Proof.
  induction word as [|a w IH]; intros i c Hi Hc Hbefore; [discriminate|].
  destruct i as [|i].
  - injection Hi as ->. cbn [checkSymbols]. now rewrite not_inABC_rejected.
  - cbn [checkSymbols].
    rewrite inABC_accepted by (apply (Hbefore 0 a); [lia|reflexivity]).
    apply (IH i c Hi Hc). intros j d Hj Hd.
    apply (Hbefore (S j) d); [lia|exact Hd].
Qed.

(** X2. [checkWord] reports the first offending character: when the
    character at position [i] is outside [a], [b], [c] and all characters
    before it are inside, the exception names that character.  The empty
    word has its own message. *)
Theorem checkWord_reports_first_offender word i c :
  String.get i word = Some c -> ~ inABC c ->
  (forall j d, j < i -> String.get j word = Some d -> inABC d) ->
  checkWord word
  = Throw (ParseError ("Unknown symbol in word: " ++ string1 c))
  /\ checkWord EmptyString = Throw (ParseError "Word is empty").
Proof.
  intros Hi Hc Hbefore. split; [|reflexivity].
  unfold checkWord. pose proof (get_Some_lt _ _ Hi) as Hlen.
  destruct (Nat.eqb_spec (String.length word) 0) as [E|_]; [lia|].
  now apply (checkSymbols_first_offender word Hi Hc).
Qed.

Lemma checkWord_reports_first_offender_witness :
  checkWord "ab1c"
  = Throw (ParseError ("Unknown symbol in word: " ++ string1 "1"))
  /\ checkWord EmptyString = Throw (ParseError "Word is empty").
Proof.
  apply (@checkWord_reports_first_offender "ab1c" 2 "1").
  - reflexivity.
  - intros [H|[H|H]]; discriminate.
  - intros j d Hj Hd.
    destruct j as [|[|j]]; [| |lia]; injection Hd as <-; unfold inABC; auto.
Defined.

(** ** The expressions the evaluator accepts *)

Lemma append_assoc (a b c : string) : ((a ++ b) ++ c = a ++ (b ++ c))%string.
Proof. induction a as [|x a IH]; simpl; auto. now rewrite IH. Qed.

Lemma append_nil_r (a : string) : (a ++ "" = a)%string.
Proof. induction a as [|x a IH]; simpl; auto. now rewrite IH. Qed.

Lemma isOperator_cases t :
  isOperator t = true -> t = "+"%char \/ t = "."%char \/ t = "*"%char.
Proof.
  unfold isOperator. rewrite !orb_true_iff, !Ascii.eqb_eq. tauto.
Qed.

(** Along a run that does not throw, the stack mirrors a list of
    well-formed sub-expressions whose texts, bottom first, make up the
    tokens read so far. *)
Lemma evaluateTokens_mirror tokens W :
  forall stack stack' done,
    length done = length stack ->
    Forall Postfix done ->
    evaluateTokens tokens W stack = Ok stack' ->
    exists done',
      length done' = length stack'
      /\ Forall Postfix done'
      /\ (joined done ++ tokens)%string = joined done'.
Proof.
  induction tokens as [|t tokens IH]; intros stack stack' done Hlen Hdone.
  - cbn [evaluateTokens]. intros H; injection H as <-.
    exists done. now rewrite append_nil_r.
  - cbn [evaluateTokens]. destruct (isOperator t) eqn:Eop.
    + apply isOperator_cases in Eop.
      destruct Eop as [-> | [-> | ->]].
      * change (operatorCode "+") with (Ok PLUS). cbn [bind calculateOperator].
        destruct stack as [|r [|l rest]]; try discriminate.
        destruct done as [|er [|el drest]]; try discriminate.
        cbn [bind]. intros H.
        inversion Hdone as [|? ? Her Hd']; subst.
        inversion Hd' as [|? ? Hel Hdrest]; subst.
        assert (Hl2 : length ((el ++ er ++ "+")%string :: drest)
                      = length (operator_plus l r :: rest))
          by (simpl in *; lia).
        assert (Hp2 : Forall Postfix ((el ++ er ++ "+")%string :: drest))
          by (constructor; [now constructor|assumption]).
        destruct (IH _ _ _ Hl2 Hp2 H) as [done' [Hl' [Hp' Hj']]].
        exists done'. repeat split; auto.
        rewrite <- Hj'. cbn [joined].
        rewrite !append_assoc. reflexivity.
      * change (operatorCode ".") with (Ok MULTIPLY).
        cbn [bind calculateOperator].
        destruct stack as [|r [|l rest]]; try discriminate.
        destruct done as [|er [|el drest]]; try discriminate.
        cbn [bind]. intros H.
        inversion Hdone as [|? ? Her Hd']; subst.
        inversion Hd' as [|? ? Hel Hdrest]; subst.
        assert (Hl2 : length ((el ++ er ++ ".")%string :: drest)
                      = length (operator_multiply l r :: rest))
          by (simpl in *; lia).
        assert (Hp2 : Forall Postfix ((el ++ er ++ ".")%string :: drest))
          by (constructor; [now constructor|assumption]).
        destruct (IH _ _ _ Hl2 Hp2 H) as [done' [Hl' [Hp' Hj']]].
        exists done'. repeat split; auto.
        rewrite <- Hj'. cbn [joined].
        rewrite !append_assoc. reflexivity.
      * change (operatorCode "*") with (Ok KLEENE_STAR).
        cbn [bind calculateOperator calculateKleeneStar].
        destruct stack as [|x rest]; try discriminate.
        destruct done as [|ex drest]; try discriminate.
        cbn [bind]. intros H.
        inversion Hdone as [|? ? Hex Hdrest]; subst.
        assert (Hl2 : length ((ex ++ "*")%string :: drest)
                      = length (snd (kleeneStarLoop W x (2 * String.length W + 2)) :: rest))
          by (simpl in *; lia).
        assert (Hp2 : Forall Postfix ((ex ++ "*")%string :: drest))
          by (constructor; [now constructor|assumption]).
        destruct (IH _ _ _ Hl2 Hp2 H) as [done' [Hl' [Hp' Hj']]].
        exists done'. repeat split; auto.
        rewrite <- Hj'. cbn [joined].
        rewrite !append_assoc. reflexivity.
    + destruct (isSymbolOfAlphabet t) eqn:Esym; [|discriminate].
      intros H.
      assert (Hl2 : length (string1 t :: done)
                    = length (Operand_of_char t W :: stack))
        by (simpl; lia).
      assert (Hp2 : Forall Postfix (string1 t :: done))
        by (constructor; [now constructor|assumption]).
      destruct (IH _ _ _ Hl2 Hp2 H) as [done' [Hl' [Hp' Hj']]].
      exists done'. repeat split; auto.
      rewrite <- Hj'. cbn [joined].
      rewrite append_assoc. reflexivity.
Qed.

Lemma calculateValueOfExpression_Ok_postfix expressionTokens word result :
  wordOverABC word ->
  calculateValueOfExpression
    {| operands := []; expression := expressionTokens |} word = Ok result ->
  Postfix expressionTokens.
Proof.
  intros Hw H. unfold calculateValueOfExpression in H.
  rewrite (checkWord_ok Hw) in H. cbn [bind expression operands] in H.
  destruct (evaluateTokens expressionTokens word []) as [stack|err] eqn:E;
    [|discriminate].
  cbn [bind] in H.
  destruct (@evaluateTokens_mirror expressionTokens word [] stack []
              eq_refl (Forall_nil _) E) as [done [Hl [Hp Hj]]].
  destruct stack as [|top [|second rest]]; try discriminate.
  destruct done as [|e [|e' drest]]; try discriminate.
  cbn [joined append] in Hj. subst e.
  now inversion Hp.
Qed.

(** X3. On a non-empty word over [a], [b], [c] and from an empty stack,
    [calculateValueOfExpression] returns an Operand exactly for the
    well-formed postfix expressions; every other token string makes it
    throw. *)
Theorem evaluator_accepts_iff_postfix expressionTokens word :
  wordOverABC word ->
  ((exists result,
       calculateValueOfExpression
         {| operands := []; expression := expressionTokens |} word
       = Ok result)
   <-> Postfix expressionTokens).
Proof.
  intros Hw. split; [|intros He; now apply calculateValueOfExpression_ok].
  intros [result H].
  now apply (@calculateValueOfExpression_Ok_postfix expressionTokens word result).
Qed.

Lemma evaluator_accepts_iff_postfix_witness :
  (exists result,
      calculateValueOfExpression
        {| operands := []; expression := "ab.*" |} "abab"
      = Ok result)
  <-> Postfix "ab.*".
Proof.
  apply (@evaluator_accepts_iff_postfix "ab.*" "abab").
  split; [discriminate|].
  intros i c H.
  do 4 (destruct i as [|i]; [injection H as <-; unfold inABC; auto|]).
  discriminate.
Defined.

(** ** When the search returns *)

Lemma foldM_Ok_inv (S : Type) (P : S -> Prop) (body : nat -> S -> Result S) l :
  (forall i s s', In i l -> P s -> body i s = Ok s' -> P s') ->
  forall s s', P s -> foldM body l s = Ok s' -> P s'.
Proof.
  induction l as [|i l IH]; intros Hstep s s' Hs; simpl.
  - intros H; injection H as <-; assumption.
  - destruct (body i s) as [s1|e] eqn:E; [|discriminate].
    apply IH.
    + intros j t t' Hj. apply Hstep. now right.
    + apply (Hstep i s s1); auto. now left.
Qed.

Lemma foldM_Ok_all (S : Type) (body : nat -> S -> Result S) l :
  forall s s', foldM body l s = Ok s' ->
  forall i, In i l -> exists s0 s1, body i s0 = Ok s1.
Proof.
  induction l as [|j l IH]; intros s s' H i Hi; [contradiction|].
  simpl in H. destruct (body j s) as [s1|e] eqn:E; [|discriminate].
  destruct Hi as [->|Hi].
  - now exists s, s1.
  - apply (IH s1 s' H i Hi).
Qed.

Lemma substring_whole (w : string) : substring 0 (String.length w) w = w.
Proof. induction w as [|a w IH]; simpl; auto. now rewrite IH. Qed.

(** X4. Whatever the expression, the stack it starts from and the word,
    a length returned by [solve] never exceeds the length of the word. *)
Theorem solve_answer_le_length (this : Solver) answer :
  solve this = Ok answer -> answer <= String.length (Solver_word this).
Proof.
  unfold solve, forRangeM.
  apply (@foldM_Ok_inv nat (fun a => a <= String.length (Solver_word this))).
  - intros i a a' Hi Ha.
    apply (@foldM_Ok_inv nat (fun a => a <= String.length (Solver_word this)));
      [|assumption].
    intros j b b' Hj Hb. unfold solveTrial.
    destruct (calculateValueOfExpression _ _) as [r|e]; [|discriminate].
    cbn [bind]. intros H; injection H as <-.
    apply in_seq in Hi. apply in_seq in Hj.
    destruct (isWordEqualToSomeSubstringInLanguage r); lia.
  - lia.
Qed.

Lemma solve_answer_le_length_witness :
  2 <= String.length (Solver_word (solverFor "ab." "cabc")).
Proof.
  apply (@solve_answer_le_length (solverFor "ab." "cabc") 2).
  vm_compute. reflexivity.
Defined.

Lemma solve_Ok_whole_word e word answer :
  word <> EmptyString ->
  solve (solverFor e word) = Ok answer ->
  exists result,
    calculateValueOfExpression {| operands := []; expression := e |} word
    = Ok result.
Proof.
  intros Hne H. unfold solve, forRangeM in H.
  cbn [solverFor Solver_word] in H.
  assert (Hlen : 1 <= String.length word)
    by (destruct word; [congruence|simpl; lia]).
  destruct (foldM_Ok_all _ _ _ H 0) as [a0 [a1 Hin]].
  { apply in_seq. lia. }
  destruct (foldM_Ok_all _ _ _ Hin (String.length word)) as [b0 [b1 Ht]].
  { apply in_seq. lia. }
  unfold solveTrial in Ht. cbn [solverFor Solver_word Solver_expression] in Ht.
  rewrite substring_whole in Ht.
  destruct (calculateValueOfExpression _ word) as [r|err]; [|discriminate].
  now exists r.
Qed.

Lemma solve_well_formed_returns e word :
  Postfix e -> wordOverABC word ->
  exists answer, solve (solverFor e word) = Ok answer.
Proof.
  intros He Hw. unfold solve. cbn [solverFor Solver_word].
  destruct (@forRangeM_inv nat (fun _ _ => True) 0 (String.length word)
              (fun startPosition answer =>
                 forRangeM 1 (String.length word - startPosition + 1)
                   (fun length answer =>
                      solveTrial (solverFor e word) startPosition length answer)
                   answer) 0 I) as [answer [H _]].
  - intros i a Hi _.
    destruct (@forRangeM_inv nat (fun _ _ => True) 1
                (String.length word - i + 1)
                (fun length answer =>
                   solveTrial (solverFor e word) i length answer) a I)
      as [a' [H _]].
    + intros j b Hj _.
      assert (Htrial : isTrial word i j) by (unfold isTrial; lia).
      destruct (calculateValueOfExpression_ok He
                  (substring_wordOverABC Hw Htrial)) as [r Er].
      unfold solveTrial. cbn [solverFor Solver_word Solver_expression].
      rewrite Er. cbn [bind]. eexists; split; [reflexivity|exact I].
    + now exists a'.
  - now exists answer.
Qed.

(** X5. For a non-empty word, [solve] returns a length exactly when the
    expression is a well-formed postfix expression and the word is over
    [a], [b], [c]; in every other case it throws. *)
Theorem solve_returns_iff expressionTokens word :
  word <> EmptyString ->
  ((exists answer, solve (solverFor expressionTokens word) = Ok answer)
   <-> Postfix expressionTokens /\ wordOverABC word).
Proof.
  intros Hne. split.
  - intros [answer H].
    destruct (@solve_Ok_whole_word expressionTokens word answer Hne H)
      as [r Hr].
    assert (Hw : wordOverABC word).
    { apply checkWord_ok_inv.
      unfold calculateValueOfExpression in Hr.
      destruct (checkWord word) as [[]|err]; [reflexivity|discriminate]. }
    split; [|assumption].
    now apply (@calculateValueOfExpression_Ok_postfix expressionTokens word r).
  - intros [He Hw]. now apply solve_well_formed_returns.
Qed.

Lemma solve_returns_iff_witness :
  (exists answer, solve (solverFor "ab" "abc") = Ok answer)
  <-> Postfix "ab" /\ wordOverABC "abc".
Proof.
  apply (@solve_returns_iff "ab" "abc"). discriminate.
Defined.

(** ** Union as an algebra *)

Lemma inShape2_wellShaped L o i j :
  wellShaped L o -> i < L + 1 -> j < L + 1 ->
  inShape2 (containsSubstring o) i j = true.
Proof.
  intros (_ & H2 & H3 & _) Hi Hj. unfold inShape2.
  rewrite H2, H3 by lia.
  destruct (Nat.ltb_spec i (L + 1)), (Nat.ltb_spec j (L + 1)); auto; lia.
Qed.

(** The cells of a union whose left operand has the dimensions of its
    word length. *)
Lemma plus_cells L a b :
  wellShaped L a ->
  (forall i j,
      subCell (operator_plus a b) i j
      = subCell a i j || ((i <? L) && (j <? L - i + 1) && subCell b i j))
  /\ (forall n,
        sufCell (operator_plus a b) n
        = sufCell a n || ((1 <=? n) && (n <? L + 1) && sufCell b n))
  /\ (forall n,
        prefCell (operator_plus a b) n
        = prefCell a n || ((1 <=? n) && (n <? L + 1) && prefCell b n)).
Proof.
  intros Ha. pose proof Ha as (H1 & H2 & H3 & H4 & H5).
  destruct (table_plus a b) as [_ Ht].
  destruct (suffix_plus a b) as [_ Hs].
  destruct (prefix_plus a b) as [_ Hp].
  split; [|split].
  - intros i j. rewrite Ht, H1.
    destruct (Nat.ltb_spec i L) as [Hi|Hi]; [|reflexivity].
    destruct (Nat.ltb_spec j (L - i + 1)) as [Hj|Hj].
    + rewrite (inShape2_wellShaped Ha) by lia. reflexivity.
    + cbn [andb]. now rewrite !andb_false_r.
  - intros n. rewrite Hs, H1. unfold inShape1. rewrite H4.
    now destruct (1 <=? n), (n <? L + 1).
  - intros n. rewrite Hp, H1. unfold inShape1. rewrite H5.
    now destruct (1 <=? n), (n <? L + 1).
Qed.

Lemma zeroOutsideUnion_of_length L : zeroOutsideUnion L (Operand_of_length L).
Proof.
  split.
  - intros i j _. apply get2_zeros.
  - intros n _. split; apply get1_zeros.
Qed.

Lemma zeroOutsideUnion_of_char c W :
  zeroOutsideUnion (String.length W) (Operand_of_char c W).
Proof.
  destruct (Ascii.eqb c EPSILON) eqn:Hc.
  - destruct (epsilon_leaf_fields W) as (_ & _ & _ & Hsub & Hsuf & Hpref).
    apply Ascii.eqb_eq in Hc; subst c.
    split; intros; auto.
  - split.
    + intros i j Hg. rewrite subCell_of_char by assumption.
      revert Hg. natb.
    + intros n Hg. destruct (@boundary_of_char c W n Hc) as [-> ->].
      revert Hg. natb.
Qed.

Lemma zeroOutsideUnion_multiply l r :
  zeroOutsideUnion (wordLength l) (operator_multiply l r).
Proof.
  split.
  - intros i j Hg. rewrite subCell_multiply.
    revert Hg. natb.
  - intros n Hg. rewrite sufCell_multiply, prefCell_multiply.
    revert Hg. natb.
Qed.

Lemma zeroOutsideUnion_plus L a b :
  wellShaped L a ->
  zeroOutsideUnion L a -> zeroOutsideUnion L (operator_plus a b).
Proof.
  intros Hw [Ha1 Ha2].
  destruct (plus_cells b Hw) as (Ht & Hs & Hp).
  split.
  - intros i j Hg. rewrite Ht, Ha1 by assumption.
    rewrite Hg. reflexivity.
  - intros n Hg. rewrite Hs, Hp.
    destruct (Ha2 n Hg) as [-> ->]. rewrite Hg. auto.
Qed.

Lemma builtFor_zeroOutsideUnion W o :
  builtFor W o -> zeroOutsideUnion (String.length W) o.
Proof.
  induction 1 as [c| |a b Ha IHa Hb IHb|a b Ha IHa Hb IHb].
  - apply zeroOutsideUnion_of_char.
  - apply zeroOutsideUnion_of_length.
  - apply zeroOutsideUnion_plus; auto. now apply builtFor_wellShaped.
  - rewrite <- (builtFor_wordLength Ha). apply zeroOutsideUnion_multiply.
Qed.

Lemma or_guard_comm (g x y : bool) :
  (g = false -> x = false /\ y = false) -> x || (g && y) = y || (g && x).
Proof.
  intros H. destruct g; [now destruct x, y|].
  destruct (H eq_refl) as [-> ->]. reflexivity.
Qed.

Lemma or_guard_assoc (g x y z : bool) :
  x || (g && y) || (g && z) = x || (g && (y || (g && z))).
Proof. now destruct g, x, y, z. Qed.

(** X6. The union of two Operands built for the same word is the
    pointwise disjunction: of the two flags, and of every cell that the
    loops of [operator+] visit ([containsSubstring[i][len]] for [i < L],
    [len <= L - i]; the two boundary vectors at [1 <= n <= L]). *)
Theorem operator_plus_pointwise_or W a b :
  builtFor W a -> builtFor W b ->
  let L := String.length W in
  containsEpsilon (operator_plus a b) = containsEpsilon a || containsEpsilon b
  /\ containsWordAsSubstring (operator_plus a b)
     = containsWordAsSubstring a || containsWordAsSubstring b
  /\ (forall i len, i < L -> len <= L - i ->
        subCell (operator_plus a b) i len = subCell a i len || subCell b i len)
  /\ (forall n, 1 <= n <= L ->
        sufCell (operator_plus a b) n = sufCell a n || sufCell b n
        /\ prefCell (operator_plus a b) n = prefCell a n || prefCell b n).
Proof.
  intros Ha _ L.
  destruct (plus_cells b (builtFor_wellShaped Ha)) as (Ht & Hs & Hp).
  fold L in Ht, Hs, Hp.
  split; [reflexivity|]. split; [reflexivity|]. split.
  - intros i len Hi Hlen. rewrite Ht.
    destruct (Nat.ltb_spec i L), (Nat.ltb_spec len (L - i + 1)); auto; lia.
  - intros n Hn. rewrite Hs, Hp.
    destruct (Nat.leb_spec 1 n), (Nat.ltb_spec n (L + 1)); auto; lia.
Qed.

Lemma operator_plus_pointwise_or_witness :
  let a := Operand_of_char "a" "ab" in
  let b := Operand_of_char "b" "ab" in
  containsEpsilon (operator_plus a b) = containsEpsilon a || containsEpsilon b
  /\ containsWordAsSubstring (operator_plus a b)
     = containsWordAsSubstring a || containsWordAsSubstring b
  /\ (forall i len, i < 2 -> len <= 2 - i ->
        subCell (operator_plus a b) i len = subCell a i len || subCell b i len)
  /\ (forall n, 1 <= n <= 2 ->
        sufCell (operator_plus a b) n = sufCell a n || sufCell b n
        /\ prefCell (operator_plus a b) n = prefCell a n || prefCell b n).
Proof.
  intros a b.
  apply (@operator_plus_pointwise_or "ab" a b); constructor.
Defined.

(** X7. Union is commutative on the Operands built for one word: the two
    orders give the same Operand, field by field and slot by slot. *)
Theorem operator_plus_comm W a b :
  builtFor W a -> builtFor W b ->
  operator_plus a b = operator_plus b a.
Proof.
  intros Ha Hb.
  pose proof (builtFor_wellShaped Ha) as Wa.
  pose proof (builtFor_wellShaped Hb) as Wb.
  destruct (builtFor_zeroOutsideUnion Ha) as [Za1 Za2].
  destruct (builtFor_zeroOutsideUnion Hb) as [Zb1 Zb2].
  destruct (plus_cells b Wa) as (Ht & Hs & Hp).
  destruct (plus_cells a Wb) as (Ht' & Hs' & Hp').
  apply (@Operand_ext (String.length W)).
  - now apply wellShaped_plus.
  - now apply wellShaped_plus.
  - rewrite !containsEpsilon_plus. apply orb_comm.
  - rewrite !containsWordAsSubstring_plus. apply orb_comm.
  - intros i j. rewrite Ht, Ht'. apply or_guard_comm. intros Hg. auto.
  - intros n. rewrite Hs, Hs'. apply or_guard_comm. intros Hg.
    split; [apply Za2|apply Zb2]; assumption.
  - intros n. rewrite Hp, Hp'. apply or_guard_comm. intros Hg.
    split; [apply Za2|apply Zb2]; assumption.
Qed.

Lemma operator_plus_comm_witness :
  operator_plus (Operand_of_char "a" "ab") (Operand_of_char "b" "ab")
  = operator_plus (Operand_of_char "b" "ab") (Operand_of_char "a" "ab").
Proof.
  apply (@operator_plus_comm "ab"); constructor.
Defined.

(** X8. Union is associative on the Operands built for one word. *)
Theorem operator_plus_assoc W a b c :
  builtFor W a -> builtFor W b -> builtFor W c ->
  operator_plus (operator_plus a b) c = operator_plus a (operator_plus b c).
Proof.
  intros Ha Hb _.
  pose proof (builtFor_wellShaped Ha) as Wa.
  pose proof (builtFor_wellShaped Hb) as Wb.
  assert (Wab : wellShaped (String.length W) (operator_plus a b))
    by now apply wellShaped_plus.
  destruct (plus_cells b Wa) as (Ht1 & Hs1 & Hp1).
  destruct (plus_cells c Wab) as (Ht2 & Hs2 & Hp2).
  destruct (plus_cells c Wb) as (Ht3 & Hs3 & Hp3).
  destruct (plus_cells (operator_plus b c) Wa) as (Ht4 & Hs4 & Hp4).
  apply (@Operand_ext (String.length W)).
  - now apply wellShaped_plus.
  - now apply wellShaped_plus.
  - rewrite !containsEpsilon_plus. now rewrite orb_assoc.
  - rewrite !containsWordAsSubstring_plus. now rewrite orb_assoc.
  - intros i j. rewrite Ht2, Ht1, Ht4, Ht3. apply or_guard_assoc.
  - intros n. rewrite Hs2, Hs1, Hs4, Hs3. apply or_guard_assoc.
  - intros n. rewrite Hp2, Hp1, Hp4, Hp3. apply or_guard_assoc.
Qed.

Lemma operator_plus_assoc_witness :
  operator_plus
    (operator_plus (Operand_of_char "a" "abc") (Operand_of_char "b" "abc"))
    (Operand_of_char "c" "abc")
  = operator_plus (Operand_of_char "a" "abc")
      (operator_plus (Operand_of_char "b" "abc") (Operand_of_char "c" "abc")).
Proof.
  apply (@operator_plus_assoc "abc"); constructor.
Defined.

Lemma empty_language_cells L :
  (forall i j, subCell (Operand_of_length L) i j = false)
  /\ (forall n, sufCell (Operand_of_length L) n = false)
  /\ (forall n, prefCell (Operand_of_length L) n = false).
Proof.
  split; [|split].
  - intros i j. apply get2_zeros.
  - intros n. apply get1_zeros.
  - intros n. apply get1_zeros.
Qed.

(** X9. The empty-language Operand is a two-sided identity of the union
    on the Operands built for a word. *)
Theorem operator_plus_empty_language W a :
  builtFor W a ->
  operator_plus a (Operand_of_length (String.length W)) = a
  /\ operator_plus (Operand_of_length (String.length W)) a = a.
Proof.
  intros Ha.
  pose proof (builtFor_wellShaped Ha) as Wa.
  pose proof (wellShaped_of_length (String.length W)) as W0.
  destruct (builtFor_zeroOutsideUnion Ha) as [Za1 Za2].
  destruct (empty_language_cells (String.length W)) as (Z1 & Z2 & Z3).
  destruct (plus_cells (Operand_of_length (String.length W)) Wa)
    as (Ht & Hs & Hp).
  destruct (plus_cells a W0) as (Ht' & Hs' & Hp').
  split; apply (@Operand_ext (String.length W)); auto.
  - now apply wellShaped_plus.
  - rewrite containsEpsilon_plus. apply orb_false_r.
  - rewrite containsWordAsSubstring_plus. apply orb_false_r.
  - intros i j. rewrite Ht, Z1. now rewrite andb_false_r, orb_false_r.
  - intros n. rewrite Hs, Z2. now rewrite andb_false_r, orb_false_r.
  - intros n. rewrite Hp, Z3. now rewrite andb_false_r, orb_false_r.
  - now apply wellShaped_plus.
  - intros i j. rewrite Ht', Z1. cbn [orb]. apply guarded_cell. apply Za1.
  - intros n. rewrite Hs', Z2. cbn [orb]. apply guarded_cell. apply Za2.
  - intros n. rewrite Hp', Z3. cbn [orb]. apply guarded_cell. apply Za2.
Qed.

Lemma operator_plus_empty_language_witness :
  operator_plus (Operand_of_char "a" "ab") (Operand_of_length 2)
  = Operand_of_char "a" "ab"
  /\ operator_plus (Operand_of_length 2) (Operand_of_char "a" "ab")
     = Operand_of_char "a" "ab".
Proof.
  apply (@operator_plus_empty_language "ab"); constructor.
Defined.

(** ** Words as lists, and their windows *)

Lemma length_wordChars W : length (wordChars W) = String.length W.
Proof. induction W as [|a W IH]; simpl; auto. Qed.

Lemma wordChars_substring W :
  forall i len,
    wordChars (substring i len W) = window (wordChars W) i len.
Proof.
  unfold window.
  induction W as [|a W IH]; intros i len.
  - destruct i, len; reflexivity.
  - destruct i as [|i].
    + destruct len as [|len]; [reflexivity|].
      cbn [substring wordChars list_ascii_of_string skipn firstn].
      f_equal. apply (IH 0 len).
    + cbn [substring wordChars list_ascii_of_string skipn]. apply IH.
Qed.

Lemma nth_error_wordChars W i : nth_error (wordChars W) i = String.get i W.
Proof.
  revert i; induction W as [|a W IH]; intros [|i]; simpl; auto.
Qed.

Lemma firstn_add (A : Type) (a b : nat) (l : list A) :
  firstn (a + b) l = firstn a l ++ firstn b (skipn a l).
Proof.
  revert l; induction a as [|a IH]; intros l; simpl; auto.
  destruct l as [|x l]; simpl.
  - now destruct b.
  - now rewrite IH.
Qed.

Lemma window_nil w i : window w i 0 = [].
Proof. reflexivity. Qed.

Lemma length_window w i len :
  i + len <= length w -> length (window w i len) = len.
Proof.
  intros H. unfold window. rewrite length_firstn, length_skipn. lia.
Qed.

Lemma window_split w i len k :
  k <= len -> window w i len = window w i k ++ window w (i + k) (len - k).
Proof.
  intros H. unfold window.
  replace len with (k + (len - k)) at 1 by lia.
  rewrite firstn_add, skipn_skipn.
  now replace (k + i) with (i + k) by lia.
Qed.

Lemma window_whole w : window w 0 (length w) = w.
Proof. unfold window. cbn [skipn]. apply firstn_all. Qed.

Lemma app_eq_length (A : Type) (a b a' b' : list A) :
  a ++ b = a' ++ b' -> length a = length a' -> a = a' /\ b = b'.
Proof.
  revert a'; induction a as [|x a IH]; intros [|x' a'] H Hl; simpl in *;
    try discriminate; auto.
  injection H as -> H. destruct (IH a' H) as [-> ->]; auto.
Qed.

(** A window cut in two: both parts are windows. *)
Lemma window_app_inv w i len u v :
  i + len <= length w ->
  window w i len = u ++ v ->
  length u <= len
  /\ u = window w i (length u)
  /\ v = window w (i + length u) (len - length u).
Proof.
  intros Hr H.
  assert (Hl : length u + length v = len).
  { rewrite <- length_app, <- H. now apply length_window. }
  assert (Hk : length u <= len) by lia.
  rewrite (window_split w i Hk) in H.
  apply app_eq_length in H.
  - destruct H as [H1 H2]. auto.
  - apply length_window. lia.
Qed.

Lemma window_one w i c :
  window w i 1 = [c] <-> nth_error w i = Some c.
Proof.
  unfold window. revert i; induction w as [|a w IH]; intros i.
  - destruct i; simpl; split; discriminate.
  - destruct i as [|i]; simpl.
    + split; intros H; injection H as ->; reflexivity.
    + apply IH.
Qed.

Lemma charAt_nth_error W i c :
  i < String.length W ->
  (Ascii.eqb c (charAt W i) = true <-> nth_error (wordChars W) i = Some c).
Proof.
  intros Hi. rewrite nth_error_wordChars. unfold charAt.
  destruct (get_lt W Hi) as [d ->].
  rewrite Ascii.eqb_eq. split; [intros ->; reflexivity|].
  intros H; now injection H.
Qed.

(** ** What the fields of a leaf and of a union mean *)

Lemma word_nonempty_length W : W <> EmptyString -> 1 <= String.length W.
Proof. destruct W; [congruence|simpl; lia]. Qed.

Lemma letterChar_not_epsilon x : Ascii.eqb (letterChar x) EPSILON = false.
Proof. now destruct x. Qed.

Lemma singleton_app_window (c : ascii) w i n x :
  i + n <= length w -> 1 <= n ->
  [c] = x ++ window w i n -> n = 1 /\ x = [] /\ window w i 1 = [c].
Proof.
  intros Hr Hn H.
  assert (Hl : 1 = length x + n).
  { change 1 with (length [c]). rewrite H, length_app, length_window; auto. }
  assert (n = 1) by lia. subst n.
  destruct x; [|simpl in Hl; lia]. auto.
Qed.

Lemma represents_letter x W :
  W <> EmptyString ->
  represents W (fun w => w = [letterChar x]) (Operand_of_char (letterChar x) W).
Proof.
  intros Hne. pose proof (word_nonempty_length Hne) as HL.
  pose proof (letterChar_not_epsilon x) as Hc.
  pose proof (length_wordChars W) as Hlen.
  set (c := letterChar x) in *.
  constructor.
  - unfold Operand_of_char. now rewrite Hc.
  - apply wellShaped_of_char.
  - unfold Operand_of_char. rewrite Hc. cbn [containsEpsilon].
    split; discriminate.
  - intros i len Hi Hl. rewrite subCell_of_char by assumption.
    rewrite !andb_true_iff, Nat.ltb_lt, Nat.eqb_eq, (@charAt_nth_error W i c Hi).
    split.
    + intros [[_ ->] H]. now apply window_one.
    + intros H.
      assert (len = 1).
      { rewrite <- (@length_window (wordChars W) i len) by lia.
        now rewrite H. }
      subst len. apply window_one in H. auto.
  - unfold Operand_of_char. rewrite Hc. cbn [containsWordAsSubstring].
    split.
    + destruct (Nat.eqb_spec (String.length W) 1) as [E|E]; [|discriminate].
      intros H. rewrite Ascii.eqb_sym in H.
      apply (@charAt_nth_error W 0 c) in H; [|lia].
      exists [c]. split; [reflexivity|]. exists [], [].
      rewrite app_nil_r. cbn [app].
      rewrite <- (window_whole (wordChars W)), Hlen, E.
      symmetry. now apply window_one.
    + intros [v [-> [x0 [y Hv]]]].
      assert (Hl : 1 = length x0 + (length (wordChars W) + length y)).
      { change 1 with (length [c]). now rewrite Hv, !length_app. }
      assert (E : String.length W = 1) by lia.
      rewrite E. cbn [Nat.eqb].
      destruct x0; [|simpl in Hl; lia].
      destruct y; [|simpl in Hl; lia].
      rewrite app_nil_r in Hv. cbn [app] in Hv.
      rewrite Ascii.eqb_sym. apply (@charAt_nth_error W 0 c); [lia|].
      apply window_one. rewrite Hv.
      rewrite <- E, <- Hlen. apply window_whole.
  - intros n Hn. destruct (@boundary_of_char c W n Hc) as [-> _].
    rewrite !andb_true_iff, Nat.eqb_eq, Nat.leb_le, Ascii.eqb_sym.
    rewrite (@charAt_nth_error W _ c) by lia.
    split.
    + intros [[-> _] H]. exists [c]. split; [reflexivity|].
      exists []. cbn [app]. symmetry. now apply window_one.
    + intros [v [-> [x0 Hv]]].
      apply singleton_app_window in Hv; [|lia|lia].
      destruct Hv as (-> & _ & Hv). apply window_one in Hv. auto.
  - intros n Hn. destruct (@boundary_of_char c W n Hc) as [_ ->].
    rewrite !andb_true_iff, Nat.eqb_eq, Nat.leb_le, Ascii.eqb_sym.
    unfold back. rewrite (@charAt_nth_error W _ c) by lia.
    split.
    + intros [[-> _] H]. exists [c]. split; [reflexivity|].
      exists []. rewrite app_nil_r. symmetry. now apply window_one.
    + intros [v [-> [y Hv]]].
      assert (Hl : 1 = n + length y).
      { change 1 with (length [c]).
        rewrite Hv, length_app, length_window; auto. lia. }
      assert (n = 1) by lia. subst n.
      destruct y; [|simpl in Hl; lia].
      rewrite app_nil_r in Hv. symmetry in Hv.
      apply window_one in Hv. auto.
Qed.

Lemma represents_epsilon W :
  W <> EmptyString ->
  represents W (fun w => w = []) (Operand_of_char EPSILON W).
Proof.
  intros Hne. pose proof (word_nonempty_length Hne) as HL.
  pose proof (length_wordChars W) as Hlen.
  destruct (epsilon_leaf_fields W) as (He & Hw & Hl & Hsub & Hsuf & Hpref).
  constructor.
  - assumption.
  - apply wellShaped_of_char.
  - rewrite He. tauto.
  - intros i len Hi Hr. rewrite Hsub. split; [discriminate|].
    intros H. apply (f_equal (@length ascii)) in H.
    rewrite length_window in H by lia. simpl in H. lia.
  - rewrite Hw. split; [discriminate|].
    intros [v [-> [x [y H]]]].
    apply (f_equal (@length ascii)) in H.
    rewrite !length_app in H. simpl in H. lia.
  - intros n Hn. rewrite Hsuf. split; [discriminate|].
    intros [v [-> [x H]]].
    apply (f_equal (@length ascii)) in H.
    rewrite length_app, length_window in H by lia. simpl in H. lia.
  - intros n Hn. rewrite Hpref. split; [discriminate|].
    intros [v [-> [y H]]].
    apply (f_equal (@length ascii)) in H.
    rewrite length_app, length_window in H by lia. simpl in H. lia.
Qed.

Lemma represents_plus W A B a b :
  represents W A a -> represents W B b ->
  represents W (fun w => A w \/ B w) (operator_plus a b).
Proof.
  intros Ra Rb.
  destruct (plus_cells b (rep_shape Ra)) as (Ht & Hs & Hp).
  constructor.
  - rewrite wordLength_plus. apply (rep_wordLength Ra).
  - apply wellShaped_plus. apply (rep_shape Ra).
  - rewrite containsEpsilon_plus, orb_true_iff.
    now rewrite (rep_epsilon Ra), (rep_epsilon Rb).
  - intros i len Hi Hl. rewrite Ht.
    destruct (Nat.ltb_spec i (String.length W)); [|lia].
    destruct (Nat.ltb_spec len (String.length W - i + 1)); [|lia].
    cbn [andb]. rewrite orb_true_iff.
    now rewrite (rep_substring Ra Hi Hl), (rep_substring Rb Hi Hl).
  - rewrite containsWordAsSubstring_plus, orb_true_iff.
    rewrite (rep_whole Ra), (rep_whole Rb).
    split.
    + intros [[v [Hv Ho]]|[v [Hv Ho]]]; exists v; tauto.
    + intros [v [[Hv|Hv] Ho]]; [left|right]; exists v; tauto.
  - intros n Hn. rewrite Hs.
    destruct (Nat.leb_spec 1 n); [|lia].
    destruct (Nat.ltb_spec n (String.length W + 1)); [|lia].
    cbn [andb]. rewrite orb_true_iff.
    rewrite (rep_suffix Ra Hn), (rep_suffix Rb Hn).
    split.
    + intros [[v [Hv Ho]]|[v [Hv Ho]]]; exists v; tauto.
    + intros [v [[Hv|Hv] Ho]]; [left|right]; exists v; tauto.
  - intros n Hn. rewrite Hp.
    destruct (Nat.leb_spec 1 n); [|lia].
    destruct (Nat.ltb_spec n (String.length W + 1)); [|lia].
    cbn [andb]. rewrite orb_true_iff.
    rewrite (rep_prefix Ra Hn), (rep_prefix Rb Hn).
    split.
    + intros [[v [Hv Ho]]|[v [Hv Ho]]]; exists v; tauto.
    + intros [v [[Hv|Hv] Ho]]; [left|right]; exists v; tauto.
Qed.

(** ** What the fields of a concatenation mean *)

Section ConcatenationMeaning.
Variable W : string.
Variables A B : Language.
Variables a b : Operand.
Hypothesis Ra : represents W A a.
Hypothesis Rb : represents W B b.
Hypothesis HA : nonEmptyLanguage A.
Hypothesis HB : nonEmptyLanguage B.

Let w := wordChars W.
Let L := String.length W.

Lemma concat_length_w : length w = L.
Proof. apply length_wordChars. Qed.

Lemma concat_epsilon :
  containsEpsilon (operator_multiply a b) = true <-> langConcat A B [].
Proof.
  rewrite containsEpsilon_multiply, andb_true_iff.
  rewrite (rep_epsilon Ra), (rep_epsilon Rb). split.
  - intros [H1 H2]. now exists [], [].
  - intros [u [v [H [Hu Hv]]]]. symmetry in H.
    apply app_eq_nil in H. destruct H as [-> ->]. auto.
Qed.

Lemma concat_substring i len :
  i < L -> 1 <= len <= L - i ->
  (subCell (operator_multiply a b) i len = true
   <-> langConcat A B (window w i len)).
Proof.
  intros Hi Hl. pose proof concat_length_w as Hw.
  rewrite subCell_multiply_cases, (rep_wordLength Ra). fold L.
  destruct (Nat.ltb_spec i L) as [_|?]; [|lia].
  destruct (Nat.leb_spec 1 len) as [_|?]; [|lia].
  destruct (Nat.leb_spec len (L - i)) as [_|?]; [|lia].
  cbn [andb]. rewrite !orb_true_iff, !andb_true_iff, existsIn_true.
  split.
  - intros [[[He Hs]|[k [Hk Hs]]]|[He Hs]].
    + exists [], (window w i len). split; [reflexivity|]. split.
      * now apply (rep_epsilon Ra).
      * apply (rep_substring Rb Hi Hl). exact Hs.
    + apply andb_true_iff in Hs. destruct Hs as [Hs1 Hs2].
      exists (window w i k), (window w (i + k) (len - k)).
      split; [apply window_split; lia|]. split.
      * apply (@rep_substring W A a Ra i k); [assumption|fold L; lia|exact Hs1].
      * apply (@rep_substring W B b Rb (i + k) (len - k));
          [fold L; lia|fold L; lia|exact Hs2].
    + exists (window w i len), []. split; [now rewrite app_nil_r|]. split.
      * apply (rep_substring Ra Hi Hl). exact Hs.
      * now apply (rep_epsilon Rb).
  - intros [u [v [H [Hu Hv]]]].
    apply window_app_inv in H; [|lia].
    destruct H as (Hk & Eu & Ev).
    destruct (Nat.eq_dec (length u) 0) as [E0|E0].
    + left; left. rewrite E0 in Eu, Ev.
      rewrite Nat.add_0_r, Nat.sub_0_r in Ev. cbn in Eu. subst u v.
      split; [now apply (rep_epsilon Ra)|].
      now apply (rep_substring Rb Hi Hl).
    + destruct (Nat.eq_dec (length u) len) as [El|El].
      * right. rewrite El in Eu. rewrite El, Nat.sub_diag in Ev.
        cbn in Ev. subst v. rewrite Eu in Hu. split.
        -- now apply (rep_epsilon Rb).
        -- now apply (rep_substring Ra Hi Hl).
      * left; right. exists (length u). split; [lia|].
        apply andb_true_iff. split.
        -- apply (@rep_substring W A a Ra i (length u));
             [assumption|fold L; lia|fold w; now rewrite <- Eu].
        -- apply (@rep_substring W B b Rb (i + length u) (len - length u));
             [fold L; lia|fold L; lia|fold w; now rewrite <- Ev].
Qed.

Lemma concat_whole :
  containsWordAsSubstring (operator_multiply a b) = true
  <-> exists v, langConcat A B v /\ occursIn w v.
Proof.
  pose proof concat_length_w as Hw.
  rewrite containsWordAsSubstring_multiply, (rep_wordLength Ra). fold L.
  rewrite !orb_true_iff, existsIn_true. split.
  - intros [[H|H]|[p [Hp H]]].
    + apply (rep_whole Ra) in H. destruct H as [v1 [Hv1 [x [y E]]]].
      destruct HB as [v2 Hv2].
      exists (v1 ++ v2). split; [now exists v1, v2|].
      exists x, (y ++ v2). fold w in E. rewrite E.
      now rewrite <- !app_assoc.
    + apply (rep_whole Rb) in H. destruct H as [v2 [Hv2 [x [y E]]]].
      destruct HA as [v1 Hv1].
      exists (v1 ++ v2). split; [now exists v1, v2|].
      exists (v1 ++ x), y. fold w in E. rewrite E.
      now rewrite <- !app_assoc.
    + apply andb_true_iff in H. destruct H as [H1 H2].
      apply (@rep_suffix W A a Ra p) in H1; [|fold L; lia].
      apply (@rep_prefix W B b Rb (L - p)) in H2; [|fold L; lia].
      destruct H1 as [v1 [Hv1 [x E1]]]. destruct H2 as [v2 [Hv2 [y E2]]].
      fold w L in E1, E2.
      replace (L - (L - p)) with p in E2 by lia.
      exists (v1 ++ v2). split; [now exists v1, v2|].
      assert (Hwhole : window w 0 L = w)
        by (rewrite <- Hw; apply window_whole).
      assert (Hsplit : window w 0 p ++ window w p (L - p) = w).
      { rewrite <- Hwhole at 3. symmetry.
        apply (@window_split w 0 L p). lia. }
      exists x, y. rewrite E1, E2, <- app_assoc. f_equal.
      rewrite app_assoc. f_equal. exact Hsplit.
  - intros [v [[v1 [v2 [-> [Hv1 Hv2]]]] [x [y E]]]].
    apply app_eq_app in E. destruct E as [l [[E1 E2]|[E1 E2]]].
    + apply app_eq_app in E2. destruct E2 as [l' [[E3 E4]|[E3 E4]]].
      * destruct (Nat.eq_dec (length l) 0) as [E0|E0].
        { left; right. apply (rep_whole Rb). exists v2. split; auto.
          destruct l; [|simpl in E0; lia].
          exists [], y. cbn [app] in *. fold w. now rewrite E3. }
        destruct (Nat.eq_dec (length l) L) as [EL|EL].
        { left; left. apply (rep_whole Ra). exists v1. split; auto.
          assert (l' = []).
          { apply (f_equal (@length ascii)) in E3.
            rewrite length_app, Hw in E3. destruct l'; [auto|simpl in E3; lia]. }
          subst l'. rewrite app_nil_r in E3.
          exists x, []. fold w. now rewrite app_nil_r, E3. }
        right.
        assert (Hwin : window w 0 L = l ++ l')
          by (rewrite <- Hw, window_whole; exact E3).
        apply window_app_inv in Hwin; [|lia].
        destruct Hwin as (Hk & El & El').
        cbn [Nat.add] in El'.
        exists (length l). split; [lia|].
        apply andb_true_iff. split.
        -- apply (@rep_suffix W A a Ra (length l)); [fold L; lia|].
           exists v1. split; auto. exists x. fold w. now rewrite <- El.
        -- apply (@rep_prefix W B b Rb (L - length l)); [fold L; lia|].
           exists v2. split; auto. exists y. fold w L.
           replace (L - (L - length l)) with (length l) by lia.
           now rewrite <- El'.
      * left; left. apply (rep_whole Ra). exists v1. split; auto.
        exists x, l'. fold w. now rewrite E1, E3.
    + left; right. apply (rep_whole Rb). exists v2. split; auto.
      exists l, y. fold w. exact E2.
Qed.

Lemma concat_suffix p :
  1 <= p < L ->
  (sufCell (operator_multiply a b) p = true
   <-> exists v, langConcat A B v /\ endsWith v (window w 0 p)).
Proof.
  intros Hp. pose proof concat_length_w as Hw.
  rewrite sufCell_multiply, (rep_wordLength Ra). fold L.
  destruct (Nat.leb_spec 1 p) as [_|?]; [|lia].
  destruct (Nat.ltb_spec p L) as [_|?]; [|lia].
  cbn [andb]. unfold sufValue.
  rewrite !orb_true_iff, !andb_true_iff, existsIn_true. split.
  - intros [[H|[H He]]|[q [Hq H]]].
    + apply (rep_suffix Rb Hp) in H. destruct H as [v2 [Hv2 [x E]]].
      destruct HA as [v1 Hv1].
      exists (v1 ++ v2). split; [now exists v1, v2|].
      exists (v1 ++ x). fold w in E. now rewrite E, app_assoc.
    + apply (rep_suffix Ra Hp) in H. destruct H as [v1 [Hv1 [x E]]].
      apply (rep_epsilon Rb) in He.
      exists (v1 ++ []). split; [now exists v1, []|].
      exists x. fold w in E. now rewrite app_nil_r.
    + apply andb_true_iff in H. destruct H as [H1 H2].
      apply (@rep_substring W B b Rb q (p - q)) in H1;
        [|fold L; lia|fold L; lia].
      apply (@rep_suffix W A a Ra q) in H2; [|fold L; lia].
      destruct H2 as [v1 [Hv1 [x E]]]. fold w in E, H1.
      exists (v1 ++ window w q (p - q)). split.
      * now exists v1, (window w q (p - q)).
      * exists x. rewrite E, <- app_assoc. f_equal.
        symmetry. apply (@window_split w 0 p q). lia.
  - intros [v [[v1 [v2 [-> [Hv1 Hv2]]]] [x E]]].
    apply app_eq_app in E. destruct E as [l [[E1 E2]|[E1 E2]]].
    + apply window_app_inv in E2; [|lia].
      destruct E2 as (Hk & El & Ev2). cbn [Nat.add] in Ev2.
      destruct (Nat.eq_dec (length l) 0) as [E0|E0].
      * left; left. apply (rep_suffix Rb Hp). exists v2. split; auto.
        exists []. fold w. rewrite E0, Nat.sub_0_r in Ev2. exact Ev2.
      * destruct (Nat.eq_dec (length l) p) as [Ep|Ep].
        -- left; right. rewrite Ep, Nat.sub_diag in Ev2. cbn in Ev2.
           subst v2. split.
           ++ apply (rep_suffix Ra Hp). exists v1. split; auto.
              exists x. fold w. rewrite E1. f_equal. now rewrite <- Ep.
           ++ now apply (rep_epsilon Rb).
        -- right. exists (length l). split; [lia|].
           apply andb_true_iff. split.
           ++ apply (@rep_substring W B b Rb (length l) (p - length l));
                [fold L; lia|fold L; lia|]. fold w. now rewrite <- Ev2.
           ++ apply (@rep_suffix W A a Ra (length l)); [fold L; lia|].
              exists v1. split; auto. exists x. fold w. now rewrite <- El.
    + left; left. apply (rep_suffix Rb Hp). exists v2. split; auto.
      exists l. fold w. exact E2.
Qed.

Lemma concat_prefix s :
  1 <= s < L ->
  (prefCell (operator_multiply a b) s = true
   <-> exists v, langConcat A B v /\ startsWith v (window w (L - s) s)).
Proof.
  intros Hs. pose proof concat_length_w as Hw.
  rewrite prefCell_multiply, (rep_wordLength Ra). fold L.
  destruct (Nat.leb_spec 1 s) as [_|?]; [|lia].
  destruct (Nat.ltb_spec s L) as [_|?]; [|lia].
  cbn [andb]. unfold prefValue.
  rewrite !orb_true_iff, !andb_true_iff, existsIn_true. split.
  - intros [[H|[He H]]|[r [Hr H]]].
    + apply (rep_prefix Ra Hs) in H. destruct H as [v1 [Hv1 [y E]]].
      destruct HB as [v2 Hv2].
      exists (v1 ++ v2). split; [now exists v1, v2|].
      exists (y ++ v2). fold w L in E. now rewrite E, app_assoc.
    + apply (rep_prefix Rb Hs) in H. destruct H as [v2 [Hv2 [y E]]].
      apply (rep_epsilon Ra) in He.
      exists ([] ++ v2). split; [now exists [], v2|].
      exists y. fold w L in E. exact E.
    + apply andb_true_iff in H. destruct H as [H1 H2].
      apply (@rep_substring W A a Ra (L - s) (s - r)) in H1;
        [|fold L; lia|fold L; lia].
      apply (@rep_prefix W B b Rb r) in H2; [|fold L; lia].
      destruct H2 as [v2 [Hv2 [y E]]]. fold w L in E, H1.
      exists (window w (L - s) (s - r) ++ v2). split.
      * now exists (window w (L - s) (s - r)), v2.
      * exists y. rewrite E, app_assoc. f_equal.
        rewrite (@window_split w (L - s) s (s - r)) by lia.
        f_equal. f_equal; lia.
  - intros [v [[v1 [v2 [-> [Hv1 Hv2]]]] [y E]]].
    apply app_eq_app in E. destruct E as [l [[E1 E2]|[E1 E2]]].
    + left; left. apply (rep_prefix Ra Hs). exists v1. split; auto.
      exists l. fold w L. exact E1.
    + apply window_app_inv in E1; [|lia].
      destruct E1 as (Hk & Ev1 & El).
      destruct (Nat.eq_dec (length v1) 0) as [E0|E0].
      * left; right. split.
        -- apply (rep_epsilon Ra). destruct v1; [auto|simpl in E0; lia].
        -- apply (rep_prefix Rb Hs). exists v2. split; auto.
           exists y. fold w L. rewrite E2. f_equal.
           rewrite El, E0. f_equal; lia.
      * destruct (Nat.eq_dec (length v1) s) as [Es|Es].
        -- left; left. apply (rep_prefix Ra Hs). exists v1. split; auto.
           exists []. fold w L. rewrite app_nil_r.
           rewrite Ev1 at 1. now rewrite Es.
        -- right. exists (s - length v1). split; [lia|].
           apply andb_true_iff. split.
           ++ apply (@rep_substring W A a Ra (L - s) (s - (s - length v1)));
                [fold L; lia|fold L; lia|]. fold w.
              replace (s - (s - length v1)) with (length v1) by lia.
              now rewrite <- Ev1.
           ++ apply (@rep_prefix W B b Rb (s - length v1)); [fold L; lia|].
              exists v2. split; auto. exists y. fold w L.
              rewrite E2. f_equal. rewrite El. f_equal; lia.
Qed.

Lemma represents_multiply :
  represents W (langConcat A B) (operator_multiply a b).
Proof.
  constructor.
  - rewrite wordLength_multiply. apply (rep_wordLength Ra).
  - rewrite <- (rep_wordLength Ra). apply wellShaped_multiply.
  - apply concat_epsilon.
  - apply concat_substring.
  - apply concat_whole.
  - apply concat_suffix.
  - apply concat_prefix.
Qed.

End ConcatenationMeaning.

(** ** What the fields of a star mean *)

Lemma nonEmpty_langPower A n :
  nonEmptyLanguage A -> nonEmptyLanguage (langPower A n).
Proof.
  intros [v Hv]. induction n as [|n [u Hu]].
  - now exists [].
  - exists (u ++ v). now exists u, v.
Qed.

Lemma nonEmpty_language r : nonEmptyLanguage (language r).
Proof.
  induction r as [x| |l [u Hu] r [v Hv]|l [u Hu] r [v Hv]|e _].
  - now exists [letterChar x].
  - now exists [].
  - exists u. now left.
  - exists (u ++ v). now exists u, v.
  - exists []. now exists 0.
Qed.

Lemma represents_power W A e n :
  W <> EmptyString -> represents W A e -> nonEmptyLanguage A ->
  represents W (langPower A n) (power W e n).
Proof.
  intros Hne Re HA. induction n as [|n IH].
  - apply (represents_epsilon Hne).
  - cbn [power langPower]. apply represents_multiply; auto.
    now apply nonEmpty_langPower.
Qed.

(** A cell of the sum of the powers is set exactly when it is set in one
    of the powers. *)
Lemma sumOfPowers_cells W e N :
  (containsEpsilon (sumOfPowers W e N) = true
   <-> exists k, k <= N /\ containsEpsilon (power W e k) = true)
  /\ (containsWordAsSubstring (sumOfPowers W e N) = true
      <-> exists k, k <= N /\ containsWordAsSubstring (power W e k) = true)
  /\ (forall i len, i < String.length W -> len <= String.length W - i ->
        (subCell (sumOfPowers W e N) i len = true
         <-> exists k, k <= N /\ subCell (power W e k) i len = true))
  /\ (forall n, 1 <= n <= String.length W ->
        (sufCell (sumOfPowers W e N) n = true
         <-> exists k, k <= N /\ sufCell (power W e k) n = true)
        /\ (prefCell (sumOfPowers W e N) n = true
            <-> exists k, k <= N /\ prefCell (power W e k) n = true)).
Proof.
  assert (Hstep : forall (x y : bool) (P : nat -> bool) M,
             (x = true <-> exists k, k <= M /\ P k = true) ->
             y = P (S M) ->
             (x || y = true <-> exists k, k <= S M /\ P k = true)).
  { intros x y P M Hx ->. rewrite orb_true_iff, Hx. split.
    - intros [[k [Hk H]]|H]; [exists k; split; [lia|auto]|exists (S M); auto].
    - intros [k [Hk H]].
      destruct (Nat.eq_dec k (S M)) as [->|Hne]; [now right|].
      left. exists k. split; [lia|auto]. }
  assert (Hbase : forall (P : nat -> bool),
             (P 0 = true <-> exists k, k <= 0 /\ P k = true)).
  { intros P. split.
    - intros H. now exists 0.
    - intros [k [Hk H]]. now replace k with 0 in H by lia. }
  induction N as [|N (IHe & IHw & IHt & IHv)].
  - cbn [sumOfPowers]. split; [|split; [|split]].
    + apply (Hbase (fun k => containsEpsilon (power W e k))).
    + apply (Hbase (fun k => containsWordAsSubstring (power W e k))).
    + intros i len _ _. apply (Hbase (fun k => subCell (power W e k) i len)).
    + intros n _. split.
      * apply (Hbase (fun k => sufCell (power W e k) n)).
      * apply (Hbase (fun k => prefCell (power W e k) n)).
  - cbn [sumOfPowers].
    change (operator_multiply (power W e N) e) with (power W e (S N)).
    destruct (plus_cells (power W e (S N)) (wellShaped_sumOfPowers W e N))
      as (Ht & Hs & Hp).
    split; [|split; [|split]].
    + rewrite containsEpsilon_plus.
      now apply (Hstep _ _ (fun k => containsEpsilon (power W e k))).
    + rewrite containsWordAsSubstring_plus.
      now apply (Hstep _ _ (fun k => containsWordAsSubstring (power W e k))).
    + intros i len Hi Hl. rewrite Ht.
      apply (Hstep _ _ (fun k => subCell (power W e k) i len)); auto.
      destruct (Nat.ltb_spec i (String.length W)) as [_|?]; [|lia].
      destruct (Nat.ltb_spec len (String.length W - i + 1)) as [_|?]; [|lia].
      reflexivity.
    + intros n Hn. rewrite Hs, Hp.
      destruct (Nat.leb_spec 1 n) as [_|?]; [|lia].
      destruct (Nat.ltb_spec n (String.length W + 1)) as [_|?]; [|lia].
      destruct (IHv n Hn) as [IHs IHp]. split.
      * now apply (Hstep _ _ (fun k => sufCell (power W e k) n)).
      * now apply (Hstep _ _ (fun k => prefCell (power W e k) n)).
Qed.

(** Past [L + 2] factors a power shows nothing that an earlier power does
    not show. *)
Lemma power_index_bounded W e (f : Operand -> bool) N :
  String.length W + 2 <= N ->
  (exists k, f (power W e k) = true) ->
  exists k, k <= N /\ f (power W e k) = true.
Proof.
  intros HN [k Hk].
  destruct (le_lt_dec k N) as [Hle|Hgt].
  - now exists k.
  - exists (String.length W + 2). split; [lia|].
    rewrite <- (@power_constant W e k) by lia. exact Hk.
Qed.

Lemma represents_star W A e N :
  W <> EmptyString -> represents W A e -> nonEmptyLanguage A ->
  String.length W + 2 <= N ->
  represents W (langStar A) (sumOfPowers W e N).
Proof.
  intros Hne Re HA HN.
  pose proof (fun n => @represents_power W A e n Hne Re HA) as RP.
  destruct (sumOfPowers_cells W e N) as (He & Hw & Ht & Hv).
  constructor.
  - now destruct (wellShaped_sumOfPowers W e N).
  - apply wellShaped_sumOfPowers.
  - split.
    + intros _. now exists 0.
    + intros _. apply containsEpsilon_sumOfPowers.
  - intros i len Hi Hl. rewrite Ht by lia. split.
    + intros [k [_ H]]. exists k. now apply (rep_substring (RP k) Hi Hl).
    + intros [k H].
      apply (@power_index_bounded W e (fun o => subCell o i len) N HN).
      exists k. now apply (rep_substring (RP k) Hi Hl).
  - rewrite Hw. split.
    + intros [k [_ H]]. apply (rep_whole (RP k)) in H.
      destruct H as [v [Hv' Ho]]. exists v. split; [now exists k|auto].
    + intros [v [[k Hk] Ho]].
      apply (@power_index_bounded W e containsWordAsSubstring N HN).
      exists k. apply (rep_whole (RP k)). now exists v.
  - intros n Hn. destruct (Hv n ltac:(lia)) as [Hs _]. rewrite Hs. split.
    + intros [k [_ H]]. apply (rep_suffix (RP k) Hn) in H.
      destruct H as [v [Hv' Ho]]. exists v. split; [now exists k|auto].
    + intros [v [[k Hk] Ho]].
      apply (@power_index_bounded W e (fun o => sufCell o n) N HN).
      exists k. apply (rep_suffix (RP k) Hn). now exists v.
  - intros n Hn. destruct (Hv n ltac:(lia)) as [_ Hp]. rewrite Hp. split.
    + intros [k [_ H]]. apply (rep_prefix (RP k) Hn) in H.
      destruct H as [v [Hv' Ho]]. exists v. split; [now exists k|auto].
    + intros [v [[k Hk] Ho]].
      apply (@power_index_bounded W e (fun o => prefCell o n) N HN).
      exists k. apply (rep_prefix (RP k) Hn). now exists v.
Qed.

(** ** What the evaluator computes *)

Lemma Postfix_postfix r : Postfix (postfix r).
Proof.
  induction r as [x| |l IHl r IHr|l IHl r IHr|e IHe]; cbn [postfix].
  - constructor. now destruct x.
  - now constructor.
  - now constructor.
  - now constructor.
  - now constructor.
Qed.

Lemma evaluateTokens_regex r :
  forall W stack,
    W <> EmptyString ->
    exists o,
      evaluateTokens (postfix r) W stack = Ok (o :: stack)
      /\ represents W (language r) o.
Proof.
  induction r as [x| |l IHl r IHr|l IHl r IHr|e IHe]; intros W stack Hne;
    cbn [postfix language].
  - exists (Operand_of_char (letterChar x) W). split.
    + now destruct x.
    + now apply represents_letter.
  - exists (Operand_of_char EPSILON W). split.
    + reflexivity.
    + now apply represents_epsilon.
  - destruct (IHl W stack Hne) as [ol [El Rl]].
    destruct (IHr W (ol :: stack) Hne) as [or [Er Rr]].
    exists (operator_plus ol or). split.
    + rewrite evaluateTokens_app, El. cbn [bind].
      rewrite evaluateTokens_app, Er. reflexivity.
    + now apply represents_plus.
  - destruct (IHl W stack Hne) as [ol [El Rl]].
    destruct (IHr W (ol :: stack) Hne) as [or [Er Rr]].
    exists (operator_multiply ol or). split.
    + rewrite evaluateTokens_app, El. cbn [bind].
      rewrite evaluateTokens_app, Er. reflexivity.
    + apply represents_multiply; auto; apply nonEmpty_language.
  - destruct (IHe W stack Hne) as [oe [Ee Re]].
    exists (sumOfPowers W oe (2 * String.length W + 2)). split.
    + rewrite evaluateTokens_app, Ee. cbn [bind].
      cbn [evaluateTokens]. change (isOperator "*") with true. cbv iota.
      change (operatorCode "*") with (Ok KLEENE_STAR).
      cbn [bind calculateOperator calculateKleeneStar].
      now rewrite kleeneStarLoop_powers.
    + apply represents_star; auto; [apply nonEmpty_language|lia].
Qed.

Lemma calculateValueOfExpression_regex r W :
  wordOverABC W ->
  exists o,
    calculateValueOfExpression
      {| operands := []; expression := postfix r |} W = Ok o
    /\ represents W (language r) o.
Proof.
  intros Hw. destruct (evaluateTokens_regex r (W := W) [] (proj1 Hw))
    as [o [E R]].
  exists o. split; [|assumption].
  unfold calculateValueOfExpression. rewrite (checkWord_ok Hw).
  cbn [bind expression operands]. now rewrite E.
Qed.

(** ** The meaning of the fields, operation by operation *)

(** X10. For a non-empty reference word, the leaf of a letter and the
    leaf of the epsilon symbol carry in every field what the comments of
    [struct Operand] say: [containsSubstring[i][len]] tells whether the
    window is the one-letter word (the empty word), the two boundary
    vectors whether it ends with a prefix or starts with a suffix of the
    reference word, [containsWordAsSubstring] whether the reference word
    occurs in it. *)
Theorem leaf_fields_meaning (x : Letter) W :
  W <> EmptyString ->
  represents W (language (RLetter x)) (Operand_of_char (letterChar x) W)
  /\ represents W (language REpsilon) (Operand_of_char EPSILON W).
Proof.
  intros Hne. split.
  - cbn [language]. now apply represents_letter.
  - cbn [language]. now apply represents_epsilon.
Qed.

Lemma leaf_fields_meaning_witness :
  represents "ab" (language (RLetter La)) (Operand_of_char (letterChar La) "ab")
  /\ represents "ab" (language REpsilon) (Operand_of_char EPSILON "ab").
Proof.
  apply (@leaf_fields_meaning La "ab"). discriminate.
Defined.

(** X11. When the two Operands on top of the stack carry the meaning of
    the languages [A] (below) and [B] (top), a [+] token replaces them by
    an Operand that carries the meaning of the union of [A] and [B]. *)
Theorem plus_token_meaning W A B a b stack :
  represents W A a -> represents W B b ->
  exists o,
    calculateOperator W PLUS (b :: a :: stack) = Ok (o :: stack)
    /\ represents W (fun w => A w \/ B w) o.
Proof.
  intros Ra Rb. exists (operator_plus a b). split; [reflexivity|].
  now apply represents_plus.
Qed.

Lemma plus_token_meaning_witness :
  exists o,
    calculateOperator "ab" PLUS
      [Operand_of_char "b" "ab"; Operand_of_char "a" "ab"]
    = Ok [o]
    /\ represents "ab"
         (fun w => language (RLetter La) w \/ language (RLetter Lb) w) o.
Proof.
  apply (@plus_token_meaning "ab" (language (RLetter La))
           (language (RLetter Lb))
           (Operand_of_char "a" "ab") (Operand_of_char "b" "ab") []).
  - apply (@represents_letter La "ab"). discriminate.
  - apply (@represents_letter Lb "ab"). discriminate.
Defined.

(** X12. When the two Operands on top of the stack carry the meaning of
    two non-empty languages [A] (below) and [B] (top), a [.] token
    replaces them by an Operand that carries the meaning of their
    concatenation: the splits that [operator*] enumerates are all the ways
    a window, a prefix, a suffix or the whole reference word can lie
    across the two factors. *)
Theorem multiply_token_meaning W A B a b stack :
  represents W A a -> represents W B b ->
  nonEmptyLanguage A -> nonEmptyLanguage B ->
  exists o,
    calculateOperator W MULTIPLY (b :: a :: stack) = Ok (o :: stack)
    /\ represents W (langConcat A B) o.
Proof.
  intros Ra Rb HA HB. exists (operator_multiply a b). split; [reflexivity|].
  now apply represents_multiply.
Qed.

Lemma multiply_token_meaning_witness :
  exists o,
    calculateOperator "ab" MULTIPLY
      [Operand_of_char "b" "ab"; Operand_of_char "a" "ab"]
    = Ok [o]
    /\ represents "ab"
         (langConcat (language (RLetter La)) (language (RLetter Lb))) o.
Proof.
  apply (@multiply_token_meaning "ab" (language (RLetter La))
           (language (RLetter Lb))
           (Operand_of_char "a" "ab") (Operand_of_char "b" "ab") []).
  - apply (@represents_letter La "ab"). discriminate.
  - apply (@represents_letter Lb "ab"). discriminate.
  - apply (nonEmpty_language (RLetter La)).
  - apply (nonEmpty_language (RLetter Lb)).
Defined.

(** X13. When the Operand on top of the stack carries the meaning of a
    non-empty language [A] and the reference word is not empty, a [*]
    token replaces it by an Operand that carries the meaning of the star
    of [A], of all its powers and not only of the [2 * L + 2] that the
    loop adds up. *)
Theorem star_token_meaning W A e stack :
  W <> EmptyString -> represents W A e -> nonEmptyLanguage A ->
  exists o,
    calculateOperator W KLEENE_STAR (e :: stack) = Ok (o :: stack)
    /\ represents W (langStar A) o.
Proof.
  intros Hne Re HA.
  exists (snd (kleeneStarLoop W e (2 * String.length W + 2))).
  split; [reflexivity|].
  rewrite kleeneStarLoop_powers. cbn [snd].
  apply represents_star; auto. lia.
Qed.

Lemma star_token_meaning_witness :
  exists o,
    calculateOperator "aa" KLEENE_STAR [Operand_of_char "a" "aa"] = Ok [o]
    /\ represents "aa" (langStar (language (RLetter La))) o.
Proof.
  apply (@star_token_meaning "aa" (language (RLetter La))
           (Operand_of_char "a" "aa") []).
  - discriminate.
  - apply (@represents_letter La "aa"). discriminate.
  - apply (nonEmpty_language (RLetter La)).
Defined.

(** X14. For every regular expression over [a], [b], [c], epsilon, [+],
    [.], [*] and every non-empty reference word over [a], [b], [c], the
    evaluation of its postfix text returns an Operand whose
    [isWordEqualToSomeSubstringInLanguage] is true exactly when the
    reference word occurs inside some word of the language of the
    expression; the other fields carry their meaning as well. *)
Theorem evaluator_decides_occurrence (r : Regex) W :
  wordOverABC W ->
  exists o,
    calculateValueOfExpression
      {| operands := []; expression := postfix r |} W = Ok o
    /\ (isWordEqualToSomeSubstringInLanguage o = true
        <-> exists v, language r v /\ occursIn (wordChars W) v)
    /\ represents W (language r) o.
Proof.
  intros Hw. destruct (calculateValueOfExpression_regex r Hw) as [o [E R]].
  exists o. split; [assumption|]. split; [|assumption].
  apply (rep_whole R).
Qed.

Lemma evaluator_decides_occurrence_witness :
  exists o,
    calculateValueOfExpression
      {| operands := [];
         expression := postfix (RStar (RMultiply (RLetter La) (RLetter Lb))) |}
      "bab" = Ok o
    /\ (isWordEqualToSomeSubstringInLanguage o = true
        <-> exists v,
              language (RStar (RMultiply (RLetter La) (RLetter Lb))) v
              /\ occursIn (wordChars "bab") v)
    /\ represents "bab"
         (language (RStar (RMultiply (RLetter La) (RLetter Lb)))) o.
Proof.
  apply (@evaluator_decides_occurrence
           (RStar (RMultiply (RLetter La) (RLetter Lb))) "bab").
  split; [discriminate|].
  intros i c H.
  do 3 (destruct i as [|i]; [injection H as <-; unfold inABC; auto|]).
  discriminate.
Defined.

(** ** The search, in terms of the language *)

(** When every trial returns, [solve] returns the greatest length of a
    matching candidate. *)
Lemma solve_longest_when_trials_return (this : Solver) :
  (forall startPosition length,
      isTrial (Solver_word this) startPosition length ->
      exists result,
        calculateValueOfExpression (Solver_expression this)
          (substring startPosition length (Solver_word this)) = Ok result) ->
  exists answer,
    solve this = Ok answer
    /\ isLongestMatch (Solver_expression this) (Solver_word this) answer.
Proof.
  intros Hret.
  set (word := Solver_word this) in *.
  set (ex := Solver_expression this) in *.
  set (n := String.length word).
  pose (Seen := fun (i j : nat) (answer : nat) =>
    (forall startPosition length,
        isTrial word startPosition length ->
        startPosition < i \/ (startPosition = i /\ length < j) ->
        matchesWholeW ex (substring startPosition length word) ->
        length <= answer)
    /\ (answer = 0
        \/ exists startPosition,
             isTrial word startPosition answer
             /\ matchesWholeW ex (substring startPosition answer word))).
  assert (Hinner : forall i answer, i < n -> Seen i 1 answer ->
            exists answer',
              forRangeM 1 (n - i + 1)
                (fun length answer => solveTrial this i length answer) answer
              = Ok answer'
              /\ Seen (S i) 1 answer').
  { intros i answer Hi H0.
    destruct (@forRangeM_inv nat (fun j a => Seen i j a) 1 (n - i + 1)
                (fun length answer => solveTrial this i length answer) answer H0)
      as [answer' [E HI]].
    - intros j a Hj [Hup Hwit].
      assert (Htrial : isTrial word i j) by (unfold isTrial; fold n; lia).
      destruct (Hret i j Htrial) as [r Er].
      destruct (@solveTrial_matches this i j a r Er) as [Es Hm].
      fold word ex in Hm.
      eexists; split; [exact Es|].
      destruct (containsWordAsSubstring r) eqn:Hr.
      + split.
        * intros sp len Ht Hpos Hmatch.
          destruct (Nat.eq_dec sp i) as [->|Hne].
          -- destruct (Nat.eq_dec len j) as [->|Hnj]; [lia|].
             assert (len <= a) by (apply (Hup i len); auto; lia). lia.
          -- assert (len <= a) by (apply (Hup sp len); auto; lia). lia.
        * right. destruct (Nat.max_spec a j) as [[Hlt ->]|[Hge ->]].
          -- exists i. split; auto. now apply Hm.
          -- destruct Hwit as [->|Hwit]; [|assumption].
             assert (j = 0) by lia. unfold isTrial in Htrial. lia.
      + split; [|assumption].
        intros sp len Ht Hpos Hmatch.
        destruct (Nat.eq_dec sp i) as [->|Hne].
        * destruct (Nat.eq_dec len j) as [->|Hnj].
          -- apply Hm in Hmatch. discriminate.
          -- apply (Hup i len); auto; lia.
        * apply (Hup sp len); auto; lia.
    - exists answer'. split; auto.
      replace (Nat.max 1 (n - i + 1)) with (n - i + 1) in HI by lia.
      destruct HI as [Hup Hwit]. split; auto.
      intros sp len Ht Hpos Hmatch.
      apply (Hup sp len); auto.
      unfold isTrial in Ht. fold n in Ht. lia. }
  destruct (@forRangeM_inv nat (fun i a => Seen i 1 a) 0 n
              (fun startPosition answer =>
                 forRangeM 1 (n - startPosition + 1)
                   (fun length answer =>
                      solveTrial this startPosition length answer) answer)
              0) as [answer [E [Hup Hwit]]].
  - split; [|now left]. intros sp len _ Hpos. lia.
  - intros i a Hi HI. apply Hinner; [lia|assumption].
  - exists answer. split; [exact E|].
    split; auto.
    intros sp len Ht Hmatch. apply (Hup sp len); auto.
    unfold isTrial in Ht. fold n in Ht. lia.
Qed.

Lemma matchesWholeW_regex r W :
  wordOverABC W ->
  (matchesWholeW {| operands := []; expression := postfix r |} W
   <-> exists v, language r v /\ occursIn (wordChars W) v).
Proof.
  intros Hw. destruct (calculateValueOfExpression_regex r Hw) as [o [E R]].
  unfold matchesWholeW. rewrite E. split.
  - intros [o' [Ho Hm]]. injection Ho as <-. now apply (rep_whole R).
  - intros H. exists o. split; [reflexivity|]. now apply (rep_whole R).
Qed.

(** X15. For every regular expression over [a], [b], [c], epsilon, [+],
    [.], [*] and every non-empty word over [a], [b], [c], [solve] on the
    postfix text returns the greatest length of a contiguous substring of
    the word that occurs inside some word of the language of the
    expression, and [0] when no substring does. *)
Theorem solve_longest_occurrence (r : Regex) word :
  wordOverABC word ->
  exists answer,
    solve (solverFor (postfix r) word) = Ok answer
    /\ isLongestOccurrence (language r) word answer.
Proof.
  intros Hw.
  destruct (@solve_longest_when_trials_return (solverFor (postfix r) word))
    as [answer [E [Hup Hwit]]].
  - intros sp len Ht. cbn [solverFor Solver_word Solver_expression] in *.
    destruct (calculateValueOfExpression_regex r
                (substring_wordOverABC Hw Ht)) as [o [Eo _]].
    now exists o.
  - cbn [solverFor Solver_word Solver_expression] in *.
    exists answer. split; [exact E|]. split.
    + intros sp len Ht Hocc. apply (Hup sp len Ht).
      now apply (matchesWholeW_regex r (substring_wordOverABC Hw Ht)).
    + destruct Hwit as [->|[sp [Ht Hm]]]; [now left|right].
      exists sp. split; [assumption|].
      now apply (matchesWholeW_regex r (substring_wordOverABC Hw Ht)).
Qed.

Lemma solve_longest_occurrence_witness :
  exists answer,
    solve (solverFor
             (postfix (RMultiply (RStar (RPlus (RLetter La) (RLetter Lb)))
                         (RLetter Lc)))
             "abbacab") = Ok answer
    /\ isLongestOccurrence
         (language (RMultiply (RStar (RPlus (RLetter La) (RLetter Lb)))
                      (RLetter Lc)))
         "abbacab" answer.
Proof.
  apply (@solve_longest_occurrence
           (RMultiply (RStar (RPlus (RLetter La) (RLetter Lb))) (RLetter Lc))
           "abbacab").
  split; [discriminate|].
  intros i c H.
  do 7 (destruct i as [|i]; [injection H as <-; unfold inABC; auto|]).
  discriminate.
Defined.

(** ** The star loop is at rest after [L + 2] turns *)

(** X16. After [L + 2] turns the loop of [calculateKleeneStar] is at a
    fixed point, whatever the Operand popped: further turns change neither
    the current power nor the accumulated Operand. *)
Theorem kleene_star_loop_fixed_point word e further :
  kleeneStarLoop word e (String.length word + 2 + further)
  = kleeneStarLoop word e (String.length word + 2).
Proof.
  rewrite !kleeneStarLoop_powers. f_equal.
  - apply power_constant. lia.
  - apply sumOfPowers_constant. lia.
Qed.

(** ** Dimensions and assertions *)

Lemma calculateValueOfExpression_builtFor e W result :
  calculateValueOfExpression {| operands := []; expression := e |} W
  = Ok result ->
  builtFor W result.
Proof.
  unfold calculateValueOfExpression.
  destruct (checkWord W) as [[]|err]; [|discriminate].
  cbn [bind expression operands].
  destruct (evaluateTokens e W []) as [stack|err] eqn:E; [|discriminate].
  cbn [bind].
  pose proof (@evaluateTokens_builtFor e W [] stack (Forall_nil _) E) as Hs.
  destruct stack as [|top [|second rest]]; try discriminate.
  intros H; injection H as <-. now inversion Hs.
Qed.

(** X17. An Operand returned by the evaluator started on an empty stack
    is tied to the reference word: its [wordLength] is the length [L] of
    the word, its table has [L + 1] rows of [L + 1] cells and its two
    vectors have [L + 1] slots, whatever the expression. *)
Theorem evaluator_result_dimensions e W result :
  calculateValueOfExpression {| operands := []; expression := e |} W
  = Ok result ->
  wordLength result = String.length W
  /\ length (containsSubstring result) = String.length W + 1
  /\ (forall i, i <= String.length W ->
                length (nth i (containsSubstring result) [])
                = String.length W + 1)
  /\ length (containsSuffixEqualsToPrefix result) = String.length W + 1
  /\ length (containsPrefixEqualsToSuffix result) = String.length W + 1.
Proof.
  intros H. apply calculateValueOfExpression_builtFor in H.
  exact (builtFor_wellShaped H).
Qed.

Lemma evaluator_result_dimensions_witness :
  let result := operator_multiply (Operand_of_char "a" "ab")
                  (Operand_of_char "b" "ab") in
  wordLength result = String.length "ab"
  /\ length (containsSubstring result) = String.length "ab" + 1
  /\ (forall i, i <= String.length "ab" ->
                length (nth i (containsSubstring result) [])
                = String.length "ab" + 1)
  /\ length (containsSuffixEqualsToPrefix result) = String.length "ab" + 1
  /\ length (containsPrefixEqualsToSuffix result) = String.length "ab" + 1.
Proof.
  intros result.
  apply (@evaluator_result_dimensions "ab." "ab" result).
  reflexivity.
Defined.



(** ** The errors of the evaluator and of the search *)

Lemma checkSymbols_errors word m :
  checkSymbols word = Throw (ParseError m) ->
  exists c, m = ("Unknown symbol in word: " ++ string1 c)%string.
Proof.
  induction word as [|a w IH]; simpl; [discriminate|].
  destruct (Ascii.eqb a EPSILON || negb (isSymbolOfAlphabet a)).
  - intros H; injection H as <-. now exists a.
  - exact IH.
Qed.

Lemma checkWord_errors word m :
  checkWord word = Throw (ParseError m) ->
  (m = "Word is empty"%string /\ word = EmptyString)
  \/ exists c, m = ("Unknown symbol in word: " ++ string1 c)%string.
Proof.
  unfold checkWord. destruct word as [|a w].
  - intros H; injection H as <-. now left.
  - cbn [String.length Nat.eqb]. intros H. right.
    now apply (@checkSymbols_errors (String a w)).
Qed.

Lemma evaluateTokens_errors tokens W :
  forall stack m,
    evaluateTokens tokens W stack = Throw (ParseError m) ->
    m = "Missing operands"%string
    \/ exists c, m = ("Unknown symbol in expression: " ++ string1 c)%string.
Proof.
  induction tokens as [|t tokens IH]; intros stack m; cbn [evaluateTokens];
    [discriminate|].
  destruct (isOperator t) eqn:Eop.
  - apply isOperator_cases in Eop. destruct Eop as [-> | [-> | ->]].
    + change (operatorCode "+") with (Ok PLUS). cbn [bind calculateOperator].
      destruct stack as [|r [|l rest]]; cbn [bind].
      * intros H; injection H as <-; now left.
      * intros H; injection H as <-; now left.
      * apply IH.
    + change (operatorCode ".") with (Ok MULTIPLY).
      cbn [bind calculateOperator].
      destruct stack as [|r [|l rest]]; cbn [bind].
      * intros H; injection H as <-; now left.
      * intros H; injection H as <-; now left.
      * apply IH.
    + change (operatorCode "*") with (Ok KLEENE_STAR).
      cbn [bind calculateOperator calculateKleeneStar].
      destruct stack as [|x rest]; cbn [bind].
      * intros H; injection H as <-; now left.
      * apply IH.
  - destruct (isSymbolOfAlphabet t).
    + apply IH.
    + intros H; injection H as <-. right. now exists t.
Qed.

Lemma calculateValueOfExpression_errors this W m :
  calculateValueOfExpression this W = Throw (ParseError m) ->
  (m = "Word is empty"%string /\ W = EmptyString)
  \/ (exists c, m = ("Unknown symbol in word: " ++ string1 c)%string)
  \/ m = "Missing operands"%string
  \/ m = "Too much operands"%string
  \/ exists c, m = ("Unknown symbol in expression: " ++ string1 c)%string.
Proof.
  unfold calculateValueOfExpression.
  destruct (checkWord W) as [[]|[m']] eqn:Ec.
  - cbn [bind].
    destruct (evaluateTokens (expression this) W (operands this))
      as [stack|[m']] eqn:Ee.
    + cbn [bind]. destruct stack as [|top [|second rest]].
      * intros H; injection H as <-. auto.
      * discriminate.
      * intros H; injection H as <-. auto 6.
    + cbn [bind]. intros H; injection H as <-.
      destruct (evaluateTokens_errors _ _ _ Ee) as [->|Hc]; auto 6.
  - cbn [bind]. intros H; injection H as <-.
    destruct (checkWord_errors _ Ec) as [Hw|Hc]; auto.
Qed.

(** X19. The complete list of the errors of [calculateValueOfExpression]:
    the word is empty, a symbol of the word is unknown, operands are
    missing, operands are left over, or a symbol of the expression is
    unknown.  The error of [operatorCode], "Unknown operator symbol", is
    never thrown: only [+], [.] and [*] reach [operatorCode]. *)
Theorem evaluator_error_catalogue this W m :
  calculateValueOfExpression this W = Throw (ParseError m) ->
  ((m = "Word is empty"%string /\ W = EmptyString)
   \/ (exists c, m = ("Unknown symbol in word: " ++ string1 c)%string)
   \/ m = "Missing operands"%string
   \/ m = "Too much operands"%string
   \/ exists c, m = ("Unknown symbol in expression: " ++ string1 c)%string)
  /\ forall c, m <> ("Unknown operator symbol: " ++ string1 c)%string.
Proof.
  intros H. apply calculateValueOfExpression_errors in H.
  split; [assumption|]. intros c.
  destruct H as [[-> _]|[[d ->]|[->|[->|[d ->]]]]]; discriminate.
Qed.

Lemma evaluator_error_catalogue_witness :
  (("Too much operands"%string = "Word is empty"%string
    /\ "ab"%string = EmptyString)
   \/ (exists c, "Too much operands"%string
                 = ("Unknown symbol in word: " ++ string1 c)%string)
   \/ "Too much operands"%string = "Missing operands"%string
   \/ "Too much operands"%string = "Too much operands"%string
   \/ exists c, "Too much operands"%string
                = ("Unknown symbol in expression: " ++ string1 c)%string)
  /\ forall c, "Too much operands"%string
               <> ("Unknown operator symbol: " ++ string1 c)%string.
Proof.
  apply (@evaluator_error_catalogue
           {| operands := []; expression := "ab" |} "ab" "Too much operands").
  reflexivity.
Defined.

Lemma foldM_Throw_inv (S : Type) (body : nat -> S -> Result S) l :
  forall s e, foldM body l s = Throw e ->
  exists i s0, In i l /\ body i s0 = Throw e.
Proof.
  induction l as [|j l IH]; intros s e; simpl; [discriminate|].
  destruct (body j s) as [s1|e1] eqn:E.
  - intros H. destruct (IH s1 e H) as [i [s0 [Hi Hb]]].
    exists i, s0. split; [now right|assumption].
  - intros H; injection H as <-. exists j, s. split; [now left|assumption].
Qed.

Lemma substring_nonempty word startPosition length :
  isTrial word startPosition length ->
  substring startPosition length word <> EmptyString.
Proof.
  intros [Hs Hl] E.
  destruct (get_lt word Hs) as [c Hc].
  assert (G : String.get 0 (substring startPosition length word) = Some c).
  { rewrite substring_correct1 by lia. exact Hc. }
  rewrite E in G. discriminate.
Qed.

(** X20. The errors of [solve]: a symbol of a candidate is unknown,
    operands are missing, operands are left over, or a symbol of the
    expression is unknown.  [solve] never reports an empty word, because
    each candidate it evaluates has at least one character. *)
Theorem solve_error_catalogue (this : Solver) m :
  solve this = Throw (ParseError m) ->
  ((exists c, m = ("Unknown symbol in word: " ++ string1 c)%string)
   \/ m = "Missing operands"%string
   \/ m = "Too much operands"%string
   \/ exists c, m = ("Unknown symbol in expression: " ++ string1 c)%string)
  /\ m <> "Word is empty"%string.
Proof.
  intros H. unfold solve, forRangeM in H.
  apply foldM_Throw_inv in H. destruct H as [i [a [Hi H]]].
  apply foldM_Throw_inv in H. destruct H as [j [b [Hj H]]].
  apply in_seq in Hi. apply in_seq in Hj.
  unfold solveTrial in H.
  destruct (calculateValueOfExpression (Solver_expression this)
              (substring i j (Solver_word this))) as [r|[m']] eqn:E;
    [discriminate|].
  cbn [bind] in H. injection H as <-.
  apply calculateValueOfExpression_errors in E.
  assert (Ht : isTrial (Solver_word this) i j) by (unfold isTrial; lia).
  destruct E as [[_ E]|E].
  - exfalso. now apply (substring_nonempty Ht).
  - split; [assumption|].
    destruct E as [[d ->]|[->|[->|[d ->]]]]; discriminate.
Qed.

Lemma solve_error_catalogue_witness :
  ((exists c, "Unknown symbol in word: x"%string
              = ("Unknown symbol in word: " ++ string1 c)%string)
   \/ "Unknown symbol in word: x"%string = "Missing operands"%string
   \/ "Unknown symbol in word: x"%string = "Too much operands"%string
   \/ exists c, "Unknown symbol in word: x"%string
                = ("Unknown symbol in expression: " ++ string1 c)%string)
  /\ "Unknown symbol in word: x"%string <> "Word is empty"%string.
Proof.
  apply (@solve_error_catalogue (solverFor "ab." "xaby")
           "Unknown symbol in word: x").
  vm_compute. reflexivity.
Defined.

(** ** Malformed expressions *)

Lemma Postfix_regex e : Postfix e -> exists r, postfix r = e.
Proof.
  induction 1 as [c Hc|l r Hl [rl El] Hr [rr Er]|l r Hl [rl El] Hr [rr Er]
                 |e He [re Ee]].
  - unfold isSymbolOfAlphabet in Hc.
    rewrite !orb_true_iff, !Ascii.eqb_eq in Hc.
    destruct Hc as [[[-> | ->] | ->] | ->].
    + now exists (RLetter La).
    + now exists (RLetter Lb).
    + now exists (RLetter Lc).
    + now exists REpsilon.
  - exists (RPlus rl rr). cbn [postfix]. now rewrite El, Er.
  - exists (RMultiply rl rr). cbn [postfix]. now rewrite El, Er.
  - exists (RStar re). cbn [postfix]. now rewrite Ee.
Qed.

(** X21. On a non-empty word over [a], [b], [c]: two well-formed
    expressions written one after the other leave two operands and the
    evaluator throws "Too much operands"; a binary operator that follows
    one well-formed expression only, and any operator at the head of the
    expression, find too few operands and the evaluator throws "Missing
    operands", whatever follows; a token that is neither an operator nor
    a symbol of the alphabet at the head throws "Unknown symbol in
    expression". *)
Theorem malformed_expression_errors e1 e2 t rest W :
  Postfix e1 -> Postfix e2 -> wordOverABC W ->
  calculateValueOfExpression {| operands := []; expression := e1 ++ e2 |} W
  = Throw (ParseError "Too much operands")
  /\ calculateValueOfExpression
       {| operands := []; expression := e1 ++ String "+" rest |} W
     = Throw (ParseError "Missing operands")
  /\ calculateValueOfExpression
       {| operands := []; expression := e1 ++ String "." rest |} W
     = Throw (ParseError "Missing operands")
  /\ (isOperator t = true ->
      calculateValueOfExpression
        {| operands := []; expression := String t rest |} W
      = Throw (ParseError "Missing operands"))
  /\ (isOperator t = false -> isSymbolOfAlphabet t = false ->
      calculateValueOfExpression
        {| operands := []; expression := String t rest |} W
      = Throw (ParseError ("Unknown symbol in expression: " ++ string1 t))).
Proof.
  intros H1 H2 Hw.
  unfold calculateValueOfExpression. rewrite (checkWord_ok Hw).
  cbn [bind expression operands].
  destruct (Postfix_evaluates H1 W []) as [v1 E1].
  destruct (Postfix_evaluates H2 W [v1]) as [v2 E2].
  split; [|split; [|split; [|split]]].
  - rewrite evaluateTokens_app, E1. cbn [bind]. now rewrite E2.
  - now rewrite evaluateTokens_app, E1.
  - now rewrite evaluateTokens_app, E1.
  - intros Ht. apply isOperator_cases in Ht.
    destruct Ht as [-> | [-> | ->]]; reflexivity.
  - intros Ho Hs. cbn [evaluateTokens]. now rewrite Ho, Hs.
Qed.

Lemma malformed_expression_errors_witness :
  calculateValueOfExpression
    {| operands := []; expression := "ab." ++ "c" |} "abc"
  = Throw (ParseError "Too much operands")
  /\ calculateValueOfExpression
       {| operands := []; expression := "ab." ++ String "+" "c" |} "abc"
     = Throw (ParseError "Missing operands")
  /\ calculateValueOfExpression
       {| operands := []; expression := "ab." ++ String "." "c" |} "abc"
     = Throw (ParseError "Missing operands")
  /\ (isOperator "d" = true ->
      calculateValueOfExpression
        {| operands := []; expression := String "d" "c" |} "abc"
      = Throw (ParseError "Missing operands"))
  /\ (isOperator "d" = false -> isSymbolOfAlphabet "d" = false ->
      calculateValueOfExpression
        {| operands := []; expression := String "d" "c" |} "abc"
      = Throw (ParseError ("Unknown symbol in expression: " ++ string1 "d"))).
Proof.
  apply (@malformed_expression_errors "ab." "c" "d" "c" "abc").
  - apply (Postfix_multiply (Postfix_symbol "a" eq_refl)
             (Postfix_symbol "b" eq_refl)).
  - apply (Postfix_symbol "c" eq_refl).
  - split; [discriminate|].
    intros i c H.
    do 3 (destruct i as [|i]; [injection H as <-; unfold inABC; auto|]).
    discriminate.
Defined.
